(** * Chilling-Vibes: the detection engine and the relay retry loop

    A shallow embedding of
      - [src/config_loader.py]     ([ConfigLoader.get]),
      - [src/image_recognition.py] ([ImageRecognizer]: the colour predicate,
        the region average, the three polling locators and the fallback
        chain),
      - [src/relay_automation.py]  (the retry loop of [RelayAutomation.run]).

    Conventions.
      - Python integers are [Z]; [//] is [Z.div] (floor), [abs] is [Z.abs].
      - A colour or a pixel is the tuple of its channels, [list Z].
      - Wall-clock time is an integer number of milliseconds.  Reading the
        clock is free; time passes inside the operations that touch the
        screen ([locateCenterOnScreen], [screenshot], [image_to_data],
        [click]) and inside [time.sleep], which lasts at least as long as
        asked.  How long each of them lasts, and what is on the screen at
        each instant, is given by an environment [Env].
      - The polling loops are [while] loops on the clock; they are written
        with a fuel argument and return [None] when it runs out.
        [poll_fuel] is enough fuel for every run.
      - Exceptions that the Python catches are results ([None], or a
        constructor of their own) handled where the [except] clause is.
        The configuration is typed ([Settings], [ColorRule]), so entries of
        the wrong shape, whose exceptions nothing would catch, are not
        inputs.
      - Text is ASCII: [lower] changes the letters A to Z only. *)

From Stdlib Require Import ZArith Lia List Bool Ascii.
From stdpp Require Import gmap strings list fin_maps.
Import ListNotations.

Local Open Scope Z_scope.

(** ** Colours ([ImageRecognizer._color_match], [_average_color]) *)

Module Color.

(** A colour as Python has it: the tuple (or list) of its channels. *)
Definition Color := list Z.

(** [abs(c1 - c2) <= tolerance], the test made on one zipped pair. *)
Definition channel_close (tolerance : Z) (p : Z * Z) : bool :=
  Z.abs (fst p - snd p) <=? tolerance.

(** [all(abs(c1 - c2) <= tolerance for c1, c2 in zip(color1, color2))] *)
Definition _color_match (color1 color2 : Color) (tolerance : Z) : bool :=
  forallb (channel_close tolerance) (combine color1 color2).

(** An RGB triple. *)
Definition rgb (r g b : Z) : Color := [r; g; b].

(** Channel [c] of a colour, [color[c]]; [None] is Python's IndexError. *)
Definition channel (col : Color) (c : nat) : option Z := nth_error col c.

(** [sum(c[i] for c in pixels)]: [None] when some pixel has no channel
    [i] (IndexError). *)
Fixpoint channel_sum (i : nat) (pixels : list Color) : option Z :=
  match pixels with
  | [] => Some 0
  | c :: rest =>
      match channel c i, channel_sum i rest with
      | Some v, Some s => Some (v + s)
      | _, _ => None
      end
  end.

(** [_average_color], on the pixel list [list(pil_image.getdata())].
    [None] stands for the exception the Python raises: ZeroDivisionError
    when there is no pixel, IndexError when a pixel has fewer than three
    channels. *)
Definition _average_color (pixels : list Color) : option Color :=
  let num_pixels := Z.of_nat (length pixels) in
  if num_pixels =? 0 then None
  else
    match channel_sum 0 pixels, channel_sum 1 pixels, channel_sum 2 pixels with
    | Some r, Some g, Some b =>
        Some [r / num_pixels; g / num_pixels; b / num_pixels]
    | _, _, _ => None
    end.

End Color.

(** ** Screenshots (the part of PIL the recognizer uses) *)

Module Img.
Import Color.

(** A PIL image: its size and the pixel at each coordinate.  Only the
    coordinates inside the size are part of the image. *)
Record Image := mkImage {
  im_width : Z;
  im_height : Z;
  im_px : Z -> Z -> Color
}.

Definition in_bounds (img : Image) (x y : Z) : bool :=
  (0 <=? x) && (x <? im_width img) && (0 <=? y) && (y <? im_height img).

(** [Image.getpixel((x, y))]: a negative coordinate counts from the far
    edge; outside the image PIL raises IndexError ([None]). *)
Definition getpixel (img : Image) (x y : Z) : option Color :=
  let x' := if x <? 0 then im_width img + x else x in
  let y' := if y <? 0 then im_height img + y else y in
  if in_bounds img x' y' then Some (im_px img x' y') else None.

(** [Image.crop((x0, y0, x1, y1))]: PIL raises ValueError ([None]) when the
    right edge is left of the left edge or the lower edge above the upper
    one; otherwise the result has size [(x1 - x0, y1 - y0)] and every pixel
    of the box that is not in the source image is filled with zeros. *)
Definition crop (img : Image) (box : Z * Z * Z * Z) : option Image :=
  let '(x0, y0, x1, y1) := box in
  if (x1 <? x0) || (y1 <? y0) then None
  else Some {| im_width := x1 - x0;
               im_height := y1 - y0;
               im_px := fun i j =>
                 if in_bounds img (x0 + i) (y0 + j)
                 then im_px img (x0 + i) (y0 + j)
                 else [0; 0; 0] |}.

(** [list(img.getdata())]: the pixels, row by row. *)
Definition getdata (img : Image) : list Color :=
  flat_map (fun j => map (fun i => im_px img i j) (seqZ 0 (im_width img)))
           (seqZ 0 (im_height img)).

(** Lines 118-119 of [find_pixel_and_click], the body of its [try]:
    [region_img = screenshot.crop((left, top, left + width, top + height))]
    then [self._average_color(region_img)].  [None] is any exception, which
    the caller logs before it moves on to the next rule. *)
Definition region_average (screenshot : Image) (region : Z * Z * Z * Z)
  : option Color :=
  let '(left_, top, width, height) := region in
  match crop screenshot (left_, top, left_ + width, top + height) with
  | Some region_img => _average_color (getdata region_img)
  | None => None
  end.

End Img.

(** ** OCR output and the word scan of [find_text_and_click] *)

Module Ocr.

(** [pytesseract.image_to_data(..., output_type=Output.DICT)]: parallel
    lists, one entry per word in the order the engine emits them. *)
Record OcrData := mkOcr {
  ocr_text : list string;
  ocr_left : list Z;
  ocr_top : list Z;
  ocr_width : list Z;
  ocr_height : list Z;
  ocr_conf : list Z
}.

(** [str.lower()] on ASCII text: a character with a code below 128 other
    than the letters A to Z is its own lower case.  Text with other
    characters, which Python lower-cases by the Unicode tables, is outside
    what this definition covers. *)
Definition lower_ascii (c : ascii) : ascii :=
  let n := nat_of_ascii c in
  if ((65 <=? n) && (n <=? 90))%nat then ascii_of_nat (n + 32) else c.

Fixpoint lower (s : string) : string :=
  match s with
  | EmptyString => EmptyString
  | String c rest => String (lower_ascii c) (lower rest)
  end.

(** [needle in hay] on strings. *)
Fixpoint str_in (needle hay : string) : bool :=
  String.prefix needle hay ||
  match hay with
  | EmptyString => false
  | String _ rest => str_in needle rest
  end.

(** [text.lower() in word.lower()] *)
Definition word_matches (text word : string) : bool :=
  str_in (lower text) (lower word).

Inductive Scan :=
| Hit (x y : Z)      (* the point that is clicked *)
| Miss               (* the [for] loop ends without a match *)
| ScanError.         (* IndexError on a box list: caught and logged *)

(** The [for i, word in enumerate(ocr_result['text'])] loop: the first word
    that matches decides. *)
Fixpoint scan_words (text : string) (d : OcrData) (i : nat) (words : list string)
  : Scan :=
  match words with
  | [] => Miss
  | word :: rest =>
      if word_matches text word then
        match nth_error (ocr_left d) i, nth_error (ocr_width d) i,
              nth_error (ocr_top d) i, nth_error (ocr_height d) i with
        | Some left_, Some width, Some top, Some height =>
            Hit (left_ + width / 2) (top + height / 2)
        | _, _, _, _ => ScanError
        end
      else scan_words text d (S i) rest
  end.

Definition scan (text : string) (d : OcrData) : Scan :=
  scan_words text d 0%nat (ocr_text d).

End Ocr.

(** ** Configuration values and [ConfigLoader.get] *)

Module Config.

(** What [yaml.safe_load] returns.  A mapping is a Python dict; lookups in
    this program use string keys only. *)
#[warnings="-register-all"]
Inductive Yaml :=
| YNone
| YBool (b : bool)
| YInt (n : Z)
| YFloat (literal : string)
| YStr (s : string)
| YList (items : list Yaml)
| YDict (entries : gmap string Yaml).

Inductive PyExn := KeyError | TypeError.

Inductive Res (A : Type) :=
| Ok (a : A)
| Raise (e : PyExn).
Arguments Ok {A} a.
Arguments Raise {A} e.

(** [isinstance(d, dict)] *)
Definition isinstance_dict (d : Yaml) : bool :=
  match d with YDict _ => true | _ => false end.

(** [key in d], evaluated only after [isinstance(d, dict)] held. *)
Definition contains (d : Yaml) (key : string) : bool :=
  match d with
  | YDict entries => bool_decide (is_Some (entries !! key))
  | _ => false
  end.

(** [d[key]]: KeyError on a missing key, TypeError on a value that cannot
    be indexed by a string. *)
Definition getitem (d : Yaml) (key : string) : Res Yaml :=
  match d with
  | YDict entries =>
      match entries !! key with
      | Some v => Ok v
      | None => Raise KeyError
      end
  | _ => Raise TypeError
  end.

(** The [for key in keys] loop of [get], started from [d]. *)
Fixpoint get_from (d : Yaml) (keys : list string) (default : Yaml) : Res Yaml :=
  match keys with
  | [] => Ok d
  | key :: rest =>
      if isinstance_dict d && contains d key then
        match getitem d key with
        | Ok v => get_from v rest default
        | Raise e => Raise e
        end
      else Ok default
  end.

(** [ConfigLoader.get], called with the keys [keys] and [default], on a loader whose [self.data]
    is [data]. *)
Definition get (data : Yaml) (keys : list string) (default : Yaml) : Res Yaml :=
  get_from data keys default.

(** [reaches d keys v]: every key of the path is present in successive
    nested dicts, and [v] is the value at its end. *)
Inductive reaches : Yaml -> list string -> Yaml -> Prop :=
| reaches_here d : reaches d [] d
| reaches_step entries key child rest v :
    entries !! key = Some child ->
    reaches child rest v ->
    reaches (YDict entries) (key :: rest) v.

(** The same as a function: the value at the end of the path, if any. *)
Fixpoint resolve (d : Yaml) (keys : list string) : option Yaml :=
  match keys with
  | [] => Some d
  | key :: rest =>
      match d with
      | YDict entries =>
          match entries !! key with
          | Some v => resolve v rest
          | None => None
          end
      | _ => None
      end
  end.

End Config.

(** ** The world the recognizer acts on *)

Module World.
Import Color Img Ocr.

Inductive Stage := Template | OcrText | Pixel.

(** The messages the recognizer hands to [logging]. *)
Inductive Log :=
| LogMessage (message : string)
| LogNoTemplate (key : string)
| LogLocateError (path : string)
| LogNoPixelRule (key : string)
| LogPixelReadError (idx : nat)
| LogRegionReadError (idx : nat)
| LogBadRule (idx : nat)
| LogPixelMatched (key : string) (number : nat) (x y : Z)
| LogLookingForText (text : string)
| LogOcrError
| LogTimedOut (st : Stage)
| LogBudgetExpired (st : Stage)
| LogTrying (st : Stage) (remaining : Z)
| LogOcrSkipped (key : string)
| LogAllFailed (key : string) (timeout : Z).

(** What an observer of a run sees.  [EvCall st timeout] records that the
    locator of stage [st] was entered with that timeout, as a test double
    counting calls would. *)
Inductive Event :=
| EvCall (st : Stage) (timeout : Z)
| EvLocate (path : string)
| EvScreenshot
| EvOcr
| EvClick (x y : Z)
| EvSleep (ms : N)
| EvLog (msg : Log).

(** The clock and the history so far, oldest event first, each with the time
    at which it began. *)
Record World := mkWorld {
  now : Z;
  trace : list (Z * Event)
}.

(** The operations that take time. *)
Inductive Op := OpLocate | OpScreenshot | OpOcr | OpClick | OpSleep.

(** Result of [pyautogui.locateCenterOnScreen]. *)
Inductive Located :=
| Found (x y : Z)
| NotFound
| LocateError.

(** The desktop: what a sensing call made at time [t] returns and how long
    an operation started at [t] lasts (for [OpSleep]: how much longer than
    asked). *)
Record Env := mkEnv {
  screen : Z -> Image;
  locate : string -> Z -> Located;
  image_to_data : Image -> option OcrData;
  duration : Op -> Z -> N
}.

(** A computation on the world; [None] when a polling loop ran out of
    fuel. *)
Definition M (A : Type) : Type := World -> option (A * World).

Definition ret {A} (a : A) : M A := fun w => Some (a, w).

Definition bind {A B} (m : M A) (k : A -> M B) : M B :=
  fun w => match m w with
           | Some (a, w') => k a w'
           | None => None
           end.

Declare Scope world_scope.
Delimit Scope world_scope with world.
Notation "x <- m ;; k" := (bind m (fun x => k))
  (at level 100, m at next level, right associativity) : world_scope.
Notation "m ;; k" := (bind m (fun _ => k))
  (at level 100, right associativity) : world_scope.
Local Open Scope world_scope.

Definition emit (e : Event) : M unit :=
  fun w => Some (tt, {| now := now w; trace := trace w ++ [(now w, e)] |}).

Definition logging (msg : Log) : M unit := emit (EvLog msg).

(** [if message: logging.info(message)] *)
Definition log_message (message : option string) : M unit :=
  match message with
  | Some (String c s) => logging (LogMessage (String c s))
  | _ => ret tt
  end.

Section Primitives.
Variable env : Env.

(** Let an operation started now run to its end. *)
Definition elapse (op : Op) (asked : N) : M unit :=
  fun w => Some (tt, {| now := now w + Z.of_N asked + Z.of_N (duration env op (now w));
                        trace := trace w |}).

(** [time.time()] *)
Definition time_time : M Z := fun w => Some (now w, w).

(** [time.sleep(ms / 1000)] *)
Definition time_sleep (ms : N) : M unit :=
  emit (EvSleep ms) ;; elapse OpSleep ms.

(** [pyautogui.locateCenterOnScreen(path, confidence=self.confidence)] *)
Definition locateCenterOnScreen (path : string) : M Located :=
  emit (EvLocate path) ;;
  t <- time_time ;;
  elapse OpLocate 0 ;;
  ret (locate env path t).

(** [pyautogui.screenshot()] *)
Definition screenshot : M Image :=
  emit EvScreenshot ;;
  t <- time_time ;;
  elapse OpScreenshot 0 ;;
  ret (screen env t).

(** [pytesseract.image_to_data(screenshot, ...)]; [None]: it raised. *)
Definition run_ocr (img : Image) : M (option OcrData) :=
  emit EvOcr ;;
  elapse OpOcr 0 ;;
  ret (image_to_data env img).

(** [pyautogui.click(x, y)] *)
Definition click (x y : Z) : M unit :=
  emit (EvClick x y) ;; elapse OpClick 0.

End Primitives.

End World.

(** ** [ImageRecognizer]: the three locators and the fallback chain *)

Module Recognizer.
Import Color Img Ocr World.
Local Open Scope world_scope.

(** One entry of [config['pixels'][key]], by the keys it has: both ["x"]
    and ["y"], else ["region"], else neither.  [tolerance] is [None] when
    the entry has no such key. *)
Inductive ColorRule :=
| PointRule (x y : Z) (color : Color) (tolerance : option Z)
| RegionRule (region : Z * Z * Z * Z) (color : Color) (tolerance : option Z)
| BadRule (color : Color) (tolerance : option Z).

(** The configuration values the recognizer reads through
    [self.config.get]: [templates], [pixels], [delays.operation] (in
    milliseconds; 1000 when absent) and [ocr.enabled] (true when absent). *)
Record Settings := mkSettings {
  templates : gmap string string;
  pixels : gmap string (list ColorRule);
  delay_operation : N;
  ocr_enabled : bool
}.

(** [pixel_cfg.get("tolerance", 10)] *)
Definition rule_tolerance (tolerance : option Z) : Z :=
  match tolerance with Some t => t | None => 10 end.

(** The polling interval, [time.sleep(0.5)]. *)
Definition poll_interval : N := 500%N.

Section Locators.
Variable env : Env.
Variable cfg : Settings.

(** The [while time.time() - start_time < timeout] loop of
    [find_and_click]. *)
Fixpoint template_poll (fuel : nat) (template_path : string) (start_time timeout : Z)
  : M bool :=
  match fuel with
  | O => fun _ => None
  | S fuel' =>
      t <- time_time ;;
      if t - start_time <? timeout then
        location <- locateCenterOnScreen env template_path ;;
        match location with
        | Found x y =>
            click env x y ;;
            time_sleep env (delay_operation cfg) ;;
            ret true
        | NotFound =>
            time_sleep env poll_interval ;;
            template_poll fuel' template_path start_time timeout
        | LocateError =>
            logging (LogLocateError template_path) ;;
            time_sleep env poll_interval ;;
            template_poll fuel' template_path start_time timeout
        end
      else
        logging (LogTimedOut Template) ;;
        ret false
  end.

(** [find_and_click(template_key, timeout, message)] *)
Definition find_and_click (fuel : nat) (template_key : string) (timeout : Z)
    (message : option string) : M bool :=
  emit (EvCall Template timeout) ;;
  match templates cfg !! template_key with
  | Some (String c s) =>
      log_message message ;;
      start_time <- time_time ;;
      template_poll fuel (String c s) start_time timeout
  | _ =>
      logging (LogNoTemplate template_key) ;;
      ret false
  end.

(** The [for idx, pixel_cfg in enumerate(pixel_cfgs)] loop on one
    screenshot; [true] when a rule matched and was clicked. *)
Fixpoint scan_rules (shot : Image) (key : string) (idx : nat)
    (pixel_cfgs : list ColorRule) : M bool :=
  match pixel_cfgs with
  | [] => ret false
  | PointRule x y expected_color tolerance :: rest =>
      match getpixel shot x y with
      | None =>
          logging (LogPixelReadError idx) ;;
          scan_rules shot key (S idx) rest
      | Some pixel_color =>
          if _color_match pixel_color expected_color (rule_tolerance tolerance) then
            click env x y ;;
            time_sleep env (delay_operation cfg) ;;
            logging (LogPixelMatched key (idx + 1) x y) ;;
            ret true
          else scan_rules shot key (S idx) rest
      end
  | RegionRule (left_, top, width, height) expected_color tolerance :: rest =>
      match region_average shot (left_, top, width, height) with
      | None =>
          logging (LogRegionReadError idx) ;;
          scan_rules shot key (S idx) rest
      | Some avg_color =>
          if _color_match avg_color expected_color (rule_tolerance tolerance) then
            let cx := left_ + width / 2 in
            let cy := top + height / 2 in
            click env cx cy ;;
            time_sleep env (delay_operation cfg) ;;
            logging (LogPixelMatched key (idx + 1) cx cy) ;;
            ret true
          else scan_rules shot key (S idx) rest
      end
  | BadRule _ _ :: rest =>
      logging (LogBadRule idx) ;;
      scan_rules shot key (S idx) rest
  end.

(** The [while] loop of [find_pixel_and_click]. *)
Fixpoint pixel_poll (fuel : nat) (key : string) (pixel_cfgs : list ColorRule)
    (start_time timeout : Z) : M bool :=
  match fuel with
  | O => fun _ => None
  | S fuel' =>
      t <- time_time ;;
      if t - start_time <? timeout then
        shot <- screenshot env ;;
        matched <- scan_rules shot key 0 pixel_cfgs ;;
        if matched then ret true
        else
          time_sleep env poll_interval ;;
          pixel_poll fuel' key pixel_cfgs start_time timeout
      else
        logging (LogTimedOut Pixel) ;;
        ret false
  end.

(** [find_pixel_and_click(key, timeout, message)] *)
Definition find_pixel_and_click (fuel : nat) (key : string) (timeout : Z)
    (message : option string) : M bool :=
  emit (EvCall Pixel timeout) ;;
  match pixels cfg !! key with
  | Some (rule :: rules) =>
      log_message message ;;
      start_time <- time_time ;;
      pixel_poll fuel key (rule :: rules) start_time timeout
  | _ =>
      logging (LogNoPixelRule key) ;;
      ret false
  end.

(** The [while] loop of [find_text_and_click]. *)
Fixpoint text_poll (fuel : nat) (text : string) (start_time timeout : Z) : M bool :=
  match fuel with
  | O => fun _ => None
  | S fuel' =>
      t <- time_time ;;
      if t - start_time <? timeout then
        shot <- screenshot env ;;
        ocr_result <- run_ocr env shot ;;
        match ocr_result with
        | Some d =>
            match scan text d with
            | Hit x y =>
                click env x y ;;
                time_sleep env (delay_operation cfg) ;;
                ret true
            | Miss =>
                time_sleep env poll_interval ;;
                text_poll fuel' text start_time timeout
            | ScanError =>
                logging LogOcrError ;;
                time_sleep env poll_interval ;;
                text_poll fuel' text start_time timeout
            end
        | None =>
            logging LogOcrError ;;
            time_sleep env poll_interval ;;
            text_poll fuel' text start_time timeout
        end
      else
        logging (LogTimedOut OcrText) ;;
        ret false
  end.

(** [find_text_and_click(text, timeout=timeout)], on the whole screen
    ([region=None], as every caller has it). *)
Definition find_text_and_click (fuel : nat) (text : string) (timeout : Z) : M bool :=
  emit (EvCall OcrText timeout) ;;
  if negb (ocr_enabled cfg) then ret false
  else
    logging (LogLookingForText text) ;;
    start_time <- time_time ;;
    text_poll fuel text start_time timeout.

(** Truth value of the [text] argument: [None] and the empty string are
    false. *)
Definition text_given (text : option string) : option string :=
  match text with
  | Some (String c s) => Some (String c s)
  | _ => None
  end.

(** Step 3 of [find_with_fallback_and_click]. *)
Definition pixel_fallback (fuel : nat) (key : string) (timeout start_time : Z)
  : M bool :=
  t <- time_time ;;
  let remaining := timeout - (t - start_time) in
  if remaining <=? 0 then
    logging (LogBudgetExpired Pixel) ;;
    ret false
  else
    logging (LogTrying Pixel remaining) ;;
    found <- find_pixel_and_click fuel key remaining None ;;
    if found then ret true
    else
      logging (LogAllFailed key timeout) ;;
      ret false.

(** Step 2 of [find_with_fallback_and_click], followed by step 3. *)
Definition ocr_fallback (fuel : nat) (key : string) (text : option string)
    (timeout start_time : Z) : M bool :=
  match (if ocr_enabled cfg then text_given text else None) with
  | Some txt =>
      t <- time_time ;;
      let remaining := timeout - (t - start_time) in
      if remaining <=? 0 then
        logging (LogBudgetExpired OcrText) ;;
        ret false
      else
        logging (LogTrying OcrText remaining) ;;
        found <- find_text_and_click fuel txt remaining ;;
        if found then ret true
        else pixel_fallback fuel key timeout start_time
  | None =>
      logging (LogOcrSkipped key) ;;
      pixel_fallback fuel key timeout start_time
  end.

(** [find_with_fallback_and_click(key, text, timeout, message)] *)
Definition find_with_fallback_and_click (fuel : nat) (key : string)
    (text : option string) (timeout : Z) (message : option string) : M bool :=
  start_time <- time_time ;;
  log_message message ;;
  t <- time_time ;;
  let remaining := timeout - (t - start_time) in
  if remaining <=? 0 then
    logging (LogBudgetExpired Template) ;;
    ret false
  else
    logging (LogTrying Template remaining) ;;
    found <- find_and_click fuel key remaining None ;;
    if found then ret true
    else ocr_fallback fuel key text timeout start_time.

End Locators.

(** Fuel that lets every polling loop with this timeout run to its end:
    each pass that does not return sleeps at least [poll_interval]. *)
Definition poll_fuel (timeout : Z) : nat := (Z.to_nat (timeout / 500) + 2)%nat.

End Recognizer.

(** ** The retry loop of [RelayAutomation.run] *)

Module Relay.

(** [retries.max_retries_per_iteration], [retries.backoff_base_seconds] and
    [retries.max_backoff_seconds]. *)
Record RetryConfig := mkRetry {
  max_retries : Z;
  backoff_base : Z;
  max_backoff : Z
}.

(** The values [run] uses when the configuration has none. *)
Definition default_retry : RetryConfig :=
  {| max_retries := 5; backoff_base := 2; max_backoff := 30 |}.

(** How one pass through the inner [while True] goes.  The body of the
    [try] (window focus, detection, clipboard, paste, submit) is taken by
    the way it ends. *)
Inductive Outcome :=
| Paused           (* [self.paused] was set: wait, then [continue] *)
| Completed        (* the body reached [break  # success] *)
| Failed           (* the body raised RuntimeError *)
| Rerun            (* the body reached one of its [continue]s *)
| Interrupted.     (* any other exception, or KeyboardInterrupt *)

(** The two counters of the loop: [self.iterations] and the local
    [retries]. *)
Record Counters := mkCounters {
  iterations : Z;
  retries : Z
}.

Inductive RunEvent :=
| PauseWait
| Start (iteration attempt : Z)   (* "Starting relay iteration #i, attempt #a" *)
| Success (iteration : Z)         (* "Relay iteration #i completed successfully" *)
| AttemptFailed (attempt : Z)     (* "Attempt a failed" *)
| Exhausted (iteration : Z)       (* "Max retries reached for iteration #i. Skipping." *)
| Backoff (seconds : Z)           (* [time.sleep(backoff)] *)
| Stopped.

(** [min(backoff_base * (2 ** (retries - 1)), max_backoff)] *)
Definition backoff (c : RetryConfig) (retries : Z) : Z :=
  Z.min (backoff_base c * 2 ^ (retries - 1)) (max_backoff c).

(** The nested loops of [run], driven by the outcomes of the successive
    passes.  Leaving the inner loop by [break] re-enters it with
    [retries = 0].  [time.sleep(backoff)] is taken to return, as it does
    for a backoff that is not negative. *)
Fixpoint run (c : RetryConfig) (outcomes : list Outcome) (st : Counters)
  : list RunEvent * Counters :=
  match outcomes with
  | [] => ([], st)
  | Paused :: rest =>
      let '(evs, st') := run c rest st in (PauseWait :: evs, st')
  | body :: rest =>
      let iteration := iterations st + 1 in
      let started := Start iteration (retries st + 1) in
      match body with
      | Completed =>
          let '(evs, st') :=
            run c rest {| iterations := iteration; retries := 0 |} in
          (started :: Success iteration :: evs, st')
      | Rerun =>
          let '(evs, st') :=
            run c rest {| iterations := iteration; retries := retries st |} in
          (started :: evs, st')
      | Failed =>
          let retries' := retries st + 1 in
          if max_retries c <=? retries' then
            let '(evs, st') :=
              run c rest {| iterations := iteration; retries := 0 |} in
            (started :: AttemptFailed retries' :: Exhausted iteration :: evs, st')
          else
            let '(evs, st') :=
              run c rest {| iterations := iteration; retries := retries' |} in
            (started :: AttemptFailed retries' :: Backoff (backoff c retries') :: evs,
             st')
      | _ => ([started; Stopped], {| iterations := iteration; retries := retries st |})
      end
  end.

(** A fresh [RelayAutomation]: [self.iterations = 0]. *)
Definition fresh : Counters := {| iterations := 0; retries := 0 |}.

(** The sleeps of a run, in order. *)
Definition sleeps (evs : list RunEvent) : list Z :=
  flat_map (fun e => match e with Backoff s => [s] | _ => [] end) evs.

(** The attempts started in a run, in order, as (iteration, attempt). *)
Definition starts (evs : list RunEvent) : list (Z * Z) :=
  flat_map (fun e => match e with Start i a => [(i, a)] | _ => [] end) evs.

End Relay.

(** ** Vocabulary of the statements *)

Module Spec.
Import Color Img Ocr World.

(** The coordinates of a rectangle, row by row. *)
Definition rect_coords (left_ top width height : Z) : list (Z * Z) :=
  flat_map (fun j => map (fun i => (left_ + i, top + j)) (seqZ 0 width))
           (seqZ 0 height).

(** The pixel of the image at a coordinate. *)
Definition pixel_at (img : Image) (xy : Z * Z) : Color :=
  im_px img (fst xy) (snd xy).

(** The same, with black for a coordinate that is not in the image. *)
Definition pixel_or_black (img : Image) (xy : Z * Z) : Color :=
  if in_bounds img (fst xy) (snd xy) then pixel_at img xy else [0; 0; 0].

(** The sum of channel [c] over a list of pixels. *)
Definition channel_total (c : nat) (pixels : list Color) : Z :=
  fold_right Z.add 0 (map (fun px => nth c px 0) pixels).

(** The floor of the mean of each of the channels R, G and B. *)
Definition mean_color (pixels : list Color) : Color :=
  let n := Z.of_nat (length pixels) in
  [channel_total 0 pixels / n; channel_total 1 pixels / n;
   channel_total 2 pixels / n].

(** The rectangle lies within the image. *)
Definition rect_inside (img : Image) (region : Z * Z * Z * Z) : bool :=
  let '(left_, top, width, height) := region in
  (0 <=? left_) && (0 <=? top)
  && (left_ + width <=? im_width img) && (top + height <=? im_height img).

(** Every pixel of the image has at least the channels R, G and B. *)
Definition rgb_image (img : Image) : Prop :=
  forall x y, in_bounds img x y = true -> (3 <= length (im_px img x y))%nat.

(** An image of one colour. *)
Definition solid (width height : Z) (c : Color) : Image :=
  {| im_width := width; im_height := height; im_px := fun _ _ => c |}.

(** The clicks of a history, in order. *)
Definition clicks (tr : list (Z * Event)) : list (Z * Z) :=
  flat_map (fun te => match snd te with EvClick x y => [(x, y)] | _ => [] end) tr.

(** The sleeps of a history, in order. *)
Definition naps (tr : list (Z * Event)) : list N :=
  flat_map (fun te => match snd te with EvSleep ms => [ms] | _ => [] end) tr.

(** How often the locator of a stage was entered. *)
Definition is_call (st : Stage) (e : Event) : bool :=
  match e, st with
  | EvCall Template _, Template => true
  | EvCall OcrText _, OcrText => true
  | EvCall Pixel _, Pixel => true
  | _, _ => false
  end.

Definition calls (st : Stage) (tr : list (Z * Event)) : nat :=
  length (List.filter (fun te => is_call st (snd te)) tr).

(** The part of a history that a run added to [before]. *)
Definition added (before after : World) : list (Z * Event) :=
  skipn (length (trace before)) (trace after).

End Spec.

(** ** Histories of a run *)

Module History.
Import World.

(** Events that neither enter a locator nor report an expired budget. *)
Definition quiet (te : Z * Event) : Prop :=
  match snd te with
  | EvCall _ _ => False
  | EvLog (LogBudgetExpired _) => False
  | _ => True
  end.

(** [w'] comes after [w]: the clock did not go back and the history grew by
    events that satisfy [P]. *)
Definition extends (P : Z * Event -> Prop) (w w' : World) : Prop :=
  now w <= now w' /\ exists evs, trace w' = trace w ++ evs /\ Forall P evs.

(** The locator of stage [st] ran from [w] to [w'] with timeout [r]: its
    entry is recorded first, and only quiet events follow. *)
Definition stage_run (st : Stage) (r : Z) (w w' : World) : Prop :=
  now w <= now w'
  /\ exists evs, trace w' = trace w ++ (now w, EvCall st r) :: evs
                 /\ Forall quiet evs.

(** Events other than the report of an expired budget. *)
Definition calm (te : Z * Event) : Prop :=
  match snd te with
  | EvLog (LogBudgetExpired _) => False
  | _ => True
  end.

(** For a call that began at [s] with total timeout [T]: a locator entered
    at time [t] gets [T - (t - s)], which is positive; an expired budget is
    reported only when [T - (t - s) <= 0]. *)
Definition within_budget (s T : Z) (te : Z * Event) : Prop :=
  match snd te with
  | EvCall _ r => r = T - (fst te - s) /\ 0 < r
  | EvLog (LogBudgetExpired _) => T - (fst te - s) <= 0
  | _ => True
  end.

(** Either no budget expired, or the expiry is the last event and the
    result is a failure. *)
Definition settled (b : bool) (evs : list (Z * Event)) : Prop :=
  Forall calm evs
  \/ (b = false /\ exists pre t st,
        evs = pre ++ [(t, EvLog (LogBudgetExpired st))] /\ Forall calm pre).

(** A run of the fallback chain that began at [s] with total timeout [T]. *)
Definition fallback_run (s T : Z) (b : bool) (w w' : World) : Prop :=
  now w <= now w'
  /\ exists evs, trace w' = trace w ++ evs
                 /\ Forall (within_budget s T) evs
                 /\ settled b evs.

(** Events that only write to the log. *)
Definition log_only (te : Z * Event) : Prop :=
  match snd te with
  | EvLog _ => True
  | _ => False
  end.

(** Events other than the report of a locator that timed out. *)
Definition steady (te : Z * Event) : Prop :=
  match snd te with
  | EvLog (LogTimedOut _) => False
  | _ => True
  end.

(** The events of the locator of stage [st], which ran with timeout [r]
    from time [t0] to time [t1] and returned [b]: either none of them
    reports a timeout, or the last one does, at the time the locator
    returned, which is [r] or more after its start, and the result is a
    failure. *)
Definition stage_end (st : Stage) (r t0 t1 : Z) (b : bool)
    (evs : list (Z * Event)) : Prop :=
  Forall steady evs
  \/ (b = false /\ t0 + r <= t1
      /\ exists pre, evs = pre ++ [(t1, EvLog (LogTimedOut st))]
                     /\ Forall steady pre).

(** The events of (a part of) a call that began at [s] with total timeout
    [T] and returned [b] at time [e]: either no locator timed out, or one
    did, at a time when nothing of the budget was left, and the call failed
    there and then: only log entries follow, and the call returned at the
    time of the timeout. *)
Definition chain_end (s T : Z) (b : bool) (e : Z) (evs : list (Z * Event))
  : Prop :=
  Forall steady evs
  \/ exists pre t st post,
       evs = pre ++ (t, EvLog (LogTimedOut st)) :: post
       /\ Forall steady pre /\ Forall steady post /\ Forall log_only post
       /\ T - (t - s) <= 0 /\ b = false /\ e = t.

End History.

(** ** Scenarios *)

Module Scenario.
Import Color Img Ocr World Recognizer Spec.

(** A desktop on which every operation is instantaneous. *)
Definition instant : Op -> Z -> N := fun _ _ => 0%N.

(** A desktop on which a template search takes 300 ms. *)
Definition slow_locate : Op -> Z -> N :=
  fun op _ => match op with OpLocate => 300%N | _ => 0%N end.

Definition start : World := {| now := 0; trace := [] |}.

(** The words of an editor window without a "Copy" label. *)
Definition menu_words : OcrData :=
  {| ocr_text := ["File"; "Edit"; "View"]%string;
     ocr_left := [10; 60; 110]; ocr_top := [5; 5; 5];
     ocr_width := [30; 30; 35]; ocr_height := [12; 12; 12];
     ocr_conf := [96; 95; 93] |}.

(** A window with two words that contain "submit"; the second is read with
    more confidence. *)
Definition submit_words : OcrData :=
  {| ocr_text := ["File"; "Edit"; "Submit"; "SUBMIT"]%string;
     ocr_left := [10; 60; 100; 300]; ocr_top := [5; 5; 200; 400];
     ocr_width := [30; 30; 40; 60]; ocr_height := [12; 12; 15; 20];
     ocr_conf := [96; 95; 41; 99] |}.

(** A light grey screen on which no template is ever found. *)
Definition grey_desktop (dur : Op -> Z -> N) (words : OcrData) : Env :=
  {| screen := fun _ => solid 1920 1080 [250; 250; 250];
     locate := fun _ _ => NotFound;
     image_to_data := fun _ => Some words;
     duration := dur |}.

(** A screen on which every template is found at once, at (50, 60). *)
Definition ready_desktop : Env :=
  {| screen := fun _ => solid 1920 1080 [250; 250; 250];
     locate := fun _ _ => Found 50 60;
     image_to_data := fun _ => Some menu_words;
     duration := instant |}.

(** No template for the key, one pixel rule that the grey screen meets. *)
Definition pixel_only : Settings :=
  {| templates := ∅;
     pixels := {[ "vscode_copy_button"%string
                  := [PointRule 100 200 [255; 255; 255] (Some 20)] ]};
     delay_operation := 1000%N;
     ocr_enabled := true |}.

(** A template for the key and nothing else; the delays are the defaults. *)
Definition template_only : Settings :=
  {| templates := {[ "vscode_copy_button"%string := "templates/copy.png"%string ]};
     pixels := ∅;
     delay_operation := 1000%N;
     ocr_enabled := true |}.

End Scenario.

(** ** Vocabulary for the retry loop *)

Module RelaySpec.
Import Relay.

(** The iterations a run gave up on, in order. *)
Definition exhausted (evs : list RunEvent) : list Z :=
  flat_map (fun e => match e with Exhausted i => [i] | _ => [] end) evs.

End RelaySpec.

(** ** Vocabulary for the word test *)

Module OcrSpec.
Import Ocr.

(** Text whose characters are all ASCII (codes below 128).  On such text
    [str.lower()] changes the letters A to Z and nothing else, as [lower]
    does. *)
Definition ascii_only (s : string) : bool :=
  forallb (fun c => (nat_of_ascii c <? 128)%nat) (String.list_ascii_of_string s).

(** [str.upper()] on such text. *)
Definition upper_ascii (c : ascii) : ascii :=
  let n := nat_of_ascii c in
  if ((97 <=? n) && (n <=? 122))%nat then ascii_of_nat (n - 32) else c.

Fixpoint upper (s : string) : string :=
  match s with
  | EmptyString => EmptyString
  | String c rest => String (upper_ascii c) (upper rest)
  end.

(** The character occurs in the text. *)
Definition has_char (c : ascii) (s : string) : bool :=
  existsb (Ascii.eqb c) (String.list_ascii_of_string s).

End OcrSpec.

(** ** [ConfigLoader._normalize_paths] *)

Module Loader.
Import Config.

(** How [_normalize_paths] ends: [self.data] after it, or the
    AttributeError of calling [.get] or [.items] on a value that is no
    dict, which nothing catches. *)
Inductive Loaded :=
| Normalized (data : Yaml)
| AttributeError.

(** The body of the [for] loop on one value.  [resolve path_str] is
    [str(Path(path_str).resolve())], [None] when that raises; [Path] of a
    value that is no string raises TypeError, and every exception leaves
    the value as it is. *)
Definition normalize_value (resolve : string -> option string) (v : Yaml) : Yaml :=
  match v with
  | YStr path_str =>
      match resolve path_str with
      | Some norm_path => YStr norm_path
      | None => v
      end
  | _ => v
  end.

(** [_normalize_paths] on [self.data = data], for a document in which no
    other entry shares the dict under ["templates"]: the document with the
    values of that dict normalized.  When the key is absent the loop runs
    over a fresh empty dict.  The update in place of a dict that an alias
    shares is in [Shared]. *)
Definition _normalize_paths (resolve : string -> option string) (data : Yaml)
  : Loaded :=
  match data with
  | YDict entries =>
      match entries !! "templates"%string with
      | None => Normalized data
      | Some (YDict templates) =>
          Normalized
            (YDict (<["templates"%string
                      := YDict (normalize_value resolve <$> templates)]> entries))
      | Some _ => AttributeError
      end
  | _ => AttributeError
  end.

End Loader.

(** ** The loaded configuration as shared objects *)

Module Shared.

(** A reference to a dict or a list that [yaml.safe_load] built. *)
Definition Ref := positive.

(** A value as Python holds it: a scalar, which cannot change, or a
    reference to a container.  An alias in the YAML source ([*name]) gives
    its entry the reference of the node that carries the anchor
    ([&name]), so that several entries can hold one and the same dict. *)
Inductive Value :=
| VNone
| VBool (b : bool)
| VInt (n : Z)
| VFloat (literal : string)
| VStr (s : string)
| VRef (r : Ref).

Inductive Object :=
| OList (items : list Value)
| ODict (entries : gmap string Value).

(** The containers of the loaded document. *)
Definition Store := gmap Ref Object.

(** The entries of [d] when [isinstance(d, dict)]. *)
Definition dict_of (st : Store) (d : Value) : option (gmap string Value) :=
  match d with
  | VRef r =>
      match st !! r with
      | Some (ODict entries) => Some entries
      | _ => None
      end
  | _ => None
  end.

(** The [for key in keys] loop of [get], started from [d]. *)
Fixpoint get_from (st : Store) (d : Value) (keys : list string) (default : Value)
  : Value :=
  match keys with
  | [] => d
  | key :: rest =>
      match dict_of st d with
      | Some entries =>
          match entries !! key with
          | Some v => get_from st v rest default
          | None => default
          end
      | None => default
      end
  end.

(** [ConfigLoader.get], on a loader whose [self.data] is [data]. *)
Definition get (st : Store) (data : Value) (keys : list string) (default : Value)
  : Value :=
  get_from st data keys default.

(** The value at the end of a path of keys, if every key is present in
    successive nested dicts. *)
Fixpoint walk (st : Store) (d : Value) (keys : list string) : option Value :=
  match keys with
  | [] => Some d
  | key :: rest =>
      match dict_of st d with
      | Some entries =>
          match entries !! key with
          | Some v => walk st v rest
          | None => None
          end
      | None => None
      end
  end.

(** How [_normalize_paths] ends: the store after it, or the AttributeError
    of calling [.get] or [.items] on a value that is no dict. *)
Inductive Loaded :=
| Normalized (st : Store)
| AttributeError.

(** What the body of the [for] loop makes of one value: the resolved path
    for a string that resolves, the value itself otherwise. *)
Definition normalize_value (resolve : string -> option string) (v : Value) : Value :=
  match v with
  | VStr path_str =>
      match resolve path_str with
      | Some norm_path => VStr norm_path
      | None => v
      end
  | _ => v
  end.

(** [templates[key] = v] on the dict behind the reference [t]. *)
Definition setitem (st : Store) (t : Ref) (key : string) (v : Value) : Store :=
  match st !! t with
  | Some (ODict entries) => <[t := ODict (<[key := v]> entries)]> st
  | _ => st
  end.

(** The [for key, path_str in templates.items()] loop on the items that are
    left, [templates] being the dict behind [t].  [resolve path_str] is
    [str(Path(path_str).resolve())], [None] when that raises; [Path] of a
    value that is no string raises TypeError; every exception leaves the
    entry as it is. *)
Fixpoint normalize_items (resolve : string -> option string) (t : Ref)
    (items : list (string * Value)) (st : Store) : Store :=
  match items with
  | [] => st
  | (key, path_str) :: rest =>
      normalize_items resolve t rest
        (match path_str with
         | VStr s =>
             match resolve s with
             | Some norm_path => setitem st t key (VStr norm_path)
             | None => st
             end
         | _ => st
         end)
  end.

(** [_normalize_paths] on [self.data = data].  When the key ["templates"]
    is absent the loop runs over a fresh empty dict. *)
Definition _normalize_paths (resolve : string -> option string) (st : Store)
    (data : Value) : Loaded :=
  match dict_of st data with
  | None => AttributeError
  | Some entries =>
      match entries !! "templates"%string with
      | None => Normalized st
      | Some (VRef t) =>
          match st !! t with
          | Some (ODict templates) =>
              Normalized (normalize_items resolve t (map_to_list templates) st)
          | _ => AttributeError
          end
      | Some _ => AttributeError
      end
  end.

End Shared.

(** ** A configuration with an alias *)

Module SharedScenario.
Import Shared.

(** The document
    [templates: &t {vscode_copy_button: assets/copy.png}],
    [backup: *t], [confidence: 0.7]: the entries ["templates"] and
    ["backup"] hold the same dict. *)
Definition aliased_config : Store :=
  {[ 1%positive := ODict {[ "templates"%string := VRef 2%positive;
                            "backup"%string := VRef 2%positive;
                            "confidence"%string := VFloat "0.7" ]};
     2%positive := ODict {[ "vscode_copy_button"%string
                            := VStr "assets/copy.png" ]} ]}.

Definition aliased_root : Value := VRef 1%positive.

End SharedScenario.

(** ** Vocabulary for the locators and the fallback chain *)

Module ChainSpec.
Import Color Img Ocr World Recognizer Spec History.

(** Whether a pixel rule matches a screenshot, and the point it then
    clicks: the pixel itself for a point rule, the centre of the region for
    a region rule.  A rule that cannot be read, or has neither form, does
    not match. *)
Definition rule_point (shot : Image) (rule : ColorRule) : option (Z * Z) :=
  match rule with
  | PointRule x y color tolerance =>
      match getpixel shot x y with
      | Some pixel_color =>
          if _color_match pixel_color color (rule_tolerance tolerance)
          then Some (x, y) else None
      | None => None
      end
  | RegionRule (left_, top, width, height) color tolerance =>
      match region_average shot (left_, top, width, height) with
      | Some avg_color =>
          if _color_match avg_color color (rule_tolerance tolerance)
          then Some (left_ + width / 2, top + height / 2) else None
      | None => None
      end
  | BadRule _ _ => None
  end.

(** The point of the first rule of the list that matches. *)
Fixpoint first_point (shot : Image) (rules : list ColorRule) : option (Z * Z) :=
  match rules with
  | [] => None
  | rule :: rest =>
      match rule_point shot rule with
      | Some p => Some p
      | None => first_point shot rest
      end
  end.

(** The stages whose locators a history entered, in order. *)
Definition stage_calls (tr : list (Z * Event)) : list Stage :=
  flat_map (fun te => match snd te with EvCall st _ => [st] | _ => [] end) tr.

(** The operations on the screen and the sleeps of a history. *)
Definition screen_ops (tr : list (Z * Event)) : list Event :=
  flat_map (fun te => match snd te with
                      | EvCall _ _ | EvLog _ => []
                      | e => [e]
                      end) tr.

(** The result of a polling loop that ran from [w] to [w'] with start time
    [s] and timeout [r]: only quiet events, one click exactly when the
    result is [true], and a [false] only once the timeout has passed. *)
Definition poll_ok (s r : Z) (b : bool) (w w' : World) : Prop :=
  extends quiet w w'
  /\ length (clicks (added w w')) = Nat.b2n b
  /\ (b = false -> r <= now w' - s).

(** A locator of stage [st] that ran from [w] to [w'] with timeout [r]:
    its entry is followed by quiet events only, it clicked once exactly
    when the result is [true], and when it has something to look for a
    [false] comes only once the timeout has passed. *)
Definition stage_ok (st : Stage) (r : Z) (configured : Prop) (b : bool)
    (w w' : World) : Prop :=
  stage_run st r w w'
  /\ length (clicks (added w w')) = Nat.b2n b
  /\ (b = false -> configured -> now w + r <= now w').

(** The key has a template path. *)
Definition template_configured (cfg : Settings) (key : string) : Prop :=
  exists c p, templates cfg !! key = Some (String c p).

(** The key has at least one pixel rule. *)
Definition pixel_configured (cfg : Settings) (key : string) : Prop :=
  exists rule rules, pixels cfg !! key = Some (rule :: rules).

(** Whether step 2 of the chain runs the OCR locator: [self.ocr_enabled and
    text]. *)
Definition ocr_used (cfg : Settings) (text : option string) : bool :=
  match (if ocr_enabled cfg then text_given text else None) with
  | Some _ => true
  | None => false
  end.

(** The locators that steps 2 and 3 may enter, in order. *)
Definition tail_orders (used : bool) : list (list Stage) :=
  if used then [[]; [OcrText]; [OcrText; Pixel]] else [[]; [Pixel]].

(** A run of (a part of) the chain from [w] to [w']: the locators entered
    are in one of the given orders, there was one click exactly when the
    result is [true], and, when [configured] holds, a [false] comes only at
    or after the deadline. *)
Definition chain_ok (orders : list (list Stage)) (deadline : Z)
    (configured : Prop) (b : bool) (w w' : World) : Prop :=
  extends (fun _ => True) w w'
  /\ In (stage_calls (added w w')) orders
  /\ length (clicks (added w w')) = Nat.b2n b
  /\ (b = false -> configured -> deadline <= now w').

(** The order in which the chain may enter its locators: the template
    locator first, then the OCR locator unless OCR is off or there is no
    text, then the pixel locator; the chain may stop after any of them. *)
Definition chain_orders (ocr_used : bool) : list (list Stage) :=
  if ocr_used
  then [[]; [Template]; [Template; OcrText]; [Template; OcrText; Pixel]]
  else [[]; [Template]; [Template; Pixel]].

End ChainSpec.

(** ** More scenarios *)

Module Scenario2.
Import Color Img Ocr World Recognizer Spec Scenario.

(** Four rules for one key: one without coordinates, one off the screen,
    one that the grey screen meets, and a region rule after it. *)
Definition mixed_rules : list ColorRule :=
  [BadRule [255; 255; 255] None;
   PointRule 5000 5000 [255; 255; 255] (Some 20);
   PointRule 100 200 [255; 255; 255] (Some 20);
   RegionRule (300, 400, 50, 20) [250; 250; 250] None].

(** No template for the key, and one pixel rule that the grey screen does
    not meet. *)
Definition pixel_mismatch : Settings :=
  {| templates := ∅;
     pixels := {[ "vscode_copy_button"%string
                  := [PointRule 100 200 [0; 0; 0] None] ]};
     delay_operation := 1000%N;
     ocr_enabled := true |}.

End Scenario2.

(** ** [WindowManager._focus_window] *)

Module Window.
Import Ocr.

(** How a call into the desktop ends. *)
Inductive Call := Done | Raises.

(** The desktop as [_focus_window] meets it: the platform name in lower
    case, whether [pygetwindow] could be imported, and how each of the
    calls it may make ends.  [getWindowsWithTitle] gives the number of
    windows found, [None] when it raises. *)
Record Desktop := mkDesktop {
  os : string;
  gw : bool;
  getWindowsWithTitle : string -> option nat;
  activate : Call;
  wmctrl : string -> Call;
  keyDown_alt : Call;
  press_tab : Call;
  keyUp_alt : Call
}.

Inductive Source := Pygetwindow | WmctrlTool | AltTab.

(** What [_focus_window] did: the calls that completed, the sleep of
    [delays.operation], and the errors it logged. *)
Inductive Action :=
| Activated (title : string)
| WmctrlRan (title : string)
| AltDown
| TabPressed
| AltUp
| Slept
| LoggedError (src : Source).

(** The last [try] of [_focus_window]: Alt+Tab. *)
Definition alt_tab (d : Desktop) : list Action :=
  match keyDown_alt d with
  | Raises => [LoggedError AltTab]
  | Done =>
      AltDown ::
      match press_tab d with
      | Raises => [LoggedError AltTab]
      | Done =>
          TabPressed ::
          match keyUp_alt d with
          | Raises => [LoggedError AltTab]
          | Done => [AltUp; Slept]
          end
      end
  end.

(** [_focus_window(title_keyword)] *)
Definition _focus_window (d : Desktop) (title_keyword : string) : list Action :=
  if str_in "windows" (os d) && gw d then
    match getWindowsWithTitle d title_keyword with
    | Some (S _) =>
        match activate d with
        | Done => [Activated title_keyword; Slept]
        | Raises => LoggedError Pygetwindow :: alt_tab d
        end
    | Some O => alt_tab d
    | None => LoggedError Pygetwindow :: alt_tab d
    end
  else if str_in "linux" (os d) then
    match wmctrl d title_keyword with
    | Done => [WmctrlRan title_keyword; Slept]
    | Raises => LoggedError WmctrlTool :: alt_tab d
    end
  else alt_tab d.

(** The Alt key is still held down after these actions. *)
Fixpoint alt_held (held : bool) (acts : list Action) : bool :=
  match acts with
  | [] => held
  | AltDown :: rest => alt_held true rest
  | AltUp :: rest => alt_held false rest
  | _ :: rest => alt_held held rest
  end.

(** A window was brought forward by its title. *)
Definition by_title (acts : list Action) : bool :=
  existsb (fun a => match a with Activated _ | WmctrlRan _ => true | _ => false end)
          acts.

Definition count_slept (acts : list Action) : nat :=
  length (List.filter (fun a => match a with Slept => true | _ => false end) acts).

End Window.

(** ** [BrowserAutomation]: sending the prompt and reading the answer *)

Module Browser.
Import Ocr Window.

(** A button of the page: its text ([None] when reading it raises) and how
    a click on it ends. *)
Record Button := mkButton {
  btn_text : option string;
  btn_click : Call
}.

(** The page as [send_prompt] meets it.  [fill n] is how attempt [n] (1, 2,
    3) fares up to the prompt being typed into the textarea: waiting for
    the textarea, clearing it, typing.  [buttons n j] is what looking up
    the buttons gives in try [j] (0, 1, 2) of attempt [n], [None] when the
    lookup raises. *)
Record Page := mkPage {
  fill : nat -> Call;
  buttons : nat -> nat -> option (list Button)
}.

Inductive SendEvent :=
| Typed (attempt : nat)
| Slept (ms : N)
| ClickedRun (text : string)
| WarnNoRun                      (* "Run button not found or not clickable" *)
| WarnUnknownBackend
| WarnAttemptFailed (attempt : nat)
| ErrorGaveUp.

Inductive SendResult :=
| Returned
| BrowserAutomationError.

(** The [for btn in buttons] loop of one try: [Some text] when a button
    whose text contains "Run" was clicked, [None] when there is none or
    something raised on the way. *)
Fixpoint press_run (btns : list Button) : option string :=
  match btns with
  | [] => None
  | btn :: rest =>
      match btn_text btn with
      | None => None
      | Some text =>
          if str_in "Run" text then
            match btn_click btn with
            | Done => Some text
            | Raises => None
            end
          else press_run rest
      end
  end.

(** The [for click_attempt in range(3)] loop, on the tries that are left. *)
Fixpoint click_loop (p : Page) (attempt : nat) (tries : list nat)
  : list SendEvent * bool :=
  match tries with
  | [] => ([], false)
  | j :: rest =>
      match (match buttons p attempt j with
             | Some btns => press_run btns
             | None => None
             end) with
      | Some text => ([ClickedRun text], true)
      | None =>
          let '(evs, success) := click_loop p attempt rest in
          (Slept 1000 :: evs, success)
      end
  end.

(** The body of the [try] of one attempt for a known backend, after the
    prompt has been typed. *)
Definition after_typing (p : Page) (attempt : nat) : list SendEvent :=
  let '(evs, success) := click_loop p attempt [0; 1; 2]%nat in
  Slept 500 :: evs ++ (if success then [] else [WarnNoRun]).

(** The [for attempt in range(1, max_attempts + 1)] loop, on the attempts
    that are left; [known] tells whether the backend is "selenium" or
    "playwright". *)
Fixpoint attempts (p : Page) (known : bool) (todo : list nat)
  : list SendEvent * SendResult :=
  match todo with
  | [] => ([], Returned)
  | attempt :: rest =>
      if known then
        match fill p attempt with
        | Done => (Typed attempt :: after_typing p attempt, Returned)
        | Raises =>
            if (attempt =? 3)%nat then
              ([WarnAttemptFailed attempt; ErrorGaveUp], BrowserAutomationError)
            else
              let '(evs, res) := attempts p known rest in
              (WarnAttemptFailed attempt :: Slept 1000 :: evs, res)
        end
      else ([WarnUnknownBackend], Returned)
  end.

(** [send_prompt(prompt_text)] on an instance with the given [enabled] flag,
    [driver] present or not, and backend name. *)
Definition send_prompt (enabled driver : bool) (backend : string) (p : Page)
  : list SendEvent * SendResult :=
  if negb enabled || negb driver then ([], Returned)
  else
    attempts p (String.eqb backend "selenium" || String.eqb backend "playwright")
             [1; 2; 3]%nat.

Definition run_clicks (evs : list SendEvent) : nat :=
  length (List.filter (fun e => match e with ClickedRun _ => true | _ => false end)
                      evs).

Definition slept_total (evs : list SendEvent) : N :=
  fold_right N.add 0%N
    (flat_map (fun e => match e with Slept ms => [ms] | _ => [] end) evs).

End Browser.

(** ** [BrowserAutomation.get_response_markdown] *)

Module Response.
Import Ocr.








End Response.

(** * Properties *)

(** ** The colour predicate *)

Module ColorFacts.
Import Color.

Lemma channel_close_sym t x y : channel_close t (x, y) = channel_close t (y, x).
Proof.
  unfold channel_close; simpl.
  replace (y - x) with (- (x - y)) by lia.
  now rewrite Z.abs_opp.
Qed.

Lemma color_match_sym (c1 c2 : Color) t : _color_match c1 c2 t = _color_match c2 c1 t.
Proof.
  unfold _color_match.
  revert c2; induction c1 as [|x c1 IH]; intros [|y c2]; simpl; try reflexivity.
  now rewrite IH, channel_close_sym.
Qed.

Lemma color_match_refl (c : Color) t : 0 <= t -> _color_match c c t = true.
Proof.
  intros Ht; unfold _color_match.
  induction c as [|x c IH]; simpl; [reflexivity|].
  rewrite IH, andb_true_r.
  unfold channel_close; simpl.
  rewrite Z.sub_diag; simpl. now apply Z.leb_le.
Qed.

Lemma color_match_cons x y (c1 c2 : Color) t :
  _color_match (x :: c1) (y :: c2) t = (Z.abs (x - y) <=? t) && _color_match c1 c2 t.
Proof. reflexivity. Qed.

Lemma color_match_nil_r (c : Color) t : _color_match c [] t = true.
Proof. now destruct c. Qed.

Lemma color_match_firstn (c1 c2 : Color) t :
  _color_match c1 c2 t
  = _color_match (firstn (length c2) c1) (firstn (length c1) c2) t.
Proof.
  revert c2; induction c1 as [|x c1 IH]; intros [|y c2]; simpl; try reflexivity.
  rewrite !color_match_cons. now rewrite <- IH.
Qed.

(** C8: on RGB triples the predicate is symmetric, reflexive for a
    non-negative tolerance, and true exactly when every channel differs by
    at most the tolerance. *)
Theorem color_match_rgb (r1 g1 b1 r2 g2 b2 t : Z) :
  let a := rgb r1 g1 b1 in
  let b := rgb r2 g2 b2 in
  _color_match a b t = _color_match b a t
  /\ (0 <= t -> _color_match a a t = true)
  /\ (_color_match a b t = true <->
      forall c x y, channel a c = Some x -> channel b c = Some y ->
                    Z.abs (x - y) <= t).
Proof.
  intros a b; split; [apply color_match_sym|].
  split; [apply color_match_refl|].
  unfold a, b, rgb. rewrite !color_match_cons.
  unfold _color_match; simpl. rewrite andb_true_r.
  rewrite !andb_true_iff, !Z.leb_le.
  split.
  - intros (Hr & Hg & Hb) c x y Hx Hy.
    destruct c as [|[|[|c]]]; simpl in Hx, Hy;
      try (injection Hx as <-; injection Hy as <-; assumption).
    destruct c; discriminate Hx.
  - intros H. repeat split.
    + apply (H 0%nat); reflexivity.
    + apply (H 1%nat); reflexivity.
    + apply (H 2%nat); reflexivity.
Qed.

Lemma color_match_rgb_witness :
  _color_match (rgb 250 128 0) (rgb 255 120 9) 10
  = _color_match (rgb 255 120 9) (rgb 250 128 0) 10
  /\ _color_match (rgb 250 128 0) (rgb 250 128 0) 0 = true
  /\ _color_match (rgb 250 128 0) (rgb 255 120 9) 10 = true.
Proof.
  split; [exact (proj1 (color_match_rgb 250 128 0 255 120 9 10))|].
  split; [apply (proj1 (proj2 (color_match_rgb 250 128 0 250 128 0 0))); lia|].
  reflexivity.
Defined.

(** C10: colours of unequal length are compared on their common channels
    only: longer inputs are cut to the shorter one, the alpha channel of an
    RGBA pixel is ignored against a three-channel expected colour, and
    every colour matches the empty colour.  The predicate is a total
    function: no input makes it fail. *)
Theorem color_match_zip_truncates (c1 c2 : Color) (t : Z) :
  _color_match c1 c2 t
  = _color_match (firstn (length c2) c1) (firstn (length c1) c2) t
  /\ (forall r g b alpha e1 e2 e3,
        _color_match [r; g; b; alpha] [e1; e2; e3] t
        = _color_match [r; g; b] [e1; e2; e3] t)
  /\ _color_match c1 [] t = true
  /\ _color_match [] c2 t = true.
Proof.
  split; [apply color_match_firstn|].
  split; [reflexivity|].
  split; [apply color_match_nil_r|reflexivity].
Qed.

End ColorFacts.

(** ** [ConfigLoader.get] *)

Module ConfigFacts.
Import Config.

Lemma get_from_resolve d keys default :
  get_from d keys default
  = Ok (match resolve d keys with Some v => v | None => default end).
Proof.
  revert d; induction keys as [|key rest IH]; intros d; simpl; [reflexivity|].
  destruct d; simpl; try reflexivity.
  destruct (entries !! key) as [v|] eqn:Hk.
  - rewrite bool_decide_eq_true_2 by eauto. apply IH.
  - rewrite bool_decide_eq_false_2; [reflexivity|].
    intros [v Hv]; discriminate Hv.
Qed.

Lemma reaches_resolve d keys v : reaches d keys v <-> resolve d keys = Some v.
Proof.
  split.
  - induction 1 as [d | entries key child rest v Hk _ IH]; simpl;
      [reflexivity | now rewrite Hk].
  - revert d; induction keys as [|key rest IH]; intros d; simpl.
    + intros [= <-]. constructor.
    + destruct d; try discriminate.
      destruct (entries !! key) as [child|] eqn:Hk; [|discriminate].
      intros Hr. econstructor; eauto.
Qed.

(** C9: [get] never raises; it returns the nested value when every key of
    the path is present in successive nested dicts, and the default as soon
    as a value on the way is not a dict or lacks the key. *)
Theorem get_total (data : Yaml) (keys : list string) (default : Yaml) :
  (exists v, get data keys default = Ok v)
  /\ (forall v, reaches data keys v -> get data keys default = Ok v)
  /\ ((forall v, ~ reaches data keys v) -> get data keys default = Ok default)
  /\ (forall entries key rest,
        data = YDict entries -> entries !! key = None ->
        get data (key :: rest) default = Ok default)
  /\ (forall key rest,
        isinstance_dict data = false ->
        get data (key :: rest) default = Ok default).
Proof.
  unfold get. rewrite get_from_resolve.
  split; [eauto|]. split; [|split; [|split]].
  - intros v Hv. apply reaches_resolve in Hv. now rewrite Hv.
  - intros Hno. destruct (resolve data keys) as [v|] eqn:Hr; [|reflexivity].
    apply reaches_resolve in Hr. now apply Hno in Hr.
  - intros entries key rest -> Hk. rewrite get_from_resolve. simpl. now rewrite Hk.
  - intros key rest Hd. rewrite get_from_resolve. now destruct data.
Qed.

Lemma get_total_witness :
  let timeouts := YDict {[ "detection"%string := YInt 120 ]} in
  let data := YDict {[ "timeouts"%string := timeouts ]} in
  get data ["timeouts"; "detection"]%string (YInt 60) = Ok (YInt 120)
  /\ get timeouts ["response"]%string (YInt 300) = Ok (YInt 300)
  /\ get (YInt 120) ["unit"]%string YNone = Ok YNone.
Proof.
  intros timeouts data. split; [|split].
  - apply (proj1 (proj2 (get_total data ["timeouts"; "detection"]%string (YInt 60)))).
    econstructor; [reflexivity|]. econstructor; [reflexivity|]. constructor.
  - destruct (get_total timeouts ["response"]%string (YInt 300))
      as (_ & _ & _ & Hmiss & _).
    apply (Hmiss _ _ _ eq_refl). reflexivity.
  - destruct (get_total (YInt 120) ["unit"]%string YNone) as (_ & _ & _ & _ & Hnd).
    apply Hnd. reflexivity.
Defined.

End ConfigFacts.

(** ** The region average *)

Module ImgFacts.
Import Color Img Spec.

Lemma channel_sum_total c (pixels : list Color) :
  Forall (fun px => (c < length px)%nat) pixels ->
  channel_sum c pixels = Some (channel_total c pixels).
Proof.
  induction 1 as [|px rest Hpx _ IH]; simpl; [reflexivity|].
  unfold channel. rewrite IH.
  destruct (nth_error px c) as [v|] eqn:Hv.
  - unfold channel_total; simpl. now rewrite (nth_error_nth _ _ _ Hv).
  - apply nth_error_None in Hv. lia.
Qed.

Lemma average_color_mean (pixels : list Color) :
  pixels <> [] ->
  Forall (fun px => (3 <= length px)%nat) pixels ->
  _average_color pixels = Some (mean_color pixels).
Proof.
  intros Hne Hall. unfold _average_color.
  destruct (Z.eqb_spec (Z.of_nat (length pixels)) 0) as [H0|_].
  - destruct pixels; [congruence | simpl in H0; lia].
  - rewrite !channel_sum_total; [reflexivity| | |];
      (eapply Forall_impl; [exact Hall|]); simpl; intros; lia.
Qed.

Lemma getdata_crop img l t w h region_img :
  crop img (l, t, l + w, t + h) = Some region_img ->
  getdata region_img = map (pixel_or_black img) (rect_coords l t w h).
Proof.
  unfold crop. destruct (_ || _); [discriminate|].
  intros [= <-]. unfold getdata, rect_coords; simpl.
  replace (l + w - l) with w by lia. replace (t + h - t) with h by lia.
  induction (seqZ 0 h) as [|j js IH]; simpl; [reflexivity|].
  rewrite map_app, IH. f_equal.
  rewrite map_map. reflexivity.
Qed.

Lemma length_rect_coords l t w h :
  length (rect_coords l t w h) = (Z.to_nat h * Z.to_nat w)%nat.
Proof.
  unfold rect_coords. rewrite <- (length_seqZ 0 h).
  induction (seqZ 0 h) as [|j js IH]; simpl; [reflexivity|].
  rewrite length_app, IH, length_map, length_seqZ. reflexivity.
Qed.

Lemma in_rect_coords l t w h x y :
  In (x, y) (rect_coords l t w h) ->
  l <= x < l + w /\ t <= y < t + h.
Proof.
  unfold rect_coords. rewrite in_flat_map.
  intros (j & Hj & Hx). apply in_map_iff in Hx as (i & [= <- <-] & Hi).
  apply list_elem_of_In, elem_of_seqZ in Hj.
  apply list_elem_of_In, elem_of_seqZ in Hi. lia.
Qed.

Lemma region_average_positive img l t w h :
  rgb_image img -> 0 < w -> 0 < h ->
  region_average img (l, t, w, h)
  = Some (mean_color (map (pixel_or_black img) (rect_coords l t w h))).
Proof.
  intros Hrgb Hw Hh. unfold region_average.
  destruct (crop img (l, t, l + w, t + h)) as [region_img|] eqn:Hc.
  - rewrite (getdata_crop _ _ _ _ _ _ Hc). apply average_color_mean.
    + intros Hnil. apply (f_equal (@length _)) in Hnil.
      rewrite length_map, length_rect_coords in Hnil. simpl in Hnil. nia.
    + apply List.Forall_forall. intros px Hpx.
      apply in_map_iff in Hpx as ([x y] & <- & _).
      unfold pixel_or_black; simpl.
      destruct (in_bounds img x y) eqn:Hb; [now apply Hrgb | simpl; lia].
  - unfold crop in Hc.
    destruct (Z.ltb_spec (l + w) l); [lia|].
    destruct (Z.ltb_spec (t + h) t); [lia|]. discriminate Hc.
Qed.

Lemma region_average_empty img l t w h :
  w <= 0 \/ h <= 0 -> region_average img (l, t, w, h) = None.
Proof.
  intros Hwh. unfold region_average.
  destruct (crop img (l, t, l + w, t + h)) as [region_img|] eqn:Hc; [|reflexivity].
  unfold _average_color.
  rewrite (getdata_crop _ _ _ _ _ _ Hc), length_map, length_rect_coords.
  replace (Z.of_nat (Z.to_nat h * Z.to_nat w)) with 0 by nia.
  reflexivity.
Qed.

Lemma pixels_inside img l t w h :
  rect_inside img (l, t, w, h) = true ->
  map (pixel_or_black img) (rect_coords l t w h)
  = map (pixel_at img) (rect_coords l t w h).
Proof.
  unfold rect_inside. rewrite !andb_true_iff, !Z.leb_le.
  intros [[[Hl Ht] Hr] Hb].
  apply map_ext_in. intros [x y] Hin.
  apply in_rect_coords in Hin.
  unfold pixel_or_black, in_bounds; simpl.
  destruct (Z.leb_spec 0 x); [|lia]. destruct (Z.ltb_spec x (im_width img)); [|lia].
  destruct (Z.leb_spec 0 y); [|lia]. destruct (Z.ltb_spec y (im_height img)); [|lia].
  reflexivity.
Qed.

(** C6, as the code has it: on an RGB screenshot the region average fails
    exactly for a rectangle without pixels (non-positive width or height);
    for positive dimensions it is the per-channel floor mean over the
    [width * height] pixels of the crop, where a coordinate outside the
    screenshot counts as black; inside the screenshot these are the pixels
    of the rectangle itself. *)
Theorem region_average_spec (img : Image) (l t w h : Z) :
  rgb_image img ->
  (w <= 0 \/ h <= 0 -> region_average img (l, t, w, h) = None)
  /\ (0 < w -> 0 < h ->
      region_average img (l, t, w, h)
      = Some (mean_color (map (pixel_or_black img) (rect_coords l t w h)))
      /\ Z.of_nat (length (rect_coords l t w h)) = w * h)
  /\ (0 < w -> 0 < h -> rect_inside img (l, t, w, h) = true ->
      region_average img (l, t, w, h)
      = Some (mean_color (map (pixel_at img) (rect_coords l t w h)))).
Proof.
  intros Hrgb. split; [apply region_average_empty|]. split.
  - intros Hw Hh. split; [now apply region_average_positive|].
    rewrite length_rect_coords. nia.
  - intros Hw Hh Hin. rewrite <- pixels_inside by assumption.
    now apply region_average_positive.
Qed.

Lemma region_average_spec_witness :
  let img := {| im_width := 4; im_height := 3;
                im_px := fun x y => [x; 10 * y; x + y] |} in
  region_average img (1, 1, 2, 2) = Some [1; 15; 3].
Proof.
  intros img.
  destruct (region_average_spec img 1 1 2 2) as (_ & _ & H).
  - intros x y _; simpl; lia.
  - rewrite H; [reflexivity | lia | lia | reflexivity].
Defined.

(** C6, as stated, fails: a rectangle that lies wholly outside the
    screenshot is averaged (to black) without any error. *)
Lemma region_average_outside_no_error :
  ~ (rect_inside (solid 2 2 [10; 20; 30]) (5, 5, 2, 2) = false ->
     region_average (solid 2 2 [10; 20; 30]) (5, 5, 2, 2) = None).
Proof.
  intros H. specialize (H eq_refl). vm_compute in H. discriminate H.
Qed.

End ImgFacts.

(** ** The retry loop *)

Module RelayFacts.
Import Relay.

Lemma run_failed_retry c rest n r :
  r + 1 < max_retries c ->
  run c (Failed :: rest) {| iterations := n; retries := r |}
  = (Start (n + 1) (r + 1) :: AttemptFailed (r + 1) :: Backoff (backoff c (r + 1))
       :: fst (run c rest {| iterations := n + 1; retries := r + 1 |}),
     snd (run c rest {| iterations := n + 1; retries := r + 1 |})).
Proof.
  intros Hlt. simpl.
  destruct (Z.leb_spec (max_retries c) (r + 1)); [lia|].
  now destruct (run c rest _).
Qed.

Lemma run_failed_exhausted c rest n r :
  max_retries c <= r + 1 ->
  run c (Failed :: rest) {| iterations := n; retries := r |}
  = (Start (n + 1) (r + 1) :: AttemptFailed (r + 1) :: Exhausted (n + 1)
       :: fst (run c rest {| iterations := n + 1; retries := 0 |}),
     snd (run c rest {| iterations := n + 1; retries := 0 |})).
Proof.
  intros Hle. simpl.
  destruct (Z.leb_spec (max_retries c) (r + 1)); [|lia].
  now destruct (run c rest _).
Qed.

Lemma run_completed c rest n r :
  run c (Completed :: rest) {| iterations := n; retries := r |}
  = (Start (n + 1) (r + 1) :: Success (n + 1)
       :: fst (run c rest {| iterations := n + 1; retries := 0 |}),
     snd (run c rest {| iterations := n + 1; retries := 0 |})).
Proof. simpl. now destruct (run c rest _). Qed.

(** C4, as the code has it: with base 2, cap 30 and 5 retries, five
    consecutive failures of an iteration sleep 2, 4, 8 and 16 seconds
    between the five attempts; the fifth failure reports exhaustion without
    a sleep, and the loop goes on with the retry counter back at 0, so that
    the pass that follows is an attempt 1. *)
Theorem five_failures (rest : list Outcome) (n : Z) :
  let c := {| max_retries := 5; backoff_base := 2; max_backoff := 30 |} in
  let after := run c rest {| iterations := n + 5; retries := 0 |} in
  let evs := [Start (n + 1) 1; AttemptFailed 1; Backoff 2;
              Start (n + 2) 2; AttemptFailed 2; Backoff 4;
              Start (n + 3) 3; AttemptFailed 3; Backoff 8;
              Start (n + 4) 4; AttemptFailed 4; Backoff 16;
              Start (n + 5) 5; AttemptFailed 5; Exhausted (n + 5)] in
  run c (repeat Failed 5 ++ rest) {| iterations := n; retries := 0 |}
  = (evs ++ fst after, snd after)
  /\ sleeps evs = [2; 4; 8; 16]
  /\ map snd (starts evs) = [1; 2; 3; 4; 5].
Proof.
  intros c after evs. split; [|split; reflexivity].
  unfold evs, after. cbn [repeat app].
  {
    rewrite run_failed_retry by (cbn; lia).
    cbn [fst snd]. rewrite run_failed_retry by (cbn; lia).
    cbn [fst snd]. rewrite run_failed_retry by (cbn; lia).
    cbn [fst snd]. rewrite run_failed_retry by (cbn; lia).
    cbn [fst snd]. rewrite run_failed_exhausted by (cbn; lia).
    cbn [fst snd app].
    replace (n + 1 + 1) with (n + 2) by lia.
    replace (n + 2 + 1) with (n + 3) by lia.
    replace (n + 3 + 1) with (n + 4) by lia.
    replace (n + 4 + 1) with (n + 5) by lia.
    reflexivity. }
Qed.

(** C4, as stated, fails: the sleeps of five consecutive failures are not
    2, 4, 8, 16, 30. *)
Lemma five_failures_no_fifth_sleep :
  sleeps (fst (run default_retry (repeat Failed 5) fresh)) <> [2; 4; 8; 16; 30].
Proof. vm_compute. discriminate. Qed.

(** C5 on the code: a failed attempt below the maximum sleeps
    [min(base * 2^(attempt-1), cap)] and is retried with the attempt number
    incremented, but the retry carries the next iteration number: the loop
    increments [self.iterations] at the start of every attempt. *)
Theorem failed_attempt_retry (c : RetryConfig) (rest : list Outcome) (n r : Z) :
  0 <= r -> r + 1 < max_retries c ->
  let attempt := r + 1 in
  let after := run c (Completed :: rest) {| iterations := n + 1; retries := attempt |} in
  run c (Failed :: Completed :: rest) {| iterations := n; retries := r |}
  = (Start (n + 1) attempt :: AttemptFailed attempt
       :: Backoff (Z.min (backoff_base c * 2 ^ (attempt - 1)) (max_backoff c))
       :: fst after, snd after)
  /\ exists tl, fst after = Start (n + 2) (attempt + 1) :: Success (n + 2) :: tl.
Proof.
  intros Hr Hlt attempt after. split.
  - unfold after, attempt. now rewrite run_failed_retry.
  - unfold after. rewrite run_completed. cbn [fst].
    replace (n + 1 + 1) with (n + 2) by lia. eauto.
Qed.

Lemma failed_attempt_retry_witness :
  run default_retry [Failed; Completed] fresh
  = ([Start 1 1; AttemptFailed 1; Backoff 2; Start 2 2; Success 2],
     {| iterations := 2; retries := 0 |}).
Proof.
  destruct (failed_attempt_retry default_retry [] 0 0) as [H _];
    [lia | simpl; lia |].
  exact H.
Defined.

End RelayFacts.

(** ** The locators *)

Module RecognizerFacts.
Import Color Img Ocr World Recognizer Spec History.
Local Open Scope world_scope.

Lemma extends_refl P w : extends P w w.
Proof. split; [lia|]. exists []. now rewrite app_nil_r. Qed.

Lemma extends_trans P w1 w2 w3 :
  extends P w1 w2 -> extends P w2 w3 -> extends P w1 w3.
Proof.
  intros [H1 (e1 & T1 & F1)] [H2 (e2 & T2 & F2)]. split; [lia|].
  exists (e1 ++ e2). rewrite T2, T1, app_assoc. split; [reflexivity|].
  now apply Forall_app.
Qed.

Lemma extends_weaken (P Q : Z * Event -> Prop) w w' :
  (forall te, P te -> Q te) -> extends P w w' -> extends Q w w'.
Proof.
  intros HPQ [H (evs & T & F)]. split; [assumption|].
  exists evs. split; [assumption|]. eapply Forall_impl; eauto.
Qed.

(** An explicit world reached from [w] by quiet events. *)
Ltac step_extends :=
  split; [cbn [now]; lia
         | eexists; split;
           [cbn [trace]; rewrite <- ?app_assoc; reflexivity
           | repeat constructor]].

Ltac case_in H t := revert H; destruct t eqn:?; intros H.

Ltac run_prims :=
  cbn [bind ret time_time time_sleep click locateCenterOnScreen screenshot
       run_ocr emit logging elapse log_message now trace] in *.

Lemma added_app w w' evs : trace w' = trace w ++ evs -> added w w' = evs.
Proof.
  unfold added. intros ->. induction (trace w) as [|e tr IH]; [reflexivity|].
  exact IH.
Qed.

Lemma no_calls st evs :
  Forall (fun te => is_call st (snd te) = false) evs -> calls st evs = 0%nat.
Proof.
  unfold calls. induction 1 as [|te evs Hte _ IH]; [reflexivity|].
  cbn [List.filter]. now rewrite Hte.
Qed.


Section WithEnv.
Variable env : Env.
Variable cfg : Settings.

Lemma template_poll_extends fuel path s r w b w' :
  template_poll env cfg fuel path s r w = Some (b, w') -> extends quiet w w'.
Proof.
  revert w; induction fuel as [|fuel IH]; intros w H; [discriminate|].
  cbn [template_poll] in H. run_prims.
  case_in H (now w - s <? r); run_prims.
  - case_in H (locate env path (now w)); run_prims.
    + injection H as <- <-. step_extends.
    + apply IH in H. eapply extends_trans; [|exact H]. step_extends.
    + apply IH in H. eapply extends_trans; [|exact H]. step_extends.
  - injection H as <- <-. step_extends.
Qed.

Lemma poll_fuel_enough T fuel r :
  (poll_fuel T <= fuel)%nat -> r <= T ->
  r <= 500 * (Z.of_nat fuel - 1) /\ (0 < fuel)%nat.
Proof.
  unfold poll_fuel. intros Hf Hr.
  destruct (Z.le_gt_cases 0 T) as [HT|HT].
  - pose proof (Z.mul_succ_div_gt T 500 ltac:(lia)).
    pose proof (Z.div_pos T 500 HT ltac:(lia)). lia.
  - lia.
Qed.

Lemma template_poll_total fuel path s r w :
  s + r - now w <= 500 * (Z.of_nat fuel - 1) -> (0 < fuel)%nat ->
  exists b w', template_poll env cfg fuel path s r w = Some (b, w').
Proof.
  revert w; induction fuel as [|fuel IH]; intros w Hr Hf; [lia|].
  cbn [template_poll]. run_prims.
  destruct (Z.ltb_spec (now w - s) r); run_prims; [|eauto].
  destruct (locate env path (now w)); run_prims; [eauto| |];
    apply IH; cbn [now]; unfold poll_interval; lia.
Qed.

Lemma scan_rules_total shot key idx rules w :
  exists b w', scan_rules env cfg shot key idx rules w = Some (b, w')
               /\ extends quiet w w'.
Proof.
  revert idx w; induction rules as [|rule rest IH]; intros idx w.
  - exists false, w. split; [reflexivity | apply extends_refl].
  - destruct rule as [x y col tol | [[[l t] wd] h] col tol | col tol];
      cbn [scan_rules].
    + destruct (getpixel shot x y) as [pc|]; run_prims.
      * destruct (_color_match pc col (rule_tolerance tol)); run_prims.
        -- do 2 eexists. split; [reflexivity | step_extends].
        -- apply IH.
      * destruct (IH (S idx) {| now := now w;
                               trace := trace w ++ [(now w, EvLog (LogPixelReadError idx))] |})
          as (b & w' & Hrun & Hext).
        exists b, w'. split; [exact Hrun|].
        eapply extends_trans; [|exact Hext]. step_extends.
    + destruct (region_average shot (l, t, wd, h)) as [avg|]; run_prims.
      * destruct (_color_match avg col (rule_tolerance tol)); run_prims.
        -- do 2 eexists. split; [reflexivity | step_extends].
        -- apply IH.
      * destruct (IH (S idx) {| now := now w;
                               trace := trace w ++ [(now w, EvLog (LogRegionReadError idx))] |})
          as (b & w' & Hrun & Hext).
        exists b, w'. split; [exact Hrun|].
        eapply extends_trans; [|exact Hext]. step_extends.
    + run_prims.
      destruct (IH (S idx) {| now := now w;
                               trace := trace w ++ [(now w, EvLog (LogBadRule idx))] |})
        as (b & w' & Hrun & Hext).
      exists b, w'. split; [exact Hrun|].
      eapply extends_trans; [|exact Hext]. step_extends.
Qed.

Lemma pixel_poll_extends fuel key rules s r w b w' :
  pixel_poll env cfg fuel key rules s r w = Some (b, w') -> extends quiet w w'.
Proof.
  revert w; induction fuel as [|fuel IH]; intros w H; [discriminate|].
  cbn [pixel_poll] in H. run_prims.
  case_in H (now w - s <? r); run_prims.
  - unfold bind at 1 in H.
    match type of H with
    | context [scan_rules env cfg ?shot key 0%nat rules ?w1] =>
        destruct (scan_rules_total shot key 0%nat rules w1)
          as (m & w2 & Hscan & Hext)
    end.
    rewrite Hscan in H. assert (Hw : extends quiet w w2).
    { eapply extends_trans; [|exact Hext]. step_extends. }
    destruct m; run_prims.
    + injection H as <- <-. exact Hw.
    + apply IH in H. eapply extends_trans; [exact Hw|].
      eapply extends_trans; [|exact H]. step_extends.
  - injection H as <- <-. step_extends.
Qed.

Lemma pixel_poll_total fuel key rules s r w :
  s + r - now w <= 500 * (Z.of_nat fuel - 1) -> (0 < fuel)%nat ->
  exists b w', pixel_poll env cfg fuel key rules s r w = Some (b, w').
Proof.
  revert w; induction fuel as [|fuel IH]; intros w Hr Hf; [lia|].
  cbn [pixel_poll]. run_prims.
  destruct (Z.ltb_spec (now w - s) r); run_prims; [|eauto].
  unfold bind at 1.
  match goal with
  | |- context [scan_rules env cfg ?shot key 0%nat rules ?w1] =>
      destruct (scan_rules_total shot key 0%nat rules w1)
        as (m & w2 & Hscan & [Hnow _])
  end.
  rewrite Hscan. cbn [now] in Hnow.
  destruct m; run_prims; [eauto|].
  apply IH; cbn [now]; unfold poll_interval; lia.
Qed.

Lemma text_poll_extends fuel text s r w b w' :
  text_poll env cfg fuel text s r w = Some (b, w') -> extends quiet w w'.
Proof.
  revert w; induction fuel as [|fuel IH]; intros w H; [discriminate|].
  cbn [text_poll] in H. run_prims.
  case_in H (now w - s <? r); run_prims.
  - case_in H (image_to_data env (screen env (now w))); run_prims.
    + match type of H with context [scan text ?d] => case_in H (scan text d) end;
        run_prims.
      * injection H as <- <-. step_extends.
      * apply IH in H. eapply extends_trans; [|exact H]. step_extends.
      * apply IH in H. eapply extends_trans; [|exact H]. step_extends.
    + apply IH in H. eapply extends_trans; [|exact H]. step_extends.
  - injection H as <- <-. step_extends.
Qed.

Lemma text_poll_total fuel text s r w :
  s + r - now w <= 500 * (Z.of_nat fuel - 1) -> (0 < fuel)%nat ->
  exists b w', text_poll env cfg fuel text s r w = Some (b, w').
Proof.
  revert w; induction fuel as [|fuel IH]; intros w Hr Hf; [lia|].
  cbn [text_poll]. run_prims.
  destruct (Z.ltb_spec (now w - s) r); run_prims; [|eauto].
  destruct (image_to_data env (screen env (now w))) as [d|]; run_prims.
  - destruct (scan text d); run_prims; [eauto| |];
      apply IH; cbn [now]; unfold poll_interval; lia.
  - apply IH; cbn [now]; unfold poll_interval; lia.
Qed.

(** When the OCR never yields a hit, the OCR loop ends only once its whole
    timeout has gone by. *)
Lemma text_poll_miss fuel text s r w b w' :
  (forall img d, image_to_data env img = Some d ->
                 forall x y, scan text d <> Hit x y) ->
  text_poll env cfg fuel text s r w = Some (b, w') ->
  b = false /\ r <= now w' - s.
Proof.
  intros Hmiss.
  revert w; induction fuel as [|fuel IH]; intros w H; [discriminate|].
  cbn [text_poll] in H. run_prims.
  destruct (Z.ltb_spec (now w - s) r); run_prims.
  - destruct (image_to_data env (screen env (now w))) as [d|] eqn:Hd; run_prims.
    + destruct (scan text d) eqn:Hs; run_prims.
      * exfalso. eapply Hmiss; eauto.
      * now apply IH in H.
      * now apply IH in H.
    + now apply IH in H.
  - injection H as <- <-. cbn [now]. split; [reflexivity | lia].
Qed.

Lemma quiet_calm te : quiet te -> calm te.
Proof. unfold quiet, calm. destruct (snd te) as [| | | | | |[]]; tauto. Qed.

Lemma quiet_within s T te : quiet te -> within_budget s T te.
Proof. unfold quiet, within_budget. destruct (snd te) as [| | | | | |[]]; tauto. Qed.

Lemma quiet_no_call st te : quiet te -> is_call st (snd te) = false.
Proof. unfold quiet. destruct (snd te), st; simpl; tauto. Qed.

Lemma find_and_click_run fuel key r msg w :
  r <= 500 * (Z.of_nat fuel - 1) -> (0 < fuel)%nat ->
  exists b w', find_and_click env cfg fuel key r msg w = Some (b, w')
               /\ stage_run Template r w w'.
Proof.
  intros Hr Hf. unfold find_and_click. run_prims.
  destruct (templates cfg !! key) as [[|c p]|]; run_prims;
    try (do 2 eexists; split; [reflexivity|]; split; [cbn; lia|];
         eexists; split; [cbn [trace]; rewrite <- app_assoc; reflexivity
                         | repeat constructor]).
  destruct msg as [[|c' m]|]; run_prims;
    match goal with
    | |- context [template_poll env cfg fuel ?path ?s r ?w1] =>
        destruct (template_poll_total fuel path s r w1) as (b & w' & Hrun);
          [cbn [now]; lia | exact Hf |];
          exists b, w'; split; [exact Hrun|];
          apply template_poll_extends in Hrun as [Hn (evs & Ht & Hq)];
          cbn [now trace] in *; split; [lia|]
    end.
  - exists evs. now rewrite Ht, <- app_assoc.
  - exists ((now w, EvLog (LogMessage (String c' m))) :: evs).
    split; [now rewrite Ht, <- !app_assoc | constructor; [exact I | exact Hq]].
  - exists evs. now rewrite Ht, <- app_assoc.
Qed.

Lemma find_pixel_and_click_run fuel key r msg w :
  r <= 500 * (Z.of_nat fuel - 1) -> (0 < fuel)%nat ->
  exists b w', find_pixel_and_click env cfg fuel key r msg w = Some (b, w')
               /\ stage_run Pixel r w w'.
Proof.
  intros Hr Hf. unfold find_pixel_and_click. run_prims.
  destruct (pixels cfg !! key) as [[|rule rules]|]; run_prims;
    try (do 2 eexists; split; [reflexivity|]; split; [cbn; lia|];
         eexists; split; [cbn [trace]; rewrite <- app_assoc; reflexivity
                         | repeat constructor]).
  destruct msg as [[|c' m]|]; run_prims;
    match goal with
    | |- context [pixel_poll env cfg fuel key ?rs ?s r ?w1] =>
        destruct (pixel_poll_total fuel key rs s r w1) as (b & w' & Hrun);
          [cbn [now]; lia | exact Hf |];
          exists b, w'; split; [exact Hrun|];
          apply pixel_poll_extends in Hrun as [Hn (evs & Ht & Hq)];
          cbn [now trace] in *; split; [lia|]
    end.
  - exists evs. now rewrite Ht, <- app_assoc.
  - exists ((now w, EvLog (LogMessage (String c' m))) :: evs).
    split; [now rewrite Ht, <- !app_assoc | constructor; [exact I | exact Hq]].
  - exists evs. now rewrite Ht, <- app_assoc.
Qed.

Lemma find_text_and_click_run fuel text r w :
  r <= 500 * (Z.of_nat fuel - 1) -> (0 < fuel)%nat ->
  exists b w', find_text_and_click env cfg fuel text r w = Some (b, w')
               /\ stage_run OcrText r w w'
               /\ (ocr_enabled cfg = true ->
                   (forall img d, image_to_data env img = Some d ->
                                  forall x y, scan text d <> Hit x y) ->
                   b = false /\ now w + r <= now w').
Proof.
  intros Hr Hf. unfold find_text_and_click. run_prims.
  destruct (ocr_enabled cfg); cbn [negb]; run_prims.
  - match goal with
    | |- context [text_poll env cfg fuel text ?s r ?w1] =>
        destruct (text_poll_total fuel text s r w1) as (b & w' & Hrun);
          [cbn [now]; lia | exact Hf |];
          exists b, w'; split; [exact Hrun|]
    end.
    split.
    + apply text_poll_extends in Hrun as [Hn (evs & Ht & Hq)].
      cbn [now trace] in *. split; [lia|].
      exists ((now w, EvLog (LogLookingForText text)) :: evs).
      split; [now rewrite Ht, <- !app_assoc | constructor; [exact I | exact Hq]].
    + intros _ Hmiss.
      apply (text_poll_miss _ _ _ _ _ _ _ Hmiss) in Hrun as [-> Hrun].
      cbn [now] in Hrun. split; [reflexivity | lia].
  - do 2 eexists. split; [reflexivity|]. split.
    + split; [cbn; lia|]. exists []. split; [reflexivity | constructor].
    + discriminate.
Qed.

Lemma settled_prefix b pre evs :
  Forall calm pre -> settled b evs -> settled b (pre ++ evs).
Proof.
  intros Hpre [Hall | (Hb & A & t & st & -> & HA)].
  - left. now apply Forall_app.
  - right. split; [exact Hb|]. exists (pre ++ A), t, st.
    split; [now rewrite app_assoc | now apply Forall_app].
Qed.

Lemma settled_last b evs pre t st post :
  settled b evs -> evs = pre ++ (t, EvLog (LogBudgetExpired st)) :: post ->
  post = [] /\ b = false.
Proof.
  intros [Hall | (Hb & A & t' & st' & HA & Hcalm)] Hevs.
  - exfalso. subst evs. apply Forall_app in Hall as [_ Hall].
    inversion Hall as [|? ? Hx _]. exact Hx.
  - destruct post as [|p post0]; [now split|].
    destruct (@exists_last _ (p :: post0)) as (post' & z & Hz); [discriminate|].
    exfalso. rewrite Hz in Hevs. rewrite Hevs in HA.
    change (pre ++ (t, EvLog (LogBudgetExpired st)) :: post' ++ [z])
      with (pre ++ ((t, EvLog (LogBudgetExpired st)) :: post') ++ [z]) in HA.
    rewrite app_assoc in HA. apply app_inj_tail in HA as [HA _].
    subst A. apply Forall_app in Hcalm as [_ Hcalm].
    inversion Hcalm as [|? ? Hx _]. exact Hx.
Qed.

Lemma budget_expired_run s T st w :
  T - (now w - s) <= 0 ->
  fallback_run s T false w
    {| now := now w; trace := trace w ++ [(now w, EvLog (LogBudgetExpired st))] |}.
Proof.
  intros Hle. split; [cbn; lia|].
  exists [(now w, EvLog (LogBudgetExpired st))]. split; [reflexivity|]. split.
  - constructor; [exact Hle | constructor].
  - right. split; [reflexivity|]. exists [], (now w), st.
    split; [reflexivity | constructor].
Qed.

Lemma pixel_fallback_run fuel key T s w :
  (poll_fuel T <= fuel)%nat -> s <= now w ->
  exists b w', pixel_fallback env cfg fuel key T s w = Some (b, w')
               /\ fallback_run s T b w w'.
Proof.
  intros Hf Hs. unfold pixel_fallback. run_prims.
  destruct (Z.leb_spec (T - (now w - s)) 0) as [Hle|Hgt]; run_prims.
  - do 2 eexists. split; [reflexivity | now apply budget_expired_run].
  - unfold bind at 1.
    match goal with
    | |- context [find_pixel_and_click env cfg fuel key ?r None ?w1] =>
        destruct (find_pixel_and_click_run fuel key r None w1)
          as (found & w2 & Hrun & Hn & evs & Ht & Hq);
          [apply (poll_fuel_enough T); [exact Hf | lia]
          | apply (poll_fuel_enough T fuel T); [exact Hf | lia] |]
    end.
    rewrite Hrun. cbn [now trace] in *.
    assert (Hw : Forall (within_budget s T) evs)
      by (eapply Forall_impl; [exact Hq | apply quiet_within]).
    assert (Hc : Forall calm evs)
      by (eapply Forall_impl; [exact Hq | apply quiet_calm]).
    destruct found; run_prims;
      (do 2 eexists; split; [reflexivity|]; split; [cbn; lia|]);
      cbn [trace]; rewrite Ht, <- !app_assoc; cbn [app];
      eexists; (split; [reflexivity|]); split.
    + constructor; [exact I|]. constructor; [cbn; lia | exact Hw].
    + left. constructor; [exact I|]. constructor; [exact I | exact Hc].
    + constructor; [exact I|]. constructor; [cbn; lia|].
      apply Forall_app. split; [exact Hw | repeat constructor].
    + left. constructor; [exact I|]. constructor; [exact I|].
      apply Forall_app. split; [exact Hc | repeat constructor].
Qed.

Lemma fallback_run_after s T b w1 w2 w3 pre :
  now w1 <= now w2 -> trace w2 = trace w1 ++ pre ->
  Forall (within_budget s T) pre -> Forall calm pre ->
  fallback_run s T b w2 w3 -> fallback_run s T b w1 w3.
Proof.
  intros Hn Ht Hw Hc [Hn' (evs & Ht' & Hw' & Hs')]. split; [lia|].
  exists (pre ++ evs). rewrite Ht', Ht, app_assoc. split; [reflexivity|].
  split; [now apply Forall_app | now apply settled_prefix].
Qed.

Lemma ocr_fallback_run fuel key text T s w :
  (poll_fuel T <= fuel)%nat -> s <= now w ->
  exists b w', ocr_fallback env cfg fuel key text T s w = Some (b, w')
               /\ fallback_run s T b w w'.
Proof.
  intros Hf Hs. unfold ocr_fallback.
  destruct (if ocr_enabled cfg then text_given text else None) as [txt|];
    run_prims.
  - destruct (Z.leb_spec (T - (now w - s)) 0) as [Hle|Hgt]; run_prims.
    + do 2 eexists. split; [reflexivity | now apply budget_expired_run].
    + unfold bind at 1.
      match goal with
      | |- context [find_text_and_click env cfg fuel txt ?r ?w1] =>
          destruct (find_text_and_click_run fuel txt r w1)
            as (found & w2 & Hrun & (Hn & evs & Ht & Hq) & _);
            [apply (poll_fuel_enough T); [exact Hf | lia]
            | apply (poll_fuel_enough T fuel T); [exact Hf | lia] |]
      end.
      rewrite Hrun. cbn [now trace] in *.
      assert (Hw : Forall (within_budget s T) evs)
        by (eapply Forall_impl; [exact Hq | apply quiet_within]).
      assert (Hc : Forall calm evs)
        by (eapply Forall_impl; [exact Hq | apply quiet_calm]).
      rewrite <- app_assoc in Ht; cbn [app] in Ht.
      destruct found; run_prims.
      * do 2 eexists. split; [reflexivity|]. split; [lia|].
        eexists. split; [exact Ht|]. split.
        -- constructor; [exact I|]. constructor; [cbn; lia | exact Hw].
        -- left. constructor; [exact I|]. constructor; [exact I | exact Hc].
      * destruct (pixel_fallback_run fuel key T s w2 Hf ltac:(lia))
          as (b & w3 & Hrun3 & Hfb).
        exists b, w3. split; [exact Hrun3|].
        eapply (fallback_run_after _ _ _ w w2 w3); [lia | exact Ht | | | exact Hfb].
        -- constructor; [exact I|]. constructor; [cbn; lia | exact Hw].
        -- constructor; [exact I|]. constructor; [exact I | exact Hc].
  - match goal with
    | |- context [pixel_fallback env cfg fuel key T s ?w1] =>
        destruct (pixel_fallback_run fuel key T s w1 Hf ltac:(cbn; lia))
          as (b & w3 & Hrun3 & Hfb)
    end.
    exists b, w3. split; [exact Hrun3|].
    eapply fallback_run_after; [| | | | exact Hfb];
      [cbn; lia | reflexivity | repeat constructor | repeat constructor].
Qed.

Lemma fallback_runs fuel key text T message w :
  (poll_fuel T <= fuel)%nat ->
  exists b w',
    find_with_fallback_and_click env cfg fuel key text T message w = Some (b, w')
    /\ fallback_run (now w) T b w w'.
Proof.
  intros Hf. unfold find_with_fallback_and_click. run_prims.
  assert (Hmsg : exists pre,
             log_message message w
             = Some (tt, {| now := now w; trace := trace w ++ pre |})
             /\ Forall quiet pre).
  { destruct message as [[|c m]|]; cbn [log_message].
    - exists []. rewrite app_nil_r. now destruct w.
    - eexists. split; [reflexivity | repeat constructor].
    - exists []. rewrite app_nil_r. now destruct w. }
  destruct Hmsg as (pre & Hmsg & Hpre).
  unfold bind at 1. rewrite Hmsg. run_prims.
  assert (Hprew : Forall (within_budget (now w) T) pre)
    by (eapply Forall_impl; [exact Hpre | apply quiet_within]).
  assert (Hprec : Forall calm pre)
    by (eapply Forall_impl; [exact Hpre | apply quiet_calm]).
  pose (w0 := {| now := now w; trace := trace w ++ pre |}).
  destruct (Z.leb_spec (T - (now w - now w)) 0) as [Hle|Hgt]; run_prims.
  - do 2 eexists. split; [reflexivity|].
    eapply (fallback_run_after _ _ _ w w0);
      [cbn; lia | reflexivity | exact Hprew | exact Hprec |].
    apply (budget_expired_run (now w) T Template w0). cbn. lia.
  - unfold bind at 1.
    match goal with
    | |- context [find_and_click env cfg fuel key ?r None ?w1] =>
        destruct (find_and_click_run fuel key r None w1)
          as (found & w2 & Hrun & Hn & evs & Ht & Hq);
          [apply (poll_fuel_enough T); [exact Hf | lia]
          | apply (poll_fuel_enough T fuel T); [exact Hf | lia] |]
    end.
    rewrite Hrun. cbn [now trace] in *.
    assert (Hw : Forall (within_budget (now w) T) evs)
      by (eapply Forall_impl; [exact Hq | apply quiet_within]).
    assert (Hc : Forall calm evs)
      by (eapply Forall_impl; [exact Hq | apply quiet_calm]).
    rewrite <- !app_assoc in Ht; cbn [app] in Ht.
    destruct found; run_prims.
    + do 2 eexists. split; [reflexivity|]. split; [lia|].
      eexists. split; [exact Ht|]. split.
      * apply Forall_app. split; [exact Hprew|].
        constructor; [exact I|]. constructor; [cbn; lia | exact Hw].
      * left. apply Forall_app. split; [exact Hprec|].
        constructor; [exact I|]. constructor; [exact I | exact Hc].
    + destruct (ocr_fallback_run fuel key text T (now w) w2 Hf ltac:(lia))
        as (b & w3 & Hrun3 & Hfb).
      exists b, w3. split; [exact Hrun3|].
      eapply (fallback_run_after _ _ _ w w2 w3); [lia | exact Ht | | | exact Hfb].
      * apply Forall_app. split; [exact Hprew|].
        constructor; [exact I|]. constructor; [cbn; lia | exact Hw].
      * apply Forall_app. split; [exact Hprec|].
        constructor; [exact I|]. constructor; [exact I | exact Hc].
Qed.

(** C1 on the code: with no template for the key, OCR enabled, a text hint
    and an OCR that never yields a match, the call fails and the pixel
    locator is never entered, whatever the pixel rules are: the OCR stage
    returns only when the whole budget is spent. *)
Theorem fallback_ocr_miss_starves_pixel (fuel : nat) (key txt : string)
    (T : Z) (message : option string) (w : World) :
  templates cfg !! key = None ->
  ocr_enabled cfg = true ->
  txt <> EmptyString ->
  (forall img d, image_to_data env img = Some d ->
                 forall x y, scan txt d <> Hit x y) ->
  (poll_fuel T <= fuel)%nat ->
  exists w',
    find_with_fallback_and_click env cfg fuel key (Some txt) T message w
    = Some (false, w')
    /\ calls Pixel (added w w') = 0%nat.
Proof.
  intros Htpl Hocr Htxt Hmiss Hf.
  destruct txt as [|c txt']; [congruence|].
  unfold find_with_fallback_and_click. run_prims.
  assert (Hmsg : exists pre,
             log_message message w
             = Some (tt, {| now := now w; trace := trace w ++ pre |})
             /\ Forall quiet pre).
  { destruct message as [[|c0 m]|]; cbn [log_message].
    - exists []. rewrite app_nil_r. now destruct w.
    - eexists. split; [reflexivity | repeat constructor].
    - exists []. rewrite app_nil_r. now destruct w. }
  destruct Hmsg as (pre & Hmsg & Hpre).
  assert (Hprec : Forall (fun te => is_call Pixel (snd te) = false) pre)
    by (eapply Forall_impl; [exact Hpre | apply quiet_no_call]).
  unfold bind at 1. rewrite Hmsg. run_prims.
  destruct (Z.leb_spec (T - (now w - now w)) 0) as [Hle|Hgt]; run_prims.
  - eexists. split; [reflexivity|].
    erewrite added_app by (cbn [trace]; rewrite <- app_assoc; reflexivity).
    apply no_calls, Forall_app. split; [exact Hprec | repeat constructor].
  - unfold find_and_click. run_prims. rewrite Htpl. run_prims.
    unfold ocr_fallback. rewrite Hocr. cbn [text_given]. run_prims.
    destruct (Z.leb_spec (T - (now w - now w)) 0) as [Hle|_]; [lia|]. run_prims.
    unfold bind at 1.
    match goal with
    | |- context [find_text_and_click env cfg fuel ?t ?r ?w1] =>
        destruct (find_text_and_click_run fuel t r w1)
          as (found & w2 & Hrun & (Hn & evs & Ht & Hq) & Hlate);
          [apply (poll_fuel_enough T); [exact Hf | lia]
          | apply (poll_fuel_enough T fuel T); [exact Hf | lia] |]
    end.
    destruct (Hlate Hocr Hmiss) as [-> Hspent].
    rewrite Hrun. cbn [now trace] in *.
    unfold pixel_fallback. run_prims.
    destruct (Z.leb_spec (T - (now w2 - now w)) 0) as [_|Hgt']; [|lia]. run_prims.
    eexists. split; [reflexivity|].
    erewrite added_app
      by (cbn [trace]; rewrite Ht, <- !app_assoc; cbn [app]; reflexivity).
    apply no_calls. apply Forall_app. split; [exact Hprec|].
    repeat (constructor; [reflexivity|]).
    apply Forall_app. split; [|repeat constructor].
    eapply Forall_impl; [exact Hq | apply quiet_no_call].
Qed.

Lemma find_and_click_first_pass fuel key path r w x y :
  templates cfg !! key = Some path ->
  path <> EmptyString ->
  0 < r -> (0 < fuel)%nat ->
  locate env path (now w) = Found x y ->
  let t1 := now w + Z.of_N (duration env OpLocate (now w)) in
  let t2 := t1 + Z.of_N (duration env OpClick t1) in
  find_and_click env cfg fuel key r None w
  = Some (true,
          {| now := t2 + Z.of_N (delay_operation cfg)
                    + Z.of_N (duration env OpSleep t2);
             trace := trace w ++ [(now w, EvCall Template r);
                                  (now w, EvLocate path);
                                  (t1, EvClick x y);
                                  (t2, EvSleep (delay_operation cfg))] |}).
Proof.
  intros Htpl Hpath Hr Hf Hloc t1 t2.
  destruct path as [|c p]; [congruence|].
  destruct fuel as [|fuel]; [lia|].
  unfold find_and_click. run_prims. rewrite Htpl. run_prims.
  cbn [template_poll]. run_prims.
  destruct (Z.ltb_spec (now w - now w) r) as [_|Hge]; [|lia].
  run_prims. rewrite Hloc. run_prims.
  unfold t2, t1. rewrite <- !app_assoc. cbn [app Z.of_N].
  rewrite !Z.add_0_r. reflexivity.
Qed.

(** C3, as the code has it: when the template of the key is on the screen
    at the first polling pass, the call succeeds in that pass: one click at
    the template's centre, no 0.5 s polling sleep but the post-click delay
    [delays.operation], and neither the OCR nor the pixel locator is
    entered.  The call lasts as long as the template search, the click and
    that delay. *)
Theorem fallback_template_first_pass (fuel : nat) (key path : string)
    (text : option string) (T : Z) (message : option string) (w : World)
    (x y : Z) :
  templates cfg !! key = Some path ->
  path <> EmptyString ->
  0 < T -> (0 < fuel)%nat ->
  locate env path (now w) = Found x y ->
  exists w',
    find_with_fallback_and_click env cfg fuel key text T message w
    = Some (true, w')
    /\ calls Template (added w w') = 1%nat
    /\ calls OcrText (added w w') = 0%nat
    /\ calls Pixel (added w w') = 0%nat
    /\ clicks (added w w') = [(x, y)]
    /\ naps (added w w') = [delay_operation cfg]
    /\ (let t1 := now w + Z.of_N (duration env OpLocate (now w)) in
        let t2 := t1 + Z.of_N (duration env OpClick t1) in
        now w' = t2 + Z.of_N (delay_operation cfg)
                 + Z.of_N (duration env OpSleep t2)).
Proof.
  intros Htpl Hpath HT Hf Hloc.
  unfold find_with_fallback_and_click.
  destruct message as [[|c0 m]|]; run_prims.
  all: destruct (Z.leb_spec (T - (now w - now w)) 0) as [Hle|_]; [lia|].
  all: run_prims; unfold bind at 1.
  all: erewrite find_and_click_first_pass; eauto; try (cbn [now]; lia).
  all: run_prims.
  all: eexists; split; [reflexivity|].
  all: erewrite added_app
    by (cbn [trace]; rewrite <- !app_assoc; cbn [app]; reflexivity).
  all: repeat (split; [reflexivity|]).
  all: cbn [now]; lia.
Qed.


End WithEnv.

Import Scenario.

(** C2, as stated, fails: with a budget of 1 s, a template that never
    matches and a template search of 300 ms, the template stage makes two
    passes (at 0 and at 0.8 s) and the call returns after 1.6 s. *)
Lemma fallback_overruns_budget :
  ~ (forall b w',
       find_with_fallback_and_click (grey_desktop slow_locate menu_words)
         template_only (poll_fuel 1000) "vscode_copy_button"
         (Some "Copy"%string) 1000 None start = Some (b, w') ->
       now w' - now start <= 1000).
Proof.
  intros H.
  assert (E : exists b w',
             find_with_fallback_and_click (grey_desktop slow_locate menu_words)
               template_only (poll_fuel 1000) "vscode_copy_button"
               (Some "Copy"%string) 1000 None start = Some (b, w')
             /\ now w' = 1600).
  { vm_compute. do 2 eexists. split; reflexivity. }
  destruct E as (b & w' & E & Hn).
  apply H in E. rewrite Hn in E. vm_compute in E. now apply E.
Qed.

Lemma fallback_ocr_miss_starves_pixel_witness :
  (exists c, getpixel (screen (grey_desktop instant menu_words) 0) 100 200 = Some c
             /\ _color_match c [255; 255; 255] 20 = true)
  /\ exists w',
       find_with_fallback_and_click (grey_desktop instant menu_words) pixel_only
         (poll_fuel 30000) "vscode_copy_button" (Some "Copy"%string) 30000 None
         start = Some (false, w')
       /\ calls Pixel (added start w') = 0%nat.
Proof.
  split.
  - eexists. split; reflexivity.
  - apply (fallback_ocr_miss_starves_pixel (grey_desktop instant menu_words)
             pixel_only (poll_fuel 30000) "vscode_copy_button" "Copy"%string
             30000 None start).
    + reflexivity.
    + reflexivity.
    + discriminate.
    + intros img d [= <-] x y. vm_compute. discriminate.
    + unfold poll_fuel. lia.
Defined.

Lemma fallback_template_first_pass_witness :
  exists w',
    find_with_fallback_and_click ready_desktop template_only (poll_fuel 10000)
      "vscode_copy_button" (Some "Copy"%string) 10000 None start
    = Some (true, w')
    /\ calls OcrText (added start w') = 0%nat
    /\ calls Pixel (added start w') = 0%nat
    /\ clicks (added start w') = [(50, 60)]
    /\ naps (added start w') = [1000%N]
    /\ now w' = 1000.
Proof.
  destruct (fallback_template_first_pass ready_desktop template_only
              (poll_fuel 10000) "vscode_copy_button" "templates/copy.png"%string
              (Some "Copy"%string) 10000 None start 50 60)
    as (w' & Hrun & _ & Hocr & Hpix & Hclick & Hnap & Hnow).
  - reflexivity.
  - discriminate.
  - lia.
  - unfold poll_fuel. lia.
  - reflexivity.
  - exists w'. repeat (split; [assumption|]). rewrite Hnow. reflexivity.
Defined.

(** C3, as stated, fails: with the default post-click delay of one second a
    template that is found at once makes the call return after 1 s, not
    within the 0.5 s polling interval. *)
Lemma first_pass_outlasts_poll_interval :
  ~ (exists w',
       find_with_fallback_and_click ready_desktop template_only (poll_fuel 10000)
         "vscode_copy_button" (Some "Copy"%string) 10000 None start
       = Some (true, w')
       /\ now w' - now start <= 500
       /\ calls OcrText (added start w') = 0%nat
       /\ calls Pixel (added start w') = 0%nat).
Proof.
  intros (w' & Hrun & Hlate & _).
  vm_compute in Hrun. injection Hrun as <-.
  vm_compute in Hlate. now apply Hlate.
Qed.



End RecognizerFacts.

(** * Further properties of the code *)

(** ** More on the colour predicate and the average *)

Module ColorMore.
Import Color Img Spec ColorFacts ImgFacts.

(** X1: A larger tolerance accepts whatever a smaller one accepts, and a
    negative tolerance rejects every pair of colours with a channel in
    common. *)
Theorem color_match_tolerance (c1 c2 : Color) (t t' : Z) :
  (t <= t' -> _color_match c1 c2 t = true -> _color_match c1 c2 t' = true)
  /\ (t < 0 -> c1 <> [] -> c2 <> [] -> _color_match c1 c2 t = false).
Proof.
  split.
  - intros Hle. revert c2; induction c1 as [|x c1 IH]; intros [|y c2];
      try reflexivity.
    rewrite !color_match_cons, !andb_true_iff, !Z.leb_le.
    intros [Hx Hrest]. split; [lia | now apply IH].
  - intros Hneg H1 H2. destruct c1 as [|x c1]; [congruence|].
    destruct c2 as [|y c2]; [congruence|].
    rewrite color_match_cons.
    destruct (Z.leb_spec (Z.abs (x - y)) t); [lia | reflexivity].
Qed.

Lemma color_match_tolerance_witness :
  _color_match [250; 250; 250] [255; 255; 255] 20 = true
  /\ _color_match [250; 250; 250] [250; 250; 250] (-1) = false.
Proof.
  split.
  - apply (proj1 (color_match_tolerance [250; 250; 250] [255; 255; 255] 5 20));
      [lia | reflexivity].
  - apply (proj2 (color_match_tolerance [250; 250; 250] [250; 250; 250] (-1) 0));
      [lia | discriminate | discriminate].
Defined.

Lemma channel_sum_none c (pixels : list Color) :
  channel_sum c pixels = None
  <-> Exists (fun px => (length px <= c)%nat) pixels.
Proof.
  induction pixels as [|px rest IH]; simpl.
  - split; [discriminate | intros H; inversion H].
  - unfold channel. destruct (nth_error px c) as [v|] eqn:Hv.
    + assert (c < length px)%nat by (apply nth_error_Some; congruence).
      destruct (channel_sum c rest) as [s|].
      * split; [discriminate|]. intros H'. inversion H' as [? ? Hh|? ? Ht]; subst.
        -- lia.
        -- apply IH in Ht. discriminate Ht.
      * split; [|reflexivity]. intros _. apply Exists_cons_tl. now apply IH.
    + apply nth_error_None in Hv. split; [|reflexivity].
      intros _. now apply Exists_cons_hd.
Qed.

(** X2: [_average_color] fails exactly when there is no pixel
    (ZeroDivisionError) or some pixel has fewer than three channels
    (IndexError). *)
Theorem average_color_fails (pixels : list Color) :
  _average_color pixels = None
  <-> pixels = [] \/ Exists (fun px => (length px < 3)%nat) pixels.
Proof.
  unfold _average_color.
  destruct (Z.eqb_spec (Z.of_nat (length pixels)) 0) as [H0|Hn].
  - split; [|reflexivity]. intros _. left. destruct pixels; [reflexivity|].
    simpl in H0. lia.
  - assert (Hne : pixels <> []) by (intros ->; simpl in Hn; lia).
    destruct (channel_sum 0 pixels) as [r|] eqn:Hr;
      [destruct (channel_sum 1 pixels) as [g|] eqn:Hg;
       [destruct (channel_sum 2 pixels) as [b|] eqn:Hb|]|].
    + split; [discriminate|]. intros [He|Hex]; [congruence|]. exfalso.
      assert (Hx : Exists (fun px => (length px <= 2)%nat) pixels)
        by (eapply Exists_impl; [exact Hex|]; simpl; intros; lia).
      apply channel_sum_none in Hx. congruence.
    + split; [|reflexivity]. intros _. right.
      apply channel_sum_none in Hb.
      eapply Exists_impl; [exact Hb|]. simpl; intros; lia.
    + split; [|reflexivity]. intros _. right.
      apply channel_sum_none in Hg.
      eapply Exists_impl; [exact Hg|]. simpl; intros; lia.
    + split; [|reflexivity]. intros _. right.
      apply channel_sum_none in Hr.
      eapply Exists_impl; [exact Hr|]. simpl; intros; lia.
Qed.

Lemma average_color_fails_witness :
  _average_color [[12; 34; 56]; [200; 100]] = None.
Proof.
  apply (proj2 (average_color_fails [[12; 34; 56]; [200; 100]])).
  right. apply Exists_cons_tl, Exists_cons_hd. simpl. lia.
Defined.

Lemma channel_sum_bounds c (pixels : list Color) lo hi s :
  channel_sum c pixels = Some s ->
  (forall px v, In px pixels -> nth_error px c = Some v -> lo <= v <= hi) ->
  Z.of_nat (length pixels) * lo <= s <= Z.of_nat (length pixels) * hi.
Proof.
  revert s; induction pixels as [|px rest IH]; intros s; simpl.
  - intros [= <-] _. lia.
  - unfold channel. destruct (nth_error px c) as [v|] eqn:Hv; [|discriminate].
    destruct (channel_sum c rest) as [s'|]; [|discriminate].
    intros [= <-] Hall.
    assert (lo <= v <= hi) by (apply (Hall px); [now left | exact Hv]).
    assert (Z.of_nat (length rest) * lo <= s' <= Z.of_nat (length rest) * hi)
      by (apply IH; [reflexivity | intros; eapply Hall; eauto]).
    lia.
Qed.

(** X3: The average has three channels, and each lies between the smallest and
    the largest value the pixels have in their first three channels: the
    average of screen pixels (0 to 255) is again within 0 to 255. *)
Theorem average_color_within (pixels : list Color) (lo hi : Z) (avg : Color) :
  _average_color pixels = Some avg ->
  (forall px c v, In px pixels -> (c < 3)%nat -> nth_error px c = Some v ->
                  lo <= v <= hi) ->
  length avg = 3%nat /\ Forall (fun v => lo <= v <= hi) avg.
Proof.
  unfold _average_color.
  destruct (Z.eqb_spec (Z.of_nat (length pixels)) 0) as [|Hn]; [discriminate|].
  destruct (channel_sum 0 pixels) as [r|] eqn:Hr; [|discriminate].
  destruct (channel_sum 1 pixels) as [g|] eqn:Hg; [|discriminate].
  destruct (channel_sum 2 pixels) as [b|] eqn:Hb; [|discriminate].
  intros [= <-] Hall. split; [reflexivity|].
  assert (Hpos : 0 < Z.of_nat (length pixels)) by lia.
  pose proof (channel_sum_bounds 0 pixels lo hi r Hr
                (fun px v Hin => Hall px 0%nat v Hin ltac:(lia))) as Br.
  pose proof (channel_sum_bounds 1 pixels lo hi g Hg
                (fun px v Hin => Hall px 1%nat v Hin ltac:(lia))) as Bg.
  pose proof (channel_sum_bounds 2 pixels lo hi b Hb
                (fun px v Hin => Hall px 2%nat v Hin ltac:(lia))) as Bb.
  repeat constructor;
    try (apply Z.div_le_lower_bound; [exact Hpos | lia]);
    try (apply Z.div_le_upper_bound; [exact Hpos | lia]).
Qed.

Lemma average_color_within_witness :
  Forall (fun v => 0 <= v <= 255) [127; 127; 85].
Proof.
  apply (average_color_within [[255; 0; 0]; [0; 255; 0; 255]; [127; 127; 255]]
           0 255 [127; 127; 85]).
  - reflexivity.
  - intros px c v [<-|[<-|[<-|[]]]] Hc Hv;
      destruct c as [|[|[|c]]]; try lia; simpl in Hv; injection Hv as <-; lia.
Defined.

(** X4: A rectangle inside the screenshot whose pixels all begin with the
    channels (r, g, b) averages to exactly (r, g, b). *)
Theorem region_average_uniform (img : Image) (l t w h r g b : Z) :
  0 < w -> 0 < h ->
  rect_inside img (l, t, w, h) = true ->
  (forall x y, l <= x < l + w -> t <= y < t + h ->
               firstn 3 (im_px img x y) = [r; g; b]) ->
  region_average img (l, t, w, h) = Some [r; g; b].
Proof.
  intros Hw Hh Hin Hpx. unfold region_average.
  destruct (crop img (l, t, l + w, t + h)) as [region_img|] eqn:Hc.
  2:{ unfold crop in Hc.
      destruct (Z.ltb_spec (l + w) l); [lia|].
      destruct (Z.ltb_spec (t + h) t); [lia|]. discriminate Hc. }
  rewrite (getdata_crop _ _ _ _ _ _ Hc), pixels_inside by assumption.
  assert (Hall : forall px, In px (map (pixel_at img) (rect_coords l t w h)) ->
                            firstn 3 px = [r; g; b]).
  { intros px Hpx'. apply in_map_iff in Hpx' as ([x y] & <- & Hxy).
    apply in_rect_coords in Hxy. now apply Hpx. }
  assert (Hlen : Z.of_nat (length (map (pixel_at img) (rect_coords l t w h))) = w * h)
    by (rewrite length_map, length_rect_coords; nia).
  revert Hall Hlen. generalize (map (pixel_at img) (rect_coords l t w h)).
  intros pixels Hall Hlen.
  assert (Hsum : forall c v, nth_error [r; g; b] c = Some v ->
                             channel_sum c pixels
                             = Some (Z.of_nat (length pixels) * v)).
  { intros c v Hv. clear Hlen. induction pixels as [|px rest IH].
    - reflexivity.
    - cbn [channel_sum]. rewrite IH by (intros; apply Hall; now right).
      assert (Hf : firstn 3 px = [r; g; b]) by (apply Hall; now left).
      assert (Hc' : channel px c = Some v).
      { unfold channel. destruct px as [|p0 [|p1 [|p2 px]]]; try discriminate Hf.
        injection Hf as -> -> ->.
        destruct c as [|[|[|c]]]; try exact Hv. destruct c; discriminate Hv. }
      rewrite Hc'. f_equal. cbn [length]. lia. }
  unfold _average_color.
  destruct (Z.eqb_spec (Z.of_nat (length pixels)) 0) as [H0|Hn]; [nia|].
  rewrite (Hsum 0%nat r eq_refl), (Hsum 1%nat g eq_refl), (Hsum 2%nat b eq_refl).
  rewrite !(Z.mul_comm (Z.of_nat (length pixels))), !Z.div_mul by exact Hn.
  reflexivity.
Qed.

Lemma region_average_uniform_witness :
  region_average (solid 1920 1080 [0; 120; 255]) (300, 400, 50, 20)
  = Some [0; 120; 255].
Proof.
  apply (region_average_uniform (solid 1920 1080 [0; 120; 255]) 300 400 50 20
           0 120 255); [lia | lia | reflexivity | reflexivity].
Defined.

End ColorMore.

(** ** More on the OCR word scan *)

Module OcrMore.
Import Ocr OcrSpec.

Lemma prefix_app (s1 s2 : string) :
  String.prefix s1 s2 = true <-> exists post, s2 = String.append s1 post.
Proof.
  revert s2; induction s1 as [|a s1 IH]; intros s2.
  - split; [intros _; exists s2; reflexivity | now destruct s2].
  - destruct s2 as [|b s2]; simpl.
    + split; [discriminate | intros [post H]; discriminate H].
    + destruct (ascii_dec a b) as [->|Hne].
      * rewrite IH. split; intros [post H]; exists post; [now rewrite H|].
        now injection H.
      * split; [discriminate|]. intros [post H]. injection H as H _. congruence.
Qed.

Lemma str_in_app (needle hay : string) :
  str_in needle hay = true
  <-> exists pre post, hay = String.append pre (String.append needle post).
Proof.
  induction hay as [|c hay IH].
  - cbn [str_in]. rewrite orb_false_r, prefix_app. split.
    + intros [post H]. exists EmptyString, post. exact H.
    + intros (pre & post & H). destruct pre as [|p pre]; [|discriminate H].
      exists post. exact H.
  - cbn [str_in]. rewrite orb_true_iff, prefix_app, IH. split.
    + intros [[post H] | (pre & post & H)].
      * exists EmptyString, post. exact H.
      * exists (String c pre), post. simpl. now rewrite H.
    + intros (pre & post & H). destruct pre as [|p pre].
      * left. exists post. exact H.
      * right. injection H as _ H. exists pre, post. exact H.
Qed.

Lemma lower_ascii_idem c : lower_ascii (lower_ascii c) = lower_ascii c.
Proof.
  destruct c as [[] [] [] [] [] [] [] []]; reflexivity.
Qed.

Lemma lower_idem s : lower (lower s) = lower s.
Proof.
  induction s as [|c s IH]; [reflexivity|].
  simpl. now rewrite lower_ascii_idem, IH.
Qed.

Lemma lower_upper_ascii c : lower_ascii (upper_ascii c) = lower_ascii c.
Proof.
  destruct c as [[] [] [] [] [] [] [] []]; reflexivity.
Qed.

Lemma lower_upper s : lower (upper s) = lower s.
Proof.
  induction s as [|c s IH]; [reflexivity|].
  simpl. now rewrite lower_upper_ascii, IH.
Qed.

Lemma has_char_append c s1 s2 :
  has_char c (String.append s1 s2) = has_char c s1 || has_char c s2.
Proof.
  unfold has_char. induction s1 as [|x s1 IH]; [reflexivity|].
  simpl. now rewrite IH, orb_assoc.
Qed.

(** X5: The test [text.lower() in word.lower()] on ASCII text and words, where
    [lower] is [str.lower()]: a word matches exactly when the lower-cased
    text occurs in the lower-cased word as a contiguous piece; putting
    either side in upper or in lower case changes nothing; a character of
    the lower-cased text that the lower-cased word lacks rules the match
    out, so that a text with a space matches no word without one; and the
    empty text matches every word. *)
Theorem word_matches_substring (text word : string) :
  ascii_only text = true -> ascii_only word = true ->
  (word_matches text word = true
   <-> exists pre post,
         lower word = String.append pre (String.append (lower text) post))
  /\ word_matches (upper text) word = word_matches text word
  /\ word_matches text (upper word) = word_matches text word
  /\ word_matches (lower text) (lower word) = word_matches text word
  /\ (forall c, has_char c (lower text) = true ->
                has_char c (lower word) = false ->
                word_matches text word = false)
  /\ (text = EmptyString -> word_matches text word = true).
Proof.
  intros _ _. split; [apply str_in_app|].
  split; [unfold word_matches; now rewrite lower_upper|].
  split; [unfold word_matches; now rewrite lower_upper|].
  split; [unfold word_matches; now rewrite !lower_idem|].
  split.
  - intros c Hc Hn. destruct (word_matches text word) eqn:E; [|reflexivity].
    apply str_in_app in E as (pre & post & E).
    rewrite E, !has_char_append, Hc, orb_true_l, orb_true_r in Hn.
    discriminate Hn.
  - intros ->. unfold word_matches. now destruct (lower word).
Qed.

Lemma word_matches_substring_witness :
  word_matches "COPY" "Copy Markdown" = word_matches "copy" "Copy Markdown"
  /\ word_matches "More options" "options" = false.
Proof.
  split.
  - apply (proj1 (proj2 (word_matches_substring "copy" "Copy Markdown"
                           eq_refl eq_refl))).
  - apply (proj1 (proj2 (proj2 (proj2 (proj2
             (word_matches_substring "More options" "options" eq_refl eq_refl)))))
             " "%char); reflexivity.
Defined.

Lemma scan_words_miss text d i words :
  scan_words text d i words = Miss
  <-> Forall (fun w => word_matches text w = false) words.
Proof.
  revert i; induction words as [|word rest IH]; intros i; cbn [scan_words].
  - split; [constructor | reflexivity].
  - destruct (word_matches text word) eqn:Hw.
    + split.
      * destruct (nth_error (ocr_left d) i), (nth_error (ocr_width d) i),
          (nth_error (ocr_top d) i), (nth_error (ocr_height d) i); discriminate.
      * intros H. inversion H; congruence.
    + rewrite IH. split; [now constructor | intros H; now inversion H].
Qed.

Lemma scan_words_hit text d i words x y :
  scan_words text d i words = Hit x y ->
  exists k word l t w h,
    nth_error words k = Some word
    /\ word_matches text word = true
    /\ Forall (fun w0 => word_matches text w0 = false) (firstn k words)
    /\ nth_error (ocr_left d) (i + k) = Some l
    /\ nth_error (ocr_top d) (i + k) = Some t
    /\ nth_error (ocr_width d) (i + k) = Some w
    /\ nth_error (ocr_height d) (i + k) = Some h
    /\ x = l + w / 2 /\ y = t + h / 2.
Proof.
  revert i; induction words as [|word rest IH]; intros i; cbn [scan_words];
    [discriminate|].
  destruct (word_matches text word) eqn:Hw.
  - destruct (nth_error (ocr_left d) i) as [l|] eqn:Hl; [|discriminate].
    destruct (nth_error (ocr_width d) i) as [w|] eqn:Hwd; [|discriminate].
    destruct (nth_error (ocr_top d) i) as [t|] eqn:Ht; [|discriminate].
    destruct (nth_error (ocr_height d) i) as [h|] eqn:Hh; [|discriminate].
    intros [= <- <-]. exists 0%nat, word, l, t, w, h.
    rewrite Nat.add_0_r. repeat split; try assumption. constructor.
  - intros H. apply IH in H
      as (k & word' & l & t & w & h & Hk & Hm & Hpre & Hl & Ht & Hwd & Hh & Hx & Hy).
    exists (S k), word', l, t, w, h.
    replace (i + S k)%nat with (S i + k)%nat by lia.
    repeat split; try assumption. cbn [firstn]. now constructor.
Qed.

(** X6: The word scan of [find_text_and_click] reports no match exactly when no
    OCR word contains the text, and a point it returns is the centre of the
    box of the first word that contains it. *)
Theorem scan_first_match (text : string) (d : OcrData) :
  (scan text d = Miss
   <-> Forall (fun w => word_matches text w = false) (ocr_text d))
  /\ (forall x y, scan text d = Hit x y ->
      exists k word l t w h,
        nth_error (ocr_text d) k = Some word
        /\ word_matches text word = true
        /\ Forall (fun w0 => word_matches text w0 = false)
                  (firstn k (ocr_text d))
        /\ nth_error (ocr_left d) k = Some l
        /\ nth_error (ocr_top d) k = Some t
        /\ nth_error (ocr_width d) k = Some w
        /\ nth_error (ocr_height d) k = Some h
        /\ x = l + w / 2 /\ y = t + h / 2).
Proof.
  split; [apply scan_words_miss|].
  intros x y H. apply scan_words_hit in H. exact H.
Qed.

Lemma scan_first_match_witness :
  exists k word,
    nth_error (ocr_text Scenario.submit_words) k = Some word
    /\ word_matches "submit" word = true
    /\ Forall (fun w0 => word_matches "submit" w0 = false)
              (firstn k (ocr_text Scenario.submit_words)).
Proof.
  destruct (proj2 (scan_first_match "submit" Scenario.submit_words) 120 207 eq_refl)
    as (k & word & l & t & w & h & Hk & Hm & Hpre & _).
  exists k, word. split; [exact Hk|]. split; [exact Hm | exact Hpre].
Defined.

End OcrMore.

(** ** More on the retry loop *)

Module RelayMore.
Import Relay RelaySpec RelayFacts.

(** X7: The backoff never exceeds the cap, and with a non-negative base it
    never shrinks from one retry to the next: once at the cap it stays
    there. *)
Theorem backoff_capped_monotone (c : RetryConfig) (r r' : Z) :
  backoff c r <= max_backoff c
  /\ (0 <= backoff_base c -> 1 <= r <= r' -> backoff c r <= backoff c r')
  /\ (0 <= backoff_base c -> 1 <= r <= r' ->
      backoff c r = max_backoff c -> backoff c r' = max_backoff c).
Proof.
  assert (Hmono : 0 <= backoff_base c -> 1 <= r <= r' ->
                  backoff c r <= backoff c r').
  { intros Hb Hr. unfold backoff.
    assert (2 ^ (r - 1) <= 2 ^ (r' - 1)) by (apply Z.pow_le_mono_r; lia).
    assert (backoff_base c * 2 ^ (r - 1) <= backoff_base c * 2 ^ (r' - 1))
      by (apply Z.mul_le_mono_nonneg_l; lia).
    lia. }
  split; [unfold backoff; lia|]. split; [exact Hmono|].
  intros Hb Hr Heq. specialize (Hmono Hb Hr).
  assert (backoff c r' <= max_backoff c) by (unfold backoff; lia). lia.
Qed.

Lemma backoff_capped_monotone_witness :
  backoff default_retry 4 <= backoff default_retry 5
  /\ backoff default_retry 9 = 30.
Proof.
  destruct (backoff_capped_monotone default_retry 4 5) as (_ & Hm & _).
  destruct (backoff_capped_monotone default_retry 5 9) as (_ & _ & Hc).
  split; [apply Hm; simpl; lia | apply Hc; simpl; try lia; reflexivity].
Defined.

Lemma starts_app evs1 evs2 : starts (evs1 ++ evs2) = starts evs1 ++ starts evs2.
Proof. unfold starts. apply flat_map_app. Qed.

Lemma sleeps_app evs1 evs2 : sleeps (evs1 ++ evs2) = sleeps evs1 ++ sleeps evs2.
Proof. unfold sleeps. apply flat_map_app. Qed.

(** X9: Every pass that is not a pause starts an attempt and takes the next
    iteration number, whether it is a first attempt or a retry:
    [self.iterations] ends as its initial value plus the number of attempts
    started, and the attempts carry consecutive iteration numbers. *)
Theorem iterations_count_attempts (c : RetryConfig) (outcomes : list Outcome)
    (st : Counters) :
  let evs := fst (run c outcomes st) in
  let st' := snd (run c outcomes st) in
  iterations st' = iterations st + Z.of_nat (length (starts evs))
  /\ map fst (starts evs)
     = seqZ (iterations st + 1) (Z.of_nat (length (starts evs))).
Proof.
  revert st; induction outcomes as [|o rest IH]; intros st.
  - cbn. split; [lia | reflexivity].
  - assert (Hstep : forall st1 pre,
               starts pre = [(iterations st + 1, retries st + 1)] ->
               iterations st1 = iterations st + 1 ->
               let evs := pre ++ fst (run c rest st1) in
               let st' := snd (run c rest st1) in
               iterations st' = iterations st + Z.of_nat (length (starts evs))
               /\ map fst (starts evs)
                  = seqZ (iterations st + 1) (Z.of_nat (length (starts evs)))).
    { intros st1 pre Hpre Hst1 evs st'. unfold evs, st'.
      destruct (IH st1) as [Hi Hs]. cbn zeta in Hi, Hs.
      rewrite starts_app, Hpre. cbn [app length map fst].
      rewrite Hi, Hs, Hst1. split; [lia|].
      rewrite (seqZ_cons (iterations st + 1)) by lia. f_equal.
      f_equal; lia. }
    destruct o; cbn [run].
    + destruct (IH st) as [Hi Hs]. cbn zeta in Hi, Hs.
      destruct (run c rest st) as [evs st'] eqn:E. cbn [fst snd] in *.
      exact (conj Hi Hs).
    + destruct (run c rest _) as [evs st'] eqn:E. cbn [fst snd].
      specialize (Hstep {| iterations := iterations st + 1; retries := 0 |}
                    [Start (iterations st + 1) (retries st + 1);
                     Success (iterations st + 1)] eq_refl eq_refl).
      rewrite E in Hstep. exact Hstep.
    + destruct (max_retries c <=? retries st + 1).
      * destruct (run c rest _) as [evs st'] eqn:E. cbn [fst snd].
        specialize (Hstep {| iterations := iterations st + 1; retries := 0 |}
                      [Start (iterations st + 1) (retries st + 1);
                       AttemptFailed (retries st + 1);
                       Exhausted (iterations st + 1)] eq_refl eq_refl).
        rewrite E in Hstep. exact Hstep.
      * destruct (run c rest _) as [evs st'] eqn:E. cbn [fst snd].
        specialize (Hstep {| iterations := iterations st + 1;
                             retries := retries st + 1 |}
                      [Start (iterations st + 1) (retries st + 1);
                       AttemptFailed (retries st + 1);
                       Backoff (backoff c (retries st + 1))] eq_refl eq_refl).
        rewrite E in Hstep. exact Hstep.
    + destruct (run c rest _) as [evs st'] eqn:E. cbn [fst snd].
      specialize (Hstep {| iterations := iterations st + 1;
                           retries := retries st |}
                    [Start (iterations st + 1) (retries st + 1)] eq_refl eq_refl).
      rewrite E in Hstep. exact Hstep.
    + cbn. split; [lia | reflexivity].
Qed.

(** X10: No attempt number exceeds the configured maximum (or 1, when the
    maximum is smaller): starting with a retry counter in range, every
    attempt that is started is numbered between 1 and that bound, and the
    counter is in range again at the end. *)
Theorem attempts_bounded (c : RetryConfig) (outcomes : list Outcome)
    (st : Counters) :
  0 <= retries st < Z.max 1 (max_retries c) ->
  Forall (fun ia => 1 <= snd ia <= Z.max 1 (max_retries c))
         (starts (fst (run c outcomes st)))
  /\ 0 <= retries (snd (run c outcomes st)) < Z.max 1 (max_retries c).
Proof.
  revert st; induction outcomes as [|o rest IH]; intros st Hr.
  - cbn. split; [constructor | exact Hr].
  - destruct o; cbn [run].
    + specialize (IH st Hr). destruct (run c rest st). exact IH.
    + specialize (IH {| iterations := iterations st + 1; retries := 0 |}
                    ltac:(cbn; lia)).
      destruct (run c rest _). cbn [fst snd] in *. destruct IH as [IH1 IH2].
      split; [|exact IH2]. constructor; [cbn; lia | exact IH1].
    + destruct (Z.leb_spec (max_retries c) (retries st + 1)).
      * specialize (IH {| iterations := iterations st + 1; retries := 0 |}
                      ltac:(cbn; lia)).
        destruct (run c rest _). cbn [fst snd] in *. destruct IH as [IH1 IH2].
        split; [|exact IH2]. constructor; [cbn; lia | exact IH1].
      * specialize (IH {| iterations := iterations st + 1;
                          retries := retries st + 1 |} ltac:(cbn; lia)).
        destruct (run c rest _). cbn [fst snd] in *. destruct IH as [IH1 IH2].
        split; [|exact IH2]. constructor; [cbn; lia | exact IH1].
    + specialize (IH {| iterations := iterations st + 1; retries := retries st |}
                    ltac:(cbn; lia)).
      destruct (run c rest _). cbn [fst snd] in *. destruct IH as [IH1 IH2].
      split; [|exact IH2]. constructor; [cbn; lia | exact IH1].
    + cbn. split; [|exact Hr]. repeat constructor; cbn; lia.
Qed.

Lemma attempts_bounded_witness :
  Forall (fun ia => 1 <= snd ia <= 5)
         (starts (fst (run default_retry (repeat Failed 12) fresh))).
Proof.
  apply (proj1 (attempts_bounded default_retry (repeat Failed 12) fresh
                  ltac:(cbn; lia))).
Defined.

Lemma failures_from c k rest n r :
  0 <= r -> r + Z.of_nat k = max_retries c -> (0 < k)%nat ->
  exists evs,
    run c (repeat Failed k ++ rest) {| iterations := n; retries := r |}
    = (evs ++ fst (run c rest {| iterations := n + Z.of_nat k; retries := 0 |}),
       snd (run c rest {| iterations := n + Z.of_nat k; retries := 0 |}))
    /\ sleeps evs = map (backoff c) (seqZ (r + 1) (Z.of_nat k - 1))
    /\ map snd (starts evs) = seqZ (r + 1) (Z.of_nat k)
    /\ exhausted evs = [n + Z.of_nat k].
Proof.
  revert n r; induction k as [|k IH]; intros n r Hr Hm Hk; [lia|].
  cbn [repeat app]. destruct k as [|k].
  - rewrite run_failed_exhausted by lia.
    exists [Start (n + 1) (r + 1); AttemptFailed (r + 1); Exhausted (n + 1)].
    cbn [repeat app]. replace (n + Z.of_nat 1) with (n + 1) by lia.
    repeat split.
  - rewrite run_failed_retry by lia. cbn [fst snd].
    destruct (IH (n + 1) (r + 1) ltac:(lia) ltac:(lia) ltac:(lia))
      as (evs & Hrun & Hs & Ha & Hx).
    rewrite Hrun. cbn [fst snd].
    replace (n + 1 + Z.of_nat (S k)) with (n + Z.of_nat (S (S k))) by lia.
    exists (Start (n + 1) (r + 1) :: AttemptFailed (r + 1)
              :: Backoff (backoff c (r + 1)) :: evs).
    split; [reflexivity|]. split; [|split].
    + change (sleeps (Start (n + 1) (r + 1) :: AttemptFailed (r + 1)
                        :: Backoff (backoff c (r + 1)) :: evs))
        with (backoff c (r + 1) :: sleeps evs).
      rewrite Hs, (seqZ_cons (r + 1)) by lia. cbn [map]. do 3 f_equal; lia.
    + change (map snd (starts (Start (n + 1) (r + 1) :: AttemptFailed (r + 1)
                                 :: Backoff (backoff c (r + 1)) :: evs)))
        with ((r + 1) :: map snd (starts evs)).
      rewrite Ha, (seqZ_cons (r + 1) (Z.of_nat (S (S k)))) by lia.
      do 2 f_equal; lia.
    + change (exhausted (Start (n + 1) (r + 1) :: AttemptFailed (r + 1)
                           :: Backoff (backoff c (r + 1)) :: evs))
        with (exhausted evs).
      rewrite Hx. f_equal. lia.
Qed.

(** X11: With a maximum of [m >= 1] retries and a base and a cap that are not
    negative, [m] consecutive failures make [m] attempts numbered 1 to [m],
    sleep the backoffs of retries 1 to [m - 1] between them, each of them
    between 0 and the cap, give up once, after the last, and hand over to
    the next pass with the retry counter back at 0. *)
Theorem failures_until_exhausted (c : RetryConfig) (rest : list Outcome) (n : Z) :
  1 <= max_retries c ->
  0 <= backoff_base c -> 0 <= max_backoff c ->
  let m := max_retries c in
  let after := run c rest {| iterations := n + m; retries := 0 |} in
  exists evs,
    run c (repeat Failed (Z.to_nat m) ++ rest) {| iterations := n; retries := 0 |}
    = (evs ++ fst after, snd after)
    /\ sleeps evs = map (backoff c) (seqZ 1 (m - 1))
    /\ Forall (fun s => 0 <= s <= max_backoff c) (sleeps evs)
    /\ map snd (starts evs) = seqZ 1 m
    /\ exhausted evs = [n + m].
Proof.
  intros Hm Hbase Hcap m after.
  destruct (failures_from c (Z.to_nat m) rest n 0) as (evs & Hrun & Hs & Ha & Hx);
    [lia | unfold m; lia | unfold m; lia |].
  exists evs. unfold after.
  replace (n + Z.of_nat (Z.to_nat m)) with (n + m) in * by (unfold m; lia).
  replace (Z.of_nat (Z.to_nat m)) with m in * by (unfold m; lia).
  split; [exact Hrun|]. split; [exact Hs|].
  split; [|split; [exact Ha | exact Hx]].
  rewrite Hs. apply List.Forall_forall. intros x Hin.
  apply in_map_iff in Hin as (j & <- & _). unfold backoff.
  pose proof (Z.pow_nonneg 2 (j - 1) ltac:(lia)).
  assert (0 <= backoff_base c * 2 ^ (j - 1)) by (apply Z.mul_nonneg_nonneg; lia).
  lia.
Qed.

Lemma failures_until_exhausted_witness :
  exists evs,
    run {| max_retries := 3; backoff_base := 5; max_backoff := 8 |}
      (repeat Failed 3 ++ [Completed]) fresh
    = (evs ++ [Start 4 1; Success 4], {| iterations := 4; retries := 0 |})
    /\ sleeps evs = [5; 8]
    /\ map snd (starts evs) = [1; 2; 3]
    /\ exhausted evs = [3].
Proof.
  destruct (failures_until_exhausted
              {| max_retries := 3; backoff_base := 5; max_backoff := 8 |}
              [Completed] 0 ltac:(cbn; lia) ltac:(cbn; lia) ltac:(cbn; lia))
    as (evs & Hrun & Hs & _ & Ha & Hx).
  exists evs. split; [exact Hrun|]. split; [exact Hs|]. split; [exact Ha | exact Hx].
Defined.

Lemma map_seqZ_shift {A} (f : Z -> A) (a : Z) (k : nat) :
  map f (seqZ (a + 1) (Z.of_nat k)) = map (fun j => f (j + 1)) (seqZ a (Z.of_nat k)).
Proof.
  revert a; induction k as [|k IH]; intros a; [reflexivity|].
  rewrite !(seqZ_cons _ (Z.of_nat (S k))) by lia. cbn [map]. f_equal.
  replace (Z.pred (Z.of_nat (S k))) with (Z.of_nat k) by lia.
  replace (Z.succ (a + 1)) with (Z.succ a + 1) by lia. apply IH.
Qed.

(** X12: A pass that ends in one of the body's [continue]s is not counted as a
    retry: any number of them in a row start as many attempts with the same
    attempt number, never sleep and never give up, and leave the retry
    counter as it was. *)
Theorem rerun_not_counted (c : RetryConfig) (k : nat) (rest : list Outcome)
    (st : Counters) :
  let st_k := {| iterations := iterations st + Z.of_nat k;
                 retries := retries st |} in
  run c (repeat Rerun k ++ rest) st
  = (map (fun j => Start (iterations st + j) (retries st + 1))
         (seqZ 1 (Z.of_nat k))
     ++ fst (run c rest st_k),
     snd (run c rest st_k)).
Proof.
  revert st; induction k as [|k IH]; intros st; cbn [repeat app].
  - change (Z.of_nat 0) with 0. rewrite Z.add_0_r.
    change (seqZ 1 0) with (@nil Z). cbn [map app].
    destruct st as [i r]. cbn [iterations retries]. now destruct (run c rest _).
  - cbn [run]. rewrite IH. cbn [iterations retries fst snd].
    rewrite (seqZ_cons 1 (Z.of_nat (S k))) by lia. cbn [map app].
    replace (iterations st + 1 + Z.of_nat k) with (iterations st + Z.of_nat (S k))
      by lia.
    replace (Z.pred (Z.of_nat (S k))) with (Z.of_nat k) by lia.
    change (Z.succ 1) with (1 + 1). rewrite map_seqZ_shift.
    do 3 f_equal. apply map_ext. intros j. f_equal. lia.
Qed.

End RelayMore.

(** ** More on the configuration *)

Module ConfigMore.
Import Config Loader ConfigFacts.

(** X13: Lookups compose along a path: when the first part of the keys leads to
    a value, looking up the whole path is looking up the rest in that
    value; when it leads nowhere, the whole lookup gives the default. *)
Theorem get_path_append (data : Yaml) (ks1 ks2 : list string) (default : Yaml) :
  (forall v, reaches data ks1 v ->
             get data (ks1 ++ ks2) default = get v ks2 default)
  /\ ((forall v, ~ reaches data ks1 v) ->
      get data (ks1 ++ ks2) default = Ok default).
Proof.
  unfold get. split.
  - intros v Hv. induction Hv as [d | entries key child rest v Hk _ IH];
      [reflexivity|].
    cbn [app get_from isinstance_dict contains getitem andb].
    rewrite Hk, bool_decide_eq_true_2 by eauto. exact IH.
  - revert data; induction ks1 as [|key rest IH]; intros data Hno.
    + exfalso. apply (Hno data). constructor.
    + cbn [app get_from]. destruct data; try reflexivity.
      cbn [isinstance_dict contains getitem andb].
      destruct (entries !! key) as [child|] eqn:Hk.
      * rewrite bool_decide_eq_true_2 by eauto. apply IH.
        intros v Hv. apply (Hno v). econstructor; eauto.
      * rewrite bool_decide_eq_false_2; [reflexivity|].
        intros [v Hv]; discriminate Hv.
Qed.

Lemma get_path_append_witness :
  let retries := YDict {[ "max_backoff_seconds"%string := YInt 30 ]} in
  let data := YDict {[ "retries"%string := retries ]} in
  get data (["retries"%string] ++ ["max_backoff_seconds"%string]) (YInt 1)
  = get retries ["max_backoff_seconds"]%string (YInt 1).
Proof.
  intros retries data.
  apply (proj1 (get_path_append data ["retries"%string]
                  ["max_backoff_seconds"%string] (YInt 1))).
  econstructor; [reflexivity | constructor].
Defined.

Lemma get_dict_cons entries key rest default :
  get (YDict entries) (key :: rest) default
  = match entries !! key with
    | Some v => get v rest default
    | None => Ok default
    end.
Proof.
  unfold get. cbn [get_from isinstance_dict contains getitem andb].
  destruct (entries !! key) as [v|] eqn:Hk.
  - now rewrite bool_decide_eq_true_2 by eauto.
  - rewrite bool_decide_eq_false_2; [reflexivity|].
    intros [v Hv]; discriminate Hv.
Qed.

(** X15: [_normalize_paths] fails, with an AttributeError that
    [ConfigLoader.__init__] lets through, exactly when the loaded document
    is no mapping (an empty file loads as [None]) or its [templates] entry
    is present and is no mapping. *)
Theorem normalize_paths_fails (resolve : string -> option string) (data : Yaml) :
  _normalize_paths resolve data = AttributeError
  <-> isinstance_dict data = false
      \/ exists t, get data ["templates"%string] YNone = Ok t
                   /\ contains data "templates" = true
                   /\ isinstance_dict t = false.
Proof.
  unfold _normalize_paths. destruct data as [| | | | | |entries];
    try (split; [intros _; now left | reflexivity]).
  rewrite get_dict_cons. cbn [isinstance_dict contains].
  destruct (entries !! "templates"%string) as [t|] eqn:Ht.
  - rewrite bool_decide_eq_true_2 by eauto.
    destruct t; cbn [get get_from];
      try (split; [intros _; right; eexists; repeat split; reflexivity
                  | reflexivity]).
    split; [discriminate|]. intros [H|(t & [= <-] & _ & H)]; discriminate H.
  - split; [discriminate|].
    intros [H|(t & _ & H & _)]; [discriminate H|].
    rewrite bool_decide_eq_false_2 in H; [discriminate H|].
    intros [v Hv]; discriminate Hv.
Qed.

Lemma normalize_paths_fails_witness :
  _normalize_paths (fun s => Some s) YNone = AttributeError
  /\ _normalize_paths (fun s => Some s)
       (YDict {[ "templates"%string := YList [] ]}) = AttributeError.
Proof.
  split.
  - apply (proj2 (normalize_paths_fails (fun s => Some s) YNone)).
    left. reflexivity.
  - apply (proj2 (normalize_paths_fails (fun s => Some s)
                    (YDict {[ "templates"%string := YList [] ]}))).
    right. exists (YList []). repeat split.
Defined.

End ConfigMore.

(** ** Normalizing the template paths in place *)

Module SharedFacts.
Import Shared.

Lemma get_walk st d keys default :
  get st d keys default
  = match walk st d keys with Some v => v | None => default end.
Proof.
  unfold get. revert d; induction keys as [|key rest IH]; intros d;
    [reflexivity|].
  cbn [get_from walk]. destruct (dict_of st d) as [entries|]; [|reflexivity].
  destruct (entries !! key) as [v|]; [apply IH | reflexivity].
Qed.

Lemma walk_app st d pre rest :
  walk st d (pre ++ rest)
  = match walk st d pre with Some v => walk st v rest | None => None end.
Proof.
  revert d; induction pre as [|key pre IH]; intros d; [reflexivity|].
  cbn [app walk]. destruct (dict_of st d) as [entries|]; [|reflexivity].
  destruct (entries !! key) as [v|]; [apply IH | reflexivity].
Qed.

Lemma normalize_value_ref resolve v r :
  normalize_value resolve v = VRef r -> v = VRef r.
Proof.
  destruct v; cbn; try congruence.
  destruct (resolve s); congruence.
Qed.

(** One pass of the loop body on the dict behind [t]. *)
Lemma normalize_item_spec resolve t key v st e :
  st !! t = Some (ODict e) -> e !! key = Some v ->
  exists e1,
    match v with
    | VStr s =>
        match resolve s with
        | Some norm_path => setitem st t key (VStr norm_path)
        | None => st
        end
    | _ => st
    end !! t = Some (ODict e1)
    /\ (forall l, l <> t ->
          match v with
          | VStr s =>
              match resolve s with
              | Some norm_path => setitem st t key (VStr norm_path)
              | None => st
              end
          | _ => st
          end !! l = st !! l)
    /\ (forall k, e1 !! k
                  = if decide (k = key) then Some (normalize_value resolve v)
                    else e !! k).
Proof.
  intros Ht Hk.
  assert (Hsame : forall k, e !! k
                            = if decide (k = key) then Some v else e !! k)
    by (intros k; destruct (decide (k = key)) as [->|]; [exact Hk | reflexivity]).
  destruct v as [| | | |s|]; cbn [normalize_value];
    try (exists e; split; [exact Ht|]; split; [reflexivity | exact Hsame]).
  destruct (resolve s) as [p|];
    [|exists e; split; [exact Ht|]; split; [reflexivity | exact Hsame]].
  unfold setitem. rewrite Ht. exists (<[key := VStr p]> e).
  split; [apply lookup_insert_eq|]. split.
  - intros l Hl. now apply lookup_insert_ne.
  - intros k. destruct (decide (k = key)) as [->|Hne].
    + apply lookup_insert_eq.
    + now apply lookup_insert_ne.
Qed.

Lemma normalize_items_spec resolve t items : forall st e,
  st !! t = Some (ODict e) ->
  NoDup (items.*1) ->
  (forall k v, (k, v) ∈ items -> e !! k = Some v) ->
  exists e',
    normalize_items resolve t items st !! t = Some (ODict e')
    /\ (forall l, l <> t -> normalize_items resolve t items st !! l = st !! l)
    /\ (forall k, e' !! k
                  = if decide (k ∈ items.*1)
                    then normalize_value resolve <$> e !! k
                    else e !! k).
Proof.
  induction items as [|[key v] rest IH]; intros st e Ht Hnd Hin.
  - exists e. split; [exact Ht|]. split; [reflexivity|].
    intros k. destruct (decide (k ∈ [])) as [H|_]; [|reflexivity].
    now apply elem_of_nil in H.
  - cbn [fmap list_fmap fst] in Hnd. apply NoDup_cons in Hnd as [Hfresh Hnd].
    destruct (normalize_item_spec resolve t key v st e Ht)
      as (e1 & Ht1 & Hother1 & He1);
      [apply Hin; left|].
    cbn [normalize_items].
    destruct (IH _ e1 Ht1 Hnd) as (e' & Ht' & Hother' & He').
    { intros k x Hkx. rewrite He1.
      destruct (decide (k = key)) as [->|_]; [|apply Hin; now right].
      exfalso. apply Hfresh. exact (list_elem_of_fmap_2 fst _ (key, x) Hkx). }
    exists e'. split; [exact Ht'|]. split.
    + intros l Hl. rewrite Hother' by exact Hl. now apply Hother1.
    + intros k. rewrite He', !He1. cbn [fmap list_fmap fst].
      destruct (decide (k = key)) as [->|Hne].
      * rewrite (Hin key v) by left. cbn.
        destruct (decide (key ∈ rest.*1)) as [H|_]; [now destruct Hfresh|].
        destruct (decide (key ∈ key :: rest.*1)) as [_|H]; [reflexivity|].
        exfalso. apply H. left.
      * destruct (decide (k ∈ rest.*1)) as [H|H];
          destruct (decide (k ∈ key :: rest.*1)) as [H'|H']; try reflexivity.
        -- exfalso. apply H'. now right.
        -- exfalso. apply elem_of_cons in H' as [H'|H']; [now apply Hne | now apply H].
Qed.

(** What a successful [_normalize_paths] did to the store: nothing when
    there is no ["templates"] entry; otherwise the dict behind that entry
    has every value normalized, and no other object changed. *)
Lemma normalize_paths_store resolve st data st' :
  _normalize_paths resolve st data = Normalized st' ->
  (walk st data ["templates"%string] = None /\ st' = st)
  \/ exists t e e',
       walk st data ["templates"%string] = Some (VRef t)
       /\ st !! t = Some (ODict e) /\ st' !! t = Some (ODict e')
       /\ (forall l, l <> t -> st' !! l = st !! l)
       /\ (forall k, e' !! k = normalize_value resolve <$> e !! k).
Proof.
  unfold _normalize_paths. cbn [walk].
  destruct (dict_of st data) as [entries|]; [|discriminate].
  destruct (entries !! "templates"%string) as [[| | | | |t]|]; try discriminate.
  - destruct (st !! t) as [[items|e]|] eqn:Ht; try discriminate.
    intros [= <-]. right.
    destruct (normalize_items_spec resolve t (map_to_list e) st e Ht)
      as (e' & Ht' & Hother & He').
    + apply NoDup_fst_map_to_list.
    + intros k v Hkv. now apply elem_of_map_to_list in Hkv.
    + exists t, e, e'. split; [reflexivity|]. split; [exact Ht|].
      split; [exact Ht'|]. split; [exact Hother|].
      intros k. rewrite He'.
      destruct (decide (k ∈ (map_to_list e).*1)) as [_|Hno]; [reflexivity|].
      destruct (e !! k) as [v|] eqn:Hk; [|reflexivity].
      exfalso. apply Hno.
      apply (list_elem_of_fmap_2 fst _ (k, v)). now apply elem_of_map_to_list.
  - intros [= <-]. now left.
Qed.

Section Updated.
Variable resolve : string -> option string.
Variables st st' : Store.
Variable t : Ref.
Variables e e' : gmap string Value.
Hypothesis Ht : st !! t = Some (ODict e).
Hypothesis Ht' : st' !! t = Some (ODict e').
Hypothesis Hother : forall l, l <> t -> st' !! l = st !! l.
Hypothesis He' : forall k, e' !! k = normalize_value resolve <$> e !! k.

Lemma dict_of_updated d :
  dict_of st' d
  = match d with
    | VRef l => if decide (l = t) then Some e' else dict_of st d
    | _ => None
    end.
Proof.
  destruct d as [| | | | |l]; try reflexivity. cbn [dict_of].
  destruct (decide (l = t)) as [->|Hne]; [now rewrite Ht'|].
  now rewrite Hother.
Qed.

Lemma dict_of_templates : dict_of st (VRef t) = Some e.
Proof. cbn [dict_of]. now rewrite Ht. Qed.

(** A value from which a path of one key or more leads somewhere is a
    reference, which normalizing leaves alone. *)
Lemma walk_from_ref d key rest v :
  walk st d (key :: rest) = Some v -> normalize_value resolve d = d.
Proof.
  cbn [walk]. destruct d; cbn [dict_of]; try discriminate. reflexivity.
Qed.

Lemma walk_into_templates pre : forall d key v,
  walk st d pre = Some (VRef t) ->
  walk st d (pre ++ [key]) = Some v ->
  walk st' d (pre ++ [key]) = Some (normalize_value resolve v).
Proof.
  induction pre as [|k pre IH]; intros d key v Hpre Hv.
  - cbn [walk] in Hpre. injection Hpre as ->.
    cbn [app walk] in *. rewrite dict_of_updated, decide_True by reflexivity.
    rewrite dict_of_templates in Hv. rewrite He'.
    destruct (e !! key) as [x|]; [|discriminate]. now injection Hv as ->.
  - cbn [app walk] in *. rewrite dict_of_updated.
    destruct d as [| | | | |l]; try discriminate.
    destruct (dict_of st (VRef l)) as [entries|] eqn:Hd; [|discriminate].
    destruct (entries !! k) as [x|] eqn:Hk; [|discriminate].
    destruct (decide (l = t)) as [->|_].
    + rewrite dict_of_templates in Hd. injection Hd as <-.
      rewrite He', Hk. cbn [fmap option_fmap option_map].
      replace (normalize_value resolve x) with x; [now apply IH|].
      destruct pre as [|k' pre'].
      * cbn [walk] in Hpre. now injection Hpre as ->.
      * symmetry. eapply walk_from_ref. exact Hpre.
    + rewrite Hk. now apply IH.
Qed.

Lemma walk_elsewhere keys : forall d v,
  walk st d keys = Some v ->
  (forall pre key, keys = pre ++ [key] -> walk st d pre <> Some (VRef t)) ->
  walk st' d keys = Some v.
Proof.
  induction keys as [|k rest IH]; intros d v Hv Hnot; [exact Hv|].
  cbn [walk] in *. rewrite dict_of_updated.
  destruct d as [| | | | |l]; try discriminate.
  destruct (dict_of st (VRef l)) as [entries|] eqn:Hd; [|discriminate].
  destruct (entries !! k) as [x|] eqn:Hk; [|discriminate].
  assert (Hrest : forall pre key, rest = pre ++ [key] ->
                                  walk st x pre <> Some (VRef t)).
  { intros pre key -> Hw. apply (Hnot (k :: pre) key eq_refl).
    cbn [walk]. now rewrite Hd, Hk. }
  destruct (decide (l = t)) as [->|_].
  - rewrite dict_of_templates in Hd. injection Hd as <-.
    rewrite He', Hk. cbn [fmap option_fmap option_map].
    destruct rest as [|k' rest'].
    + exfalso. now apply (Hnot [] k eq_refl).
    + rewrite (walk_from_ref _ _ _ _ Hv). now apply IH.
  - rewrite Hk. now apply IH.
Qed.

Lemma walk_nowhere keys : forall d,
  walk st d keys = None -> walk st' d keys = None.
Proof.
  induction keys as [|k rest IH]; intros d Hv; [discriminate|].
  cbn [walk] in *. rewrite dict_of_updated.
  destruct d as [| | | | |l]; try reflexivity.
  destruct (decide (l = t)) as [->|_].
  - rewrite dict_of_templates in Hv. rewrite He'.
    destruct (e !! k) as [x|]; [|reflexivity]. cbn [fmap option_fmap option_map].
    destruct x as [| | | |s|r]; cbn [normalize_value]; try now apply IH.
    destruct (resolve s); [|now apply IH].
    destruct rest; [discriminate | reflexivity].
  - destruct (dict_of st (VRef l)) as [entries|]; [|reflexivity].
    destruct (entries !! k) as [x|]; [now apply IH | reflexivity].
Qed.

End Updated.

(** X14: [_normalize_paths] changes one object, the dict under ["templates"],
    in place.  After it, an entry read from that dict, whether the path
    goes through ["templates"] or through an alias of it elsewhere in the
    document, gives the resolved path when it was a string that resolves
    and the old value otherwise; every other lookup gives what it gave
    before, and a path that led nowhere still gives the default. *)
Theorem normalize_paths_in_place (resolve : string -> option string)
    (st st' : Store) (data default : Value) :
  _normalize_paths resolve st data = Normalized st' ->
  (forall pre key v,
     walk st data pre = walk st data ["templates"%string] ->
     walk st data (pre ++ [key]) = Some v ->
     get st' data (pre ++ [key]) default = normalize_value resolve v)
  /\ (forall keys,
        (forall pre key, keys = pre ++ [key] ->
                         walk st data pre <> walk st data ["templates"%string]) ->
        get st' data keys default = get st data keys default)
  /\ (forall keys,
        walk st data keys = None -> get st' data keys default = default).
Proof.
  intros Hnorm.
  destruct (normalize_paths_store _ _ _ _ Hnorm)
    as [[Hnone ->] | (t & e & e' & Htpl & Ht & Ht' & Hother & He')].
  - split; [|split].
    + intros pre key v Hpre Hv. rewrite walk_app, Hpre, Hnone in Hv.
      discriminate Hv.
    + reflexivity.
    + intros keys Hk. now rewrite get_walk, Hk.
  - split; [|split].
    + intros pre key v Hpre Hv. rewrite Htpl in Hpre.
      rewrite get_walk.
      now rewrite (walk_into_templates resolve st st' t e e' Ht Ht' Hother He'
                     pre data key v Hpre Hv).
    + intros keys Hnot. rewrite !get_walk.
      destruct (walk st data keys) as [v|] eqn:Hv.
      * rewrite (walk_elsewhere resolve st st' t e e' Ht Ht' Hother He'
                   keys data v Hv); [reflexivity|].
        intros pre key Hk. rewrite <- Htpl. exact (Hnot pre key Hk).
      * now rewrite (walk_nowhere resolve st st' t e e' Ht Ht' Hother He'
                       keys data Hv).
    + intros keys Hk. rewrite get_walk.
      now rewrite (walk_nowhere resolve st st' t e e' Ht Ht' Hother He'
                     keys data Hk).
Qed.

Import SharedScenario.

Lemma normalize_paths_in_place_witness :
  let resolve := fun s => Some (String.append "/home/user/relay/" s) in
  exists st',
    _normalize_paths resolve aliased_config aliased_root = Normalized st'
    /\ get st' aliased_root ["backup"; "vscode_copy_button"]%string VNone
       = VStr "/home/user/relay/assets/copy.png"
    /\ get st' aliased_root ["confidence"]%string VNone = VFloat "0.7".
Proof.
  intros resolve. eexists. split; [reflexivity|].
  match goal with
  | |- get ?st' _ _ _ = _ /\ _ =>
      destruct (normalize_paths_in_place resolve aliased_config st' aliased_root
                  VNone eq_refl) as (Hin & Hout & _)
  end.
  split.
  - apply (Hin ["backup"%string] "vscode_copy_button"%string
               (VStr "assets/copy.png")); reflexivity.
  - rewrite Hout; [reflexivity|].
    intros [|p [|p' pre]] key Hk H; try discriminate Hk.
    vm_compute in H. discriminate H.
Defined.

End SharedFacts.

(** ** More on the locators *)

Module LocatorMore.
Import Color Img Ocr World Recognizer Spec History ChainSpec RecognizerFacts.
Local Open Scope world_scope.

Lemma clicks_app tr1 tr2 : clicks (tr1 ++ tr2) = clicks tr1 ++ clicks tr2.
Proof. unfold clicks. apply flat_map_app. Qed.

Lemma stage_calls_app tr1 tr2 :
  stage_calls (tr1 ++ tr2) = stage_calls tr1 ++ stage_calls tr2.
Proof. unfold stage_calls. apply flat_map_app. Qed.

Lemma screen_ops_app tr1 tr2 :
  screen_ops (tr1 ++ tr2) = screen_ops tr1 ++ screen_ops tr2.
Proof. unfold screen_ops. apply flat_map_app. Qed.

Lemma quiet_stage_calls evs : Forall quiet evs -> stage_calls evs = [].
Proof.
  induction 1 as [|[t e] evs He _ IH]; [reflexivity|].
  unfold stage_calls in *. cbn [flat_map]. rewrite IH.
  destruct e; try reflexivity. destruct He.
Qed.

Lemma added_trans P Q w1 w2 w3 :
  extends P w1 w2 -> extends Q w2 w3 ->
  added w1 w3 = added w1 w2 ++ added w2 w3.
Proof.
  intros [_ (e1 & T1 & _)] [_ (e2 & T2 & _)].
  rewrite (added_app w1 w2 e1 T1), (added_app w2 w3 e2 T2).
  apply added_app. now rewrite T2, T1, app_assoc.
Qed.

Lemma extends_added P w w' : extends P w w' -> Forall P (added w w').
Proof. intros [_ (evs & T & F)]. now rewrite (added_app w w' evs T). Qed.

(** A world reached by explicit events, none of them a click. *)
Ltac step_added :=
  erewrite added_app
    by (cbn [trace]; rewrite <- ?app_assoc; cbn [app]; reflexivity).

Lemma poll_ok_after s r b w w1 w' :
  extends quiet w w1 -> clicks (added w w1) = [] ->
  poll_ok s r b w1 w' -> poll_ok s r b w w'.
Proof.
  intros Hpre Hnc (Hext & Hc & Hlate). split; [|split].
  - eapply extends_trans; eauto.
  - rewrite (added_trans _ _ _ _ _ Hpre Hext), clicks_app, Hnc. exact Hc.
  - exact Hlate.
Qed.

Ltac poll_continue IH H :=
  apply IH in H; eapply poll_ok_after; [| |exact H];
  [step_extends | step_added; reflexivity].

Section WithEnv.
Variable env : Env.
Variable cfg : Settings.

Lemma template_poll_ok fuel path s r w b w' :
  template_poll env cfg fuel path s r w = Some (b, w') -> poll_ok s r b w w'.
Proof.
  revert w; induction fuel as [|fuel IH]; intros w H; [discriminate|].
  cbn [template_poll] in H. run_prims.
  destruct (Z.ltb_spec (now w - s) r); run_prims.
  - case_in H (locate env path (now w)); run_prims.
    + injection H as <- <-. split; [step_extends|].
      split; [step_added; reflexivity | discriminate].
    + poll_continue IH H.
    + poll_continue IH H.
  - injection H as <- <-. split; [step_extends|].
    split; [step_added; reflexivity | intros _; cbn [now]; lia].
Qed.

Lemma text_poll_ok fuel text s r w b w' :
  text_poll env cfg fuel text s r w = Some (b, w') -> poll_ok s r b w w'.
Proof.
  revert w; induction fuel as [|fuel IH]; intros w H; [discriminate|].
  cbn [text_poll] in H. run_prims.
  destruct (Z.ltb_spec (now w - s) r); run_prims.
  - case_in H (image_to_data env (screen env (now w))); run_prims.
    + match type of H with context [scan text ?d] => case_in H (scan text d) end;
        run_prims.
      * injection H as <- <-. split; [step_extends|].
        split; [step_added; reflexivity | discriminate].
      * poll_continue IH H.
      * poll_continue IH H.
    + poll_continue IH H.
  - injection H as <- <-. split; [step_extends|].
    split; [step_added; reflexivity | intros _; cbn [now]; lia].
Qed.

Lemma scan_rules_first shot key idx rules w :
  exists w',
    scan_rules env cfg shot key idx rules w
    = Some (match first_point shot rules with Some _ => true | None => false end,
            w')
    /\ extends quiet w w'
    /\ clicks (added w w')
       = match first_point shot rules with Some p => [p] | None => [] end
    /\ (first_point shot rules = None -> now w' = now w).
Proof.
  revert idx w; induction rules as [|rule rest IH]; intros idx w.
  - exists w. split; [reflexivity|]. split; [apply extends_refl|].
    split; [|reflexivity]. erewrite added_app by (symmetry; apply app_nil_r).
    reflexivity.
  - assert (Hskip : forall w1,
               extends quiet w w1 -> clicks (added w w1) = [] -> now w1 = now w ->
               exists w',
                 scan_rules env cfg shot key (S idx) rest w1
                 = Some (match first_point shot rest with
                         | Some _ => true | None => false end, w')
                 /\ extends quiet w w'
                 /\ clicks (added w w')
                    = match first_point shot rest with
                      | Some p => [p] | None => [] end
                 /\ (first_point shot rest = None -> now w' = now w)).
    { intros w1 Hext Hnc Hnow.
      destruct (IH (S idx) w1) as (w' & Hrun & Hext' & Hclk & Hn).
      exists w'. split; [exact Hrun|]. split; [eapply extends_trans; eauto|].
      split; [|intros Hnone; rewrite (Hn Hnone); exact Hnow].
      rewrite (added_trans _ _ _ _ _ Hext Hext'), clicks_app, Hnc. exact Hclk. }
    destruct rule as [x y col tol | [[[l t] wd] h] col tol | col tol];
      cbn [scan_rules first_point rule_point].
    + destruct (getpixel shot x y) as [pc|]; run_prims.
      * destruct (_color_match pc col (rule_tolerance tol)); run_prims.
        -- eexists. split; [reflexivity|]. split; [step_extends|].
           split; [step_added; reflexivity | discriminate].
        -- apply Hskip; [apply extends_refl | | reflexivity].
           erewrite added_app by (symmetry; apply app_nil_r). reflexivity.
      * apply Hskip; [step_extends | step_added; reflexivity | reflexivity].
    + destruct (region_average shot (l, t, wd, h)) as [avg|]; run_prims.
      * destruct (_color_match avg col (rule_tolerance tol)); run_prims.
        -- eexists. split; [reflexivity|]. split; [step_extends|].
           split; [step_added; reflexivity | discriminate].
        -- apply Hskip; [apply extends_refl | | reflexivity].
           erewrite added_app by (symmetry; apply app_nil_r). reflexivity.
      * apply Hskip; [step_extends | step_added; reflexivity | reflexivity].
    + run_prims.
      apply Hskip; [step_extends | step_added; reflexivity | reflexivity].
Qed.

Lemma first_point_app shot pre rule post p :
  Forall (fun r => rule_point shot r = None) pre ->
  rule_point shot rule = Some p ->
  first_point shot (pre ++ rule :: post) = Some p.
Proof.
  intros Hpre Hrule. induction Hpre as [|r pre Hr _ IH]; cbn [app first_point].
  - now rewrite Hrule.
  - now rewrite Hr.
Qed.

Lemma first_point_none shot rules :
  Forall (fun r => rule_point shot r = None) rules ->
  first_point shot rules = None.
Proof.
  induction 1 as [|r rules Hr _ IH]; cbn [first_point]; [reflexivity|].
  now rewrite Hr.
Qed.

(** X16: The rules of a key are tried in their order on one screenshot: the
    first rule that matches is clicked, at its pixel or at the centre of
    its region, and no other; rules that cannot be read or have neither
    form are passed over.  When no rule matches nothing is clicked and no
    time passes. *)
Theorem pixel_rules_first_match (shot : Image) (key : string) (idx : nat)
    (rules : list ColorRule) (w : World) :
  exists b w',
    scan_rules env cfg shot key idx rules w = Some (b, w')
    /\ (forall pre rule post p,
          rules = pre ++ rule :: post ->
          Forall (fun r => rule_point shot r = None) pre ->
          rule_point shot rule = Some p ->
          b = true /\ clicks (added w w') = [p])
    /\ (Forall (fun r => rule_point shot r = None) rules ->
        b = false /\ clicks (added w w') = [] /\ now w' = now w).
Proof.
  destruct (scan_rules_first shot key idx rules w) as (w' & Hrun & _ & Hclk & Hn).
  eexists _, w'. split; [exact Hrun|]. split.
  - intros pre rule post p -> Hpre Hrule.
    rewrite (first_point_app _ _ _ _ _ Hpre Hrule) in *. now split.
  - intros Hnone. rewrite (first_point_none _ _ Hnone) in *.
    split; [reflexivity|]. split; [exact Hclk | now apply Hn].
Qed.

Lemma pixel_poll_ok fuel key rules s r w b w' :
  pixel_poll env cfg fuel key rules s r w = Some (b, w') -> poll_ok s r b w w'.
Proof.
  revert w; induction fuel as [|fuel IH]; intros w H; [discriminate|].
  cbn [pixel_poll] in H. run_prims.
  destruct (Z.ltb_spec (now w - s) r); run_prims.
  - unfold bind at 1 in H.
    match type of H with
    | context [scan_rules env cfg ?shot key 0%nat rules ?w1] =>
        destruct (scan_rules_first shot key 0%nat rules w1)
          as (w2 & Hscan & Hext & Hclk & _);
        assert (Hpre : extends quiet w w1) by step_extends;
        assert (Hnc : clicks (added w w1) = []) by (step_added; reflexivity)
    end.
    rewrite Hscan in H.
    destruct (first_point (screen env (now w)) rules) as [p|]; run_prims.
    + injection H as <- <-. split; [eapply extends_trans; eauto|].
      split; [|discriminate].
      rewrite (added_trans _ _ _ _ _ Hpre Hext), clicks_app, Hnc, Hclk.
      reflexivity.
    + apply IH in H. eapply poll_ok_after; [| |exact H].
      * eapply extends_trans; [exact Hpre|].
        eapply extends_trans; [exact Hext|]. step_extends.
      * match type of H with
        | poll_ok _ _ _ ?w3 _ =>
            assert (Hsl : extends quiet w2 w3) by step_extends;
            rewrite (added_trans _ _ w w2 w3
                       (extends_trans _ _ _ _ Hpre Hext) Hsl);
            rewrite (added_trans _ _ _ _ _ Hpre Hext), !clicks_app, Hnc, Hclk
        end.
        step_added. reflexivity.
  - injection H as <- <-. split; [step_extends|].
    split; [step_added; reflexivity | intros _; cbn [now]; lia].
Qed.

End WithEnv.

Lemma stage_of_poll st r b w w1 w' pre :
  poll_ok (now w) r b w1 w' ->
  trace w1 = trace w ++ (now w, EvCall st r) :: pre ->
  Forall quiet pre -> clicks pre = [] -> now w1 = now w ->
  stage_run st r w w'
  /\ length (clicks (added w w')) = Nat.b2n b
  /\ (b = false -> now w + r <= now w').
Proof.
  intros ([Hn' (evs & Ht' & Hq')] & Hc & Hlate) Ht Hq Hnc Hn.
  rewrite (added_app w1 w' evs Ht') in Hc.
  assert (Hfull : trace w' = trace w ++ (now w, EvCall st r) :: pre ++ evs)
    by (rewrite Ht', Ht, <- !app_assoc; reflexivity).
  split; [|split].
  - split; [lia|]. exists (pre ++ evs). split; [exact Hfull|].
    now apply Forall_app.
  - rewrite (added_app w w' _ Hfull).
    change ((now w, EvCall st r) :: pre ++ evs)
      with ([(now w, EvCall st r)] ++ pre ++ evs).
    rewrite !clicks_app, Hnc. exact Hc.
  - intros Hb. specialize (Hlate Hb). lia.
Qed.

Ltac step_any :=
  split; [cbn [now]; lia
         | eexists; split;
           [cbn [trace]; rewrite <- ?app_assoc; reflexivity
           | repeat (constructor; [exact I|]); constructor]].

Lemma extends_any P w w' : extends P w w' -> extends (fun _ => True) w w'.
Proof. apply extends_weaken. intros; exact I. Qed.

Lemma after_stage st r (C : Prop) found w w1 w2 :
  extends quiet w w1 -> clicks (added w w1) = [] ->
  stage_ok st r C found w1 w2 ->
  extends (fun _ => True) w w2
  /\ stage_calls (added w w2) = [st]
  /\ length (clicks (added w w2)) = Nat.b2n found.
Proof.
  intros Hpre Hnc ((Hn & evs & Ht & Hq) & Hclk & _).
  assert (Hext : extends (fun _ => True) w1 w2).
  { split; [exact Hn|]. eexists. split; [exact Ht|].
    apply List.Forall_forall. intros; exact I. }
  split; [|split].
  - eapply extends_trans; [apply (extends_any _ _ _ Hpre) | exact Hext].
  - rewrite (added_trans _ _ _ _ _ Hpre Hext), stage_calls_app.
    rewrite (quiet_stage_calls _ (extends_added _ _ _ Hpre)).
    rewrite (added_app w1 w2 _ Ht).
    change ((now w1, EvCall st r) :: evs) with ([(now w1, EvCall st r)] ++ evs).
    now rewrite stage_calls_app, (quiet_stage_calls _ Hq).
  - rewrite (added_trans _ _ _ _ _ Hpre Hext), clicks_app, Hnc. exact Hclk.
Qed.

Lemma chain_ok_after orders orders' D (C : Prop) b w w2 w3 calls :
  extends (fun _ => True) w w2 ->
  stage_calls (added w w2) = calls ->
  length (clicks (added w w2)) = 0%nat ->
  chain_ok orders D C b w2 w3 ->
  (forall o, In o orders -> In (calls ++ o) orders') ->
  chain_ok orders' D C b w w3.
Proof.
  intros Hpre Hcalls Hnc (Hext & Hin & Hclk & Hlate) Hsub.
  split; [eapply extends_trans; eauto|]. split; [|split].
  - rewrite (added_trans _ _ _ _ _ Hpre Hext), stage_calls_app, Hcalls.
    now apply Hsub.
  - rewrite (added_trans _ _ _ _ _ Hpre Hext), clicks_app, length_app, Hnc.
    exact Hclk.
  - exact Hlate.
Qed.

Lemma added_snoc P w w2 n tail :
  extends P w w2 ->
  added w {| now := n; trace := trace w2 ++ tail |} = added w w2 ++ tail.
Proof.
  intros [_ (evs & Ht & _)]. rewrite (added_app w w2 evs Ht).
  apply added_app. cbn [trace]. now rewrite Ht, app_assoc.
Qed.

Section WithEnv2.
Variable env : Env.
Variable cfg : Settings.

Lemma find_and_click_inv fuel key r msg w b w' :
  find_and_click env cfg fuel key r msg w = Some (b, w') ->
  stage_ok Template r (template_configured cfg key) b w w'.
Proof.
  unfold find_and_click, stage_ok, template_configured. run_prims.
  destruct (templates cfg !! key) as [[|c p]|] eqn:Htpl; run_prims.
  - intros [= <- <-]. split; [|split].
    + split; [cbn; lia|]. eexists. split; [cbn [trace]; now rewrite <- app_assoc|].
      repeat constructor.
    + step_added. reflexivity.
    + intros _ (c & p & H). discriminate H.
  - destruct msg as [[|c' m]|]; run_prims; intros H;
      apply template_poll_ok in H; cbn [now] in H.
    + destruct (stage_of_poll Template r b w _ w' [] H eq_refl
                  ltac:(constructor) eq_refl eq_refl) as (H1 & H2 & H3).
      split; [exact H1 | split; [exact H2 | intros Hb _; exact (H3 Hb)]].
    + destruct (stage_of_poll Template r b w _ w'
                  [(now w, EvLog (LogMessage (String c' m)))] H
                  ltac:(cbn [trace]; now rewrite <- app_assoc)
                  ltac:(repeat constructor) eq_refl eq_refl) as (H1 & H2 & H3).
      split; [exact H1 | split; [exact H2 | intros Hb _; exact (H3 Hb)]].
    + destruct (stage_of_poll Template r b w _ w' [] H eq_refl
                  ltac:(constructor) eq_refl eq_refl) as (H1 & H2 & H3).
      split; [exact H1 | split; [exact H2 | intros Hb _; exact (H3 Hb)]].
  - intros [= <- <-]. split; [|split].
    + split; [cbn; lia|]. eexists. split; [cbn [trace]; now rewrite <- app_assoc|].
      repeat constructor.
    + step_added. reflexivity.
    + intros _ (c & p & H). discriminate H.
Qed.

Lemma find_pixel_and_click_inv fuel key r msg w b w' :
  find_pixel_and_click env cfg fuel key r msg w = Some (b, w') ->
  stage_ok Pixel r (pixel_configured cfg key) b w w'.
Proof.
  unfold find_pixel_and_click, stage_ok, pixel_configured. run_prims.
  destruct (pixels cfg !! key) as [[|rule rules]|] eqn:Hpx; run_prims.
  - intros [= <- <-]. split; [|split].
    + split; [cbn; lia|]. eexists. split; [cbn [trace]; now rewrite <- app_assoc|].
      repeat constructor.
    + step_added. reflexivity.
    + intros _ (r0 & rs & H). discriminate H.
  - destruct msg as [[|c' m]|]; run_prims; intros H;
      apply pixel_poll_ok in H; cbn [now] in H.
    + destruct (stage_of_poll Pixel r b w _ w' [] H eq_refl
                  ltac:(constructor) eq_refl eq_refl) as (H1 & H2 & H3).
      split; [exact H1 | split; [exact H2 | intros Hb _; exact (H3 Hb)]].
    + destruct (stage_of_poll Pixel r b w _ w'
                  [(now w, EvLog (LogMessage (String c' m)))] H
                  ltac:(cbn [trace]; now rewrite <- app_assoc)
                  ltac:(repeat constructor) eq_refl eq_refl) as (H1 & H2 & H3).
      split; [exact H1 | split; [exact H2 | intros Hb _; exact (H3 Hb)]].
    + destruct (stage_of_poll Pixel r b w _ w' [] H eq_refl
                  ltac:(constructor) eq_refl eq_refl) as (H1 & H2 & H3).
      split; [exact H1 | split; [exact H2 | intros Hb _; exact (H3 Hb)]].
  - intros [= <- <-]. split; [|split].
    + split; [cbn; lia|]. eexists. split; [cbn [trace]; now rewrite <- app_assoc|].
      repeat constructor.
    + step_added. reflexivity.
    + intros _ (r0 & rs & H). discriminate H.
Qed.

Lemma find_text_and_click_inv fuel text r w b w' :
  find_text_and_click env cfg fuel text r w = Some (b, w') ->
  stage_ok OcrText r (ocr_enabled cfg = true) b w w'.
Proof.
  unfold find_text_and_click, stage_ok. run_prims.
  destruct (ocr_enabled cfg); cbn [negb]; run_prims.
  - intros H. apply text_poll_ok in H. cbn [now] in H.
    destruct (stage_of_poll OcrText r b w _ w'
                [(now w, EvLog (LogLookingForText text))] H
                ltac:(cbn [trace]; now rewrite <- app_assoc)
                ltac:(repeat constructor) eq_refl eq_refl) as (H1 & H2 & H3).
    split; [exact H1 | split; [exact H2 | intros Hb _; exact (H3 Hb)]].
  - intros [= <- <-]. split; [|split].
    + split; [cbn; lia|]. exists []. split; [reflexivity | constructor].
    + step_added. reflexivity.
    + intros _ H. discriminate H.
Qed.

Lemma pixel_fallback_inv fuel key T s w b w' :
  pixel_fallback env cfg fuel key T s w = Some (b, w') ->
  chain_ok [[]; [Pixel]] (s + T) (pixel_configured cfg key) b w w'.
Proof.
  unfold pixel_fallback. run_prims.
  destruct (Z.leb_spec (T - (now w - s)) 0) as [Hle|Hgt]; run_prims.
  - intros [= <- <-]. split; [step_any|]. split; [|split].
    + step_added. now left.
    + step_added. reflexivity.
    + intros _ _. cbn [now]. lia.
  - unfold bind at 1. intros H.
    match type of H with
    | context [find_pixel_and_click env cfg fuel key ?r None ?w1] =>
        destruct (find_pixel_and_click env cfg fuel key r None w1)
          as [[found w2]|] eqn:Hst; [|discriminate H];
        apply find_pixel_and_click_inv in Hst;
        destruct (after_stage _ _ _ _ w w1 w2 ltac:(step_extends)
                    ltac:(step_added; reflexivity) Hst) as (Hext & Hcalls & Hclk);
        destruct Hst as (_ & _ & Hlate)
    end.
    cbn [now] in Hlate. destruct found; run_prims; injection H as <- <-.
    + split; [exact Hext|]. split; [rewrite Hcalls; right; now left|].
      split; [exact Hclk | discriminate].
    + eapply (chain_ok_after [[]] _ _ _ _ w w2 _ [Pixel] Hext Hcalls Hclk).
      * split; [step_any|]. split; [step_added; now left|].
        split; [step_added; reflexivity|].
        intros _ Hc. cbn [now]. specialize (Hlate eq_refl Hc). lia.
      * intros o [<-|[]]. right. now left.
Qed.

Lemma ocr_fallback_inv fuel key text T s w b w' :
  ocr_fallback env cfg fuel key text T s w = Some (b, w') ->
  chain_ok (tail_orders (ocr_used cfg text)) (s + T) (pixel_configured cfg key)
           b w w'.
Proof.
  unfold ocr_fallback, ocr_used.
  destruct (if ocr_enabled cfg then text_given text else None) as [txt|];
    run_prims; cbn [tail_orders].
  - destruct (Z.leb_spec (T - (now w - s)) 0) as [Hle|Hgt]; run_prims.
    + intros [= <- <-]. split; [step_any|]. split; [|split].
      * step_added. now left.
      * step_added. reflexivity.
      * intros _ _. cbn [now]. lia.
    + unfold bind at 1. intros H.
      match type of H with
      | context [find_text_and_click env cfg fuel txt ?r ?w1] =>
          destruct (find_text_and_click env cfg fuel txt r w1)
            as [[found w2]|] eqn:Hst; [|discriminate H];
          apply find_text_and_click_inv in Hst;
          destruct (after_stage _ _ _ _ w w1 w2 ltac:(step_extends)
                      ltac:(step_added; reflexivity) Hst)
            as (Hext & Hcalls & Hclk)
      end.
      destruct found; run_prims.
      * injection H as <- <-. split; [exact Hext|].
        split; [rewrite Hcalls; right; now left|].
        split; [exact Hclk | discriminate].
      * apply pixel_fallback_inv in H.
        eapply (chain_ok_after _ _ _ _ _ w w2 _ [OcrText] Hext Hcalls Hclk H).
        intros o [<-|[<-|[]]]; cbn; auto.
  - intros H. apply pixel_fallback_inv in H.
    match type of H with
    | chain_ok _ _ _ _ ?w1 _ =>
        eapply (chain_ok_after _ _ _ _ _ w w1 _ [] ltac:(step_any)
                  ltac:(step_added; reflexivity)
                  ltac:(step_added; reflexivity) H)
    end.
    intros o Ho. exact Ho.
Qed.

Lemma find_with_fallback_and_click_inv fuel key text T message w b w' :
  find_with_fallback_and_click env cfg fuel key text T message w = Some (b, w') ->
  chain_ok (chain_orders (ocr_used cfg text)) (now w + T)
           (pixel_configured cfg key) b w w'.
Proof.
  unfold find_with_fallback_and_click. run_prims.
  assert (Hmsg : exists w0,
             log_message message w = Some (tt, w0)
             /\ now w0 = now w /\ extends quiet w w0
             /\ clicks (added w w0) = []).
  { destruct message as [[|c m]|]; cbn [log_message].
    - exists w. split; [reflexivity|]. split; [reflexivity|].
      split; [apply extends_refl|].
      erewrite added_app by (symmetry; apply app_nil_r). reflexivity.
    - eexists. split; [reflexivity|]. split; [reflexivity|].
      split; [step_extends | step_added; reflexivity].
    - exists w. split; [reflexivity|]. split; [reflexivity|].
      split; [apply extends_refl|].
      erewrite added_app by (symmetry; apply app_nil_r). reflexivity. }
  destruct Hmsg as (w0 & Hmsg & Hn0 & Hext0 & Hnc0).
  unfold bind at 1. rewrite Hmsg. run_prims. rewrite Hn0.
  assert (Hcalls0 : stage_calls (added w w0) = [])
    by (apply quiet_stage_calls, (extends_added _ _ _ Hext0)).
  destruct (Z.leb_spec (T - (now w - now w)) 0) as [Hle|Hgt]; run_prims.
  - intros [= <- <-].
    eapply (chain_ok_after [[]] _ _ _ _ w w0 _ [] (extends_any _ _ _ Hext0)
              Hcalls0 ltac:(now rewrite Hnc0)).
    + split; [step_any|]. split; [step_added; now left|].
      split; [step_added; reflexivity|]. intros _ _. cbn [now]. lia.
    + intros o [<-|[]]. destruct (ocr_used cfg text); now left.
  - unfold bind at 1. intros H.
    match type of H with
    | context [find_and_click env cfg fuel key ?r None ?w1] =>
        destruct (find_and_click env cfg fuel key r None w1)
          as [[found w2]|] eqn:Hst; [|discriminate H];
        apply find_and_click_inv in Hst;
        assert (Hstep : extends quiet w0 w1) by step_extends;
        assert (Hpre : extends quiet w w1)
          by (eapply extends_trans; [exact Hext0 | exact Hstep]);
        assert (Hnc : clicks (added w w1) = [])
          by (rewrite (added_trans _ _ w w0 w1 Hext0 Hstep),
                clicks_app, Hnc0; step_added; reflexivity);
        destruct (after_stage _ _ _ _ w w1 w2 Hpre Hnc Hst)
          as (Hext & Hcalls & Hclk)
    end.
    destruct found; run_prims.
    + injection H as <- <-. split; [exact Hext|].
      split; [rewrite Hcalls; destruct (ocr_used cfg text); right; now left|].
      split; [exact Hclk | discriminate].
    + apply ocr_fallback_inv in H.
      eapply (chain_ok_after _ _ _ _ _ w w2 _ [Template] Hext Hcalls Hclk H).
      destruct (ocr_used cfg text); cbn;
        intros o Ho; repeat (destruct Ho as [<-|Ho]; [cbn; auto 6|]);
        destruct Ho.
Qed.

(** X17: [find_and_click]: with enough fuel it returns; it clicks once when it
    returns [true] and never when it returns [false]; with a template path
    for the key, [false] comes only after the whole timeout; without one,
    or with a timeout that is not positive, it returns [false] at once,
    without touching the screen. *)
Theorem find_and_click_result (fuel : nat) (key : string) (r : Z)
    (message : option string) (w : World) :
  (poll_fuel r <= fuel)%nat ->
  exists b w',
    find_and_click env cfg fuel key r message w = Some (b, w')
    /\ length (clicks (added w w')) = Nat.b2n b
    /\ (b = false -> template_configured cfg key -> now w + r <= now w')
    /\ ((~ template_configured cfg key \/ r <= 0) ->
        b = false /\ now w' = now w /\ screen_ops (added w w') = []).
Proof.
  intros Hf. destruct (poll_fuel_enough r fuel r Hf ltac:(lia)) as [Hr Hpos].
  destruct (find_and_click_run env cfg fuel key r message w Hr Hpos)
    as (b & w' & Hrun & _).
  exists b, w'. split; [exact Hrun|].
  destruct (find_and_click_inv _ _ _ _ _ _ _ Hrun) as (_ & Hclk & Hlate).
  split; [exact Hclk|]. split; [exact Hlate|].
  intros Hidle. revert Hrun. unfold find_and_click. run_prims.
  destruct (templates cfg !! key) as [[|c p]|] eqn:Htpl; run_prims.
  - intros [= <- <-]. repeat split. step_added. reflexivity.
  - destruct Hidle as [Hno|Hr0]; [exfalso; apply Hno; now exists c, p|].
    destruct fuel as [|fuel]; [lia|].
    destruct message as [[|c' m]|]; run_prims; cbn [template_poll]; run_prims;
      (destruct (Z.ltb_spec (now w - now w) r); [lia|]); run_prims;
      intros [= <- <-]; repeat split; step_added; reflexivity.
  - intros [= <- <-]. repeat split. step_added. reflexivity.
Qed.

(** X18: [find_pixel_and_click]: with enough fuel it returns; it clicks once
    when it returns [true] and never when it returns [false]; with pixel
    rules for the key, [false] comes only after the whole timeout; without
    any, or with a timeout that is not positive, it returns [false] at
    once, without touching the screen. *)
Theorem find_pixel_and_click_result (fuel : nat) (key : string) (r : Z)
    (message : option string) (w : World) :
  (poll_fuel r <= fuel)%nat ->
  exists b w',
    find_pixel_and_click env cfg fuel key r message w = Some (b, w')
    /\ length (clicks (added w w')) = Nat.b2n b
    /\ (b = false -> pixel_configured cfg key -> now w + r <= now w')
    /\ ((~ pixel_configured cfg key \/ r <= 0) ->
        b = false /\ now w' = now w /\ screen_ops (added w w') = []).
Proof.
  intros Hf. destruct (poll_fuel_enough r fuel r Hf ltac:(lia)) as [Hr Hpos].
  destruct (find_pixel_and_click_run env cfg fuel key r message w Hr Hpos)
    as (b & w' & Hrun & _).
  exists b, w'. split; [exact Hrun|].
  destruct (find_pixel_and_click_inv _ _ _ _ _ _ _ Hrun) as (_ & Hclk & Hlate).
  split; [exact Hclk|]. split; [exact Hlate|].
  intros Hidle. revert Hrun. unfold find_pixel_and_click. run_prims.
  destruct (pixels cfg !! key) as [[|rule rules]|] eqn:Hpx; run_prims.
  - intros [= <- <-]. repeat split. step_added. reflexivity.
  - destruct Hidle as [Hno|Hr0]; [exfalso; apply Hno; now exists rule, rules|].
    destruct fuel as [|fuel]; [lia|].
    destruct message as [[|c' m]|]; run_prims; cbn [pixel_poll]; run_prims;
      (destruct (Z.ltb_spec (now w - now w) r); [lia|]); run_prims;
      intros [= <- <-]; repeat split; step_added; reflexivity.
  - intros [= <- <-]. repeat split. step_added. reflexivity.
Qed.

(** X19: [find_text_and_click]: with enough fuel it returns; it clicks once when
    it returns [true] and never when it returns [false]; with OCR enabled,
    [false] comes only after the whole timeout; with OCR disabled, or with
    a timeout that is not positive, it returns [false] at once, without
    touching the screen. *)
Theorem find_text_and_click_result (fuel : nat) (text : string) (r : Z)
    (w : World) :
  (poll_fuel r <= fuel)%nat ->
  exists b w',
    find_text_and_click env cfg fuel text r w = Some (b, w')
    /\ length (clicks (added w w')) = Nat.b2n b
    /\ (b = false -> ocr_enabled cfg = true -> now w + r <= now w')
    /\ ((ocr_enabled cfg = false \/ r <= 0) ->
        b = false /\ now w' = now w /\ screen_ops (added w w') = []).
Proof.
  intros Hf. destruct (poll_fuel_enough r fuel r Hf ltac:(lia)) as [Hr Hpos].
  destruct (find_text_and_click_run env cfg fuel text r w Hr Hpos)
    as (b & w' & Hrun & _).
  exists b, w'. split; [exact Hrun|].
  destruct (find_text_and_click_inv _ _ _ _ _ _ Hrun) as (_ & Hclk & Hlate).
  split; [exact Hclk|]. split; [exact Hlate|].
  intros Hidle. revert Hrun. unfold find_text_and_click. run_prims.
  destruct (ocr_enabled cfg) eqn:Hocr; cbn [negb]; run_prims.
  - destruct Hidle as [Hno|Hr0]; [discriminate Hno|].
    destruct fuel as [|fuel]; [lia|].
    cbn [text_poll]; run_prims.
    destruct (Z.ltb_spec (now w - now w) r); [lia|]. run_prims.
    intros [= <- <-]. repeat split. step_added. reflexivity.
  - intros [= <- <-]. repeat split. step_added. reflexivity.
Qed.

(** X20: The chain enters its locators in a fixed order, each at most once:
    template, then OCR, then pixel, stopping after any of them; the OCR
    locator is left out when OCR is disabled or no text is given. *)
Theorem fallback_stage_order (fuel : nat) (key : string) (text : option string)
    (T : Z) (message : option string) (w : World) :
  (poll_fuel T <= fuel)%nat ->
  exists b w',
    find_with_fallback_and_click env cfg fuel key text T message w = Some (b, w')
    /\ In (stage_calls (added w w')) (chain_orders (ocr_used cfg text))
    /\ ((ocr_enabled cfg = false \/ text = None \/ text = Some EmptyString) ->
        ~ In OcrText (stage_calls (added w w'))).
Proof.
  intros Hf.
  destruct (fallback_runs env cfg fuel key text T message w Hf)
    as (b & w' & Hrun & _).
  exists b, w'. split; [exact Hrun|].
  destruct (find_with_fallback_and_click_inv _ _ _ _ _ _ _ _ Hrun)
    as (_ & Hin & _).
  split; [exact Hin|].
  intros Hskip. assert (Hu : ocr_used cfg text = false).
  { unfold ocr_used. destruct (ocr_enabled cfg); [|reflexivity].
    destruct Hskip as [H|[->| ->]]; [discriminate H | reflexivity | reflexivity]. }
  rewrite Hu in Hin. cbn in Hin.
  destruct Hin as [<-|[<-|[<-|[]]]]; cbn; intuition discriminate.
Qed.

(** X21: The chain clicks at most once: exactly once when it returns [true],
    never when it returns [false]. *)
Theorem fallback_clicks_once (fuel : nat) (key : string) (text : option string)
    (T : Z) (message : option string) (w : World) :
  (poll_fuel T <= fuel)%nat ->
  exists b w',
    find_with_fallback_and_click env cfg fuel key text T message w = Some (b, w')
    /\ length (clicks (added w w')) = Nat.b2n b.
Proof.
  intros Hf.
  destruct (fallback_runs env cfg fuel key text T message w Hf)
    as (b & w' & Hrun & _).
  exists b, w'. split; [exact Hrun|].
  now destruct (find_with_fallback_and_click_inv _ _ _ _ _ _ _ _ Hrun)
    as (_ & _ & Hclk & _).
Qed.

(** X22: When the key has pixel rules, the chain does not give up early: it
    returns [false] only when the total timeout has passed. *)
Theorem fallback_fails_at_deadline (fuel : nat) (key : string)
    (text : option string) (T : Z) (message : option string) (w : World) :
  (poll_fuel T <= fuel)%nat ->
  pixel_configured cfg key ->
  exists b w',
    find_with_fallback_and_click env cfg fuel key text T message w = Some (b, w')
    /\ (b = false -> now w + T <= now w').
Proof.
  intros Hf Hc.
  destruct (fallback_runs env cfg fuel key text T message w Hf)
    as (b & w' & Hrun & _).
  exists b, w'. split; [exact Hrun|].
  destruct (find_with_fallback_and_click_inv _ _ _ _ _ _ _ _ Hrun)
    as (_ & _ & _ & Hlate).
  intros Hb. now apply Hlate.
Qed.

Lemma log_message_run message w :
  exists w0,
    log_message message w = Some (tt, w0)
    /\ now w0 = now w /\ extends quiet w w0
    /\ clicks (added w w0) = [].
Proof.
  destruct message as [[|c m]|]; cbn [log_message].
  - exists w. split; [reflexivity|]. split; [reflexivity|].
    split; [apply extends_refl|].
    erewrite added_app by (symmetry; apply app_nil_r). reflexivity.
  - eexists. split; [reflexivity|]. split; [reflexivity|].
    split; [step_extends | step_added; reflexivity].
  - exists w. split; [reflexivity|]. split; [reflexivity|].
    split; [apply extends_refl|].
    erewrite added_app by (symmetry; apply app_nil_r). reflexivity.
Qed.

Lemma template_poll_never fuel path s r w b w' :
  (forall t x y, locate env path t <> Found x y) ->
  template_poll env cfg fuel path s r w = Some (b, w') -> b = false.
Proof.
  intros Hnever. revert w; induction fuel as [|fuel IH]; intros w H;
    [discriminate|].
  cbn [template_poll] in H. run_prims.
  destruct (Z.ltb_spec (now w - s) r); run_prims.
  - destruct (locate env path (now w)) eqn:Hloc; run_prims.
    + exfalso. eapply Hnever; eauto.
    + now apply IH in H.
    + now apply IH in H.
  - now injection H as <- <-.
Qed.

Lemma find_and_click_never fuel key path r msg w b w' :
  templates cfg !! key = Some path ->
  (forall t x y, locate env path t <> Found x y) ->
  find_and_click env cfg fuel key r msg w = Some (b, w') -> b = false.
Proof.
  intros Htpl Hnever. unfold find_and_click. run_prims. rewrite Htpl.
  destruct path as [|c p]; run_prims; [now intros [= <- <-]|].
  destruct msg as [[|c' m]|]; run_prims; apply template_poll_never; exact Hnever.
Qed.

(** X23: The template stage starves the rest of the chain: when the key has a
    template that is never found, the chain fails without ever entering the
    OCR or the pixel locator, and without a click. *)
Theorem fallback_template_miss_starves_rest (fuel : nat) (key path : string)
    (text : option string) (T : Z) (message : option string) (w : World) :
  templates cfg !! key = Some path ->
  path <> EmptyString ->
  (forall t x y, locate env path t <> Found x y) ->
  (poll_fuel T <= fuel)%nat ->
  exists w',
    find_with_fallback_and_click env cfg fuel key text T message w
    = Some (false, w')
    /\ (forall st, In st (stage_calls (added w w')) -> st = Template)
    /\ clicks (added w w') = [].
Proof.
  intros Htpl Hpath Hnever Hf.
  destruct (fallback_runs env cfg fuel key text T message w Hf)
    as (b & w' & Hrun & _).
  exists w'.
  cut (b = false
       /\ (forall st, In st (stage_calls (added w w')) -> st = Template)
       /\ clicks (added w w') = []).
  { intros (-> & H1 & H2). repeat split; assumption. }
  revert Hrun. unfold find_with_fallback_and_click. run_prims.
  destruct (log_message_run message w) as (w0 & Hmsg & Hn0 & Hext0 & Hnc0).
  unfold bind at 1. rewrite Hmsg. run_prims. rewrite Hn0.
  assert (Hcalls0 : stage_calls (added w w0) = [])
    by (apply quiet_stage_calls, (extends_added _ _ _ Hext0)).
  destruct (Z.leb_spec (T - (now w - now w)) 0) as [Hle|Hgt]; run_prims.
  - intros [= <- <-]. split; [reflexivity|].
    rewrite (added_snoc _ _ _ _ _ Hext0), stage_calls_app, clicks_app,
      Hcalls0, Hnc0.
    split; [intros st []| reflexivity].
  - unfold bind at 1. intros H.
    match type of H with
    | context [find_and_click env cfg fuel key ?r None ?w1] =>
        destruct (find_and_click env cfg fuel key r None w1)
          as [[found w2]|] eqn:Hst; [|discriminate H];
        pose proof (find_and_click_never _ _ _ _ _ _ _ _ Htpl Hnever Hst) as ->;
        apply find_and_click_inv in Hst;
        assert (Hstep : extends quiet w0 w1) by step_extends;
        assert (Hpre : extends quiet w w1)
          by (eapply extends_trans; [exact Hext0 | exact Hstep]);
        assert (Hnc : clicks (added w w1) = [])
          by (rewrite (added_trans _ _ w w0 w1 Hext0 Hstep),
                clicks_app, Hnc0; step_added; reflexivity);
        destruct (after_stage _ _ _ _ w w1 w2 Hpre Hnc Hst)
          as (Hext & Hcalls & Hclk);
        destruct Hst as (_ & _ & Hlate)
    end.
    assert (Hconf : template_configured cfg key).
    { destruct path as [|c p]; [congruence|]. now exists c, p. }
    specialize (Hlate eq_refl Hconf). cbn [now] in Hlate. rewrite Hn0 in Hlate.
    assert (Hclk0 : clicks (added w w2) = [])
      by (destruct (clicks (added w w2)); [reflexivity | discriminate Hclk]).
    run_prims. unfold ocr_fallback in H.
    destruct (if ocr_enabled cfg then text_given text else None) as [txt|];
      run_prims.
    + destruct (Z.leb_spec (T - (now w2 - now w)) 0) as [_|Hgt2]; [|lia].
      run_prims. injection H as <- <-. split; [reflexivity|].
      rewrite (added_snoc _ _ _ _ _ Hext), stage_calls_app, clicks_app,
        Hcalls, Hclk0.
      split; [|reflexivity]. intros st [<-|[]]. reflexivity.
    + unfold pixel_fallback in H. run_prims.
      destruct (Z.leb_spec (T - (now w2 - now w)) 0) as [_|Hgt2]; [|lia].
      run_prims. injection H as <- <-. split; [reflexivity|].
      rewrite <- app_assoc.
      rewrite (added_snoc _ _ _ _ _ Hext), stage_calls_app, clicks_app,
        Hcalls, Hclk0.
      split; [|reflexivity]. intros st [<-|[]]. reflexivity.
Qed.

Lemma find_and_click_unconfigured fuel key r w :
  templates cfg !! key = None ->
  find_and_click env cfg fuel key r None w
  = Some (false,
          {| now := now w;
             trace := (trace w ++ [(now w, EvCall Template r)])
                      ++ [(now w, EvLog (LogNoTemplate key))] |}).
Proof.
  intros Htpl. unfold find_and_click. run_prims. now rewrite Htpl.
Qed.

Lemma pixel_first_pass fuel key r w rules p :
  pixels cfg !! key = Some rules ->
  first_point (screen env (now w)) rules = Some p ->
  0 < r -> (0 < fuel)%nat ->
  exists w',
    find_pixel_and_click env cfg fuel key r None w = Some (true, w')
    /\ clicks (added w w') = [p].
Proof.
  intros Hpx Hfirst Hr Hf.
  destruct rules as [|rule rules]; [discriminate Hfirst|].
  destruct fuel as [|fuel]; [lia|].
  unfold find_pixel_and_click. run_prims. rewrite Hpx. run_prims.
  cbn [pixel_poll]. run_prims.
  destruct (Z.ltb_spec (now w - now w) r); [|lia]. run_prims.
  unfold bind at 1.
  match goal with
  | |- context [scan_rules env cfg ?shot key 0%nat ?rs ?w1] =>
      destruct (scan_rules_first env cfg shot key 0%nat rs w1)
        as (w2 & Hscan & Hext & Hclk & _);
      assert (Hpre : extends (fun _ => True) w w1) by step_any;
      assert (Hnc : clicks (added w w1) = []) by (step_added; reflexivity)
  end.
  rewrite Hscan, Hfirst in *. run_prims.
  exists w2. split; [reflexivity|].
  now rewrite (added_trans _ _ _ _ _ Hpre Hext), clicks_app, Hnc, Hclk.
Qed.

Lemma text_first_pass fuel txt r w d x y :
  ocr_enabled cfg = true ->
  0 < r -> (0 < fuel)%nat ->
  image_to_data env (screen env (now w)) = Some d ->
  scan txt d = Hit x y ->
  exists w',
    find_text_and_click env cfg fuel txt r w = Some (true, w')
    /\ clicks (added w w') = [(x, y)].
Proof.
  intros Hocr Hr Hf Hd Hscan.
  destruct fuel as [|fuel]; [lia|].
  unfold find_text_and_click. run_prims. rewrite Hocr. cbn [negb]. run_prims.
  cbn [text_poll]. run_prims.
  destruct (Z.ltb_spec (now w - now w) r); [|lia]. run_prims.
  rewrite Hd. run_prims. rewrite Hscan. run_prims.
  eexists. split; [reflexivity|]. step_added. reflexivity.
Qed.

Lemma log_message_pre message w :
  exists pre,
    log_message message w
    = Some (tt, {| now := now w; trace := trace w ++ pre |})
    /\ Forall quiet pre /\ clicks pre = [].
Proof.
  destruct message as [[|c m]|]; cbn [log_message].
  - exists []. rewrite app_nil_r. destruct w. repeat split. constructor.
  - eexists. split; [reflexivity|]. split; [repeat constructor | reflexivity].
  - exists []. rewrite app_nil_r. destruct w. repeat split. constructor.
Qed.

(** X24: The way to the pixel locator that does work: with no template for the
    key and no OCR step (OCR disabled or no text), the chain clicks the
    point of the first pixel rule that the screen meets and succeeds,
    having entered the template and the pixel locator. *)
Theorem fallback_reaches_pixel (fuel : nat) (key : string)
    (text : option string) (T : Z) (message : option string) (w : World)
    (rules : list ColorRule) (p : Z * Z) :
  templates cfg !! key = None ->
  ocr_used cfg text = false ->
  pixels cfg !! key = Some rules ->
  first_point (screen env (now w)) rules = Some p ->
  0 < T -> (0 < fuel)%nat ->
  exists w',
    find_with_fallback_and_click env cfg fuel key text T message w
    = Some (true, w')
    /\ clicks (added w w') = [p]
    /\ stage_calls (added w w') = [Template; Pixel].
Proof.
  intros Htpl Hu Hpx Hfirst HT Hf.
  unfold find_with_fallback_and_click. run_prims.
  destruct (log_message_pre message w) as (pre & Hmsg & Hq & Hnc).
  unfold bind at 1. rewrite Hmsg. run_prims.
  destruct (Z.leb_spec (T - (now w - now w)) 0) as [Hle|_]; [lia|]. run_prims.
  unfold bind at 1. rewrite find_and_click_unconfigured by exact Htpl.
  run_prims. unfold ocr_fallback. unfold ocr_used in Hu.
  destruct (if ocr_enabled cfg then text_given text else None);
    [discriminate Hu|].
  run_prims. unfold pixel_fallback. run_prims.
  destruct (Z.leb_spec (T - (now w - now w)) 0) as [Hle|_]; [lia|]. run_prims.
  unfold bind at 1.
  match goal with
  | |- context [find_pixel_and_click env cfg fuel key ?r None ?w3] =>
      destruct (pixel_first_pass fuel key r w3 rules p Hpx Hfirst
                  ltac:(lia) Hf) as (w4 & Hrun & Hclk);
      pose proof (find_pixel_and_click_inv _ _ _ _ _ _ _ Hrun)
        as ((_ & evs & Ht4 & Hq4) & _);
      rewrite (added_app w3 w4 _ Ht4) in Hclk
  end.
  rewrite Hrun. run_prims. exists w4. split; [reflexivity|].
  cbn [trace now] in Ht4. rewrite <- !app_assoc in Ht4. cbn [app] in Ht4.
  rewrite (added_app w w4 _ Ht4), clicks_app, stage_calls_app, Hnc,
    (quiet_stage_calls _ Hq).
  unfold clicks, stage_calls in *. cbn [flat_map snd app] in *.
  split; [exact Hclk|].
  fold (stage_calls evs). now rewrite (quiet_stage_calls _ Hq4).
Qed.

(** X25: The way to the OCR locator that does work: with no template for the
    key, OCR enabled and a text that the OCR finds on the first pass, the
    chain clicks the point of the word scan and succeeds; the pixel locator
    is not entered. *)
Theorem fallback_reaches_ocr (fuel : nat) (key txt : string) (T : Z)
    (message : option string) (w : World) (d : OcrData) (x y : Z) :
  templates cfg !! key = None ->
  ocr_enabled cfg = true ->
  txt <> EmptyString ->
  image_to_data env (screen env (now w)) = Some d ->
  scan txt d = Hit x y ->
  0 < T -> (0 < fuel)%nat ->
  exists w',
    find_with_fallback_and_click env cfg fuel key (Some txt) T message w
    = Some (true, w')
    /\ clicks (added w w') = [(x, y)]
    /\ stage_calls (added w w') = [Template; OcrText].
Proof.
  intros Htpl Hocr Htxt Hd Hscan HT Hf.
  destruct txt as [|c txt']; [congruence|].
  unfold find_with_fallback_and_click. run_prims.
  destruct (log_message_pre message w) as (pre & Hmsg & Hq & Hnc).
  unfold bind at 1. rewrite Hmsg. run_prims.
  destruct (Z.leb_spec (T - (now w - now w)) 0) as [Hle|_]; [lia|]. run_prims.
  unfold bind at 1. rewrite find_and_click_unconfigured by exact Htpl.
  run_prims. unfold ocr_fallback. rewrite Hocr. cbn [text_given]. run_prims.
  destruct (Z.leb_spec (T - (now w - now w)) 0) as [Hle|_]; [lia|]. run_prims.
  unfold bind at 1.
  match goal with
  | |- context [find_text_and_click env cfg fuel ?t ?r ?w3] =>
      destruct (text_first_pass fuel t r w3 d x y Hocr ltac:(lia) Hf Hd Hscan)
        as (w4 & Hrun & Hclk);
      pose proof (find_text_and_click_inv _ _ _ _ _ _ Hrun)
        as ((_ & evs & Ht4 & Hq4) & _);
      rewrite (added_app w3 w4 _ Ht4) in Hclk
  end.
  rewrite Hrun. run_prims. exists w4. split; [reflexivity|].
  cbn [trace now] in Ht4. rewrite <- !app_assoc in Ht4. cbn [app] in Ht4.
  rewrite (added_app w w4 _ Ht4), clicks_app, stage_calls_app, Hnc,
    (quiet_stage_calls _ Hq).
  unfold clicks, stage_calls in *. cbn [flat_map snd app] in *.
  split; [exact Hclk|].
  fold (stage_calls evs). now rewrite (quiet_stage_calls _ Hq4).
Qed.

End WithEnv2.

Import Scenario Scenario2.

Lemma pixel_rules_first_match_witness :
  exists b w',
    scan_rules (grey_desktop instant menu_words) pixel_only
      (solid 1920 1080 [250; 250; 250]) "vscode_copy_button" 0 mixed_rules start
    = Some (b, w')
    /\ b = true /\ clicks (added start w') = [(100, 200)].
Proof.
  destruct (pixel_rules_first_match (grey_desktop instant menu_words) pixel_only
              (solid 1920 1080 [250; 250; 250]) "vscode_copy_button" 0
              mixed_rules start) as (b & w' & Hrun & Hfirst & _).
  exists b, w'. split; [exact Hrun|].
  apply (Hfirst [BadRule [255; 255; 255] None;
                 PointRule 5000 5000 [255; 255; 255] (Some 20)]
                (PointRule 100 200 [255; 255; 255] (Some 20))
                [RegionRule (300, 400, 50, 20) [250; 250; 250] None]).
  - reflexivity.
  - repeat constructor.
  - reflexivity.
Defined.

Lemma find_and_click_result_witness :
  exists b w',
    find_and_click (grey_desktop instant menu_words) template_only
      (poll_fuel 1000) "vscode_copy_button" 1000 None start = Some (b, w')
    /\ b = false /\ 1000 <= now w'.
Proof.
  destruct (find_and_click_result (grey_desktop instant menu_words) template_only
              (poll_fuel 1000) "vscode_copy_button" 1000 None start)
    as (b & w' & Hrun & _ & Hlate & _); [unfold poll_fuel; lia|].
  exists b, w'. split; [exact Hrun|].
  assert (Hb : b = false).
  { apply (find_and_click_never (grey_desktop instant menu_words) template_only
             _ "vscode_copy_button" "templates/copy.png" _ _ _ _ _ eq_refl
             ltac:(discriminate) Hrun). }
  split; [exact Hb|]. apply (Hlate Hb). now exists "t"%char, "emplates/copy.png"%string.
Defined.

Lemma find_pixel_and_click_result_witness :
  exists b w',
    find_pixel_and_click (grey_desktop instant menu_words) pixel_only
      (poll_fuel 0) "ai_studio_textarea" 0 None start = Some (b, w')
    /\ b = false /\ now w' = 0 /\ screen_ops (added start w') = [].
Proof.
  destruct (find_pixel_and_click_result (grey_desktop instant menu_words)
              pixel_only (poll_fuel 0) "ai_studio_textarea" 0 None start)
    as (b & w' & Hrun & _ & _ & Hidle); [unfold poll_fuel; lia|].
  exists b, w'. split; [exact Hrun|]. apply Hidle. right. lia.
Defined.

Lemma find_text_and_click_result_witness :
  exists b w',
    find_text_and_click (grey_desktop instant menu_words) pixel_only
      (poll_fuel 2000) "Copy" 2000 start = Some (b, w')
    /\ length (clicks (added start w')) = Nat.b2n b
    /\ (b = false -> 2000 <= now w').
Proof.
  destruct (find_text_and_click_result (grey_desktop instant menu_words)
              pixel_only (poll_fuel 2000) "Copy" 2000 start)
    as (b & w' & Hrun & Hclk & Hlate & _); [unfold poll_fuel; lia|].
  exists b, w'. split; [exact Hrun|]. split; [exact Hclk|].
  intros Hb. now apply Hlate.
Defined.

Lemma fallback_stage_order_witness :
  exists b w',
    find_with_fallback_and_click (grey_desktop instant menu_words) pixel_only
      (poll_fuel 1000) "vscode_copy_button" None 1000 None start = Some (b, w')
    /\ ~ In OcrText (stage_calls (added start w')).
Proof.
  destruct (fallback_stage_order (grey_desktop instant menu_words) pixel_only
              (poll_fuel 1000) "vscode_copy_button" None 1000 None start)
    as (b & w' & Hrun & _ & Hskip); [unfold poll_fuel; lia|].
  exists b, w'. split; [exact Hrun|]. apply Hskip. right. now left.
Defined.

Lemma fallback_clicks_once_witness :
  exists b w',
    find_with_fallback_and_click ready_desktop template_only (poll_fuel 1000)
      "vscode_copy_button" (Some "Copy"%string) 1000 None start = Some (b, w')
    /\ length (clicks (added start w')) = Nat.b2n b.
Proof.
  apply (fallback_clicks_once ready_desktop template_only (poll_fuel 1000)
           "vscode_copy_button" (Some "Copy"%string) 1000 None start).
  unfold poll_fuel. lia.
Defined.

Lemma fallback_fails_at_deadline_witness :
  exists b w',
    find_with_fallback_and_click (grey_desktop instant menu_words) pixel_mismatch
      (poll_fuel 2000) "vscode_copy_button" None 2000 None start = Some (b, w')
    /\ (b = false -> 0 + 2000 <= now w').
Proof.
  apply (fallback_fails_at_deadline (grey_desktop instant menu_words)
           pixel_mismatch (poll_fuel 2000) "vscode_copy_button" None 2000 None
           start).
  - unfold poll_fuel. lia.
  - eexists _, _. reflexivity.
Defined.

Lemma fallback_template_miss_starves_rest_witness :
  exists w',
    find_with_fallback_and_click (grey_desktop instant menu_words) template_only
      (poll_fuel 1000) "vscode_copy_button" (Some "Copy"%string) 1000 None start
    = Some (false, w')
    /\ (forall st, In st (stage_calls (added start w')) -> st = Template)
    /\ clicks (added start w') = [].
Proof.
  apply (fallback_template_miss_starves_rest (grey_desktop instant menu_words)
           template_only (poll_fuel 1000) "vscode_copy_button"
           "templates/copy.png" (Some "Copy"%string) 1000 None start).
  - reflexivity.
  - discriminate.
  - discriminate.
  - unfold poll_fuel. lia.
Defined.

Lemma fallback_reaches_pixel_witness :
  exists w',
    find_with_fallback_and_click (grey_desktop instant menu_words) pixel_only
      (poll_fuel 1000) "vscode_copy_button" None 1000 None start
    = Some (true, w')
    /\ clicks (added start w') = [(100, 200)]
    /\ stage_calls (added start w') = [Template; Pixel].
Proof.
  apply (fallback_reaches_pixel (grey_desktop instant menu_words) pixel_only
           (poll_fuel 1000) "vscode_copy_button" None 1000 None start
           [PointRule 100 200 [255; 255; 255] (Some 20)] (100, 200));
    try reflexivity; try lia.
  unfold poll_fuel. lia.
Defined.

Lemma fallback_reaches_ocr_witness :
  exists w',
    find_with_fallback_and_click (grey_desktop instant submit_words) pixel_only
      (poll_fuel 1000) "vscode_submit_button" (Some "Submit"%string) 1000 None
      start
    = Some (true, w')
    /\ clicks (added start w') = [(120, 207)]
    /\ stage_calls (added start w') = [Template; OcrText].
Proof.
  apply (fallback_reaches_ocr (grey_desktop instant submit_words) pixel_only
           (poll_fuel 1000) "vscode_submit_button" "Submit" 1000 None start
           submit_words 120 207);
    try reflexivity; try lia; try discriminate.
  unfold poll_fuel. lia.
Defined.


End LocatorMore.

(** ** The budget of the fallback chain *)

Module BudgetFacts.
Import Color Img Ocr World Recognizer Spec History ChainSpec RecognizerFacts
  LocatorMore.
Local Open Scope world_scope.

Lemma stage_end_prefix st r t0 t1 b p evs :
  Forall steady p -> stage_end st r t0 t1 b evs ->
  stage_end st r t0 t1 b (p ++ evs).
Proof.
  intros Hp [Hall | (Hb & Hr & pre & -> & Hpre)].
  - left. now apply Forall_app.
  - right. split; [exact Hb|]. split; [exact Hr|].
    exists (p ++ pre). split; [now rewrite app_assoc | now apply Forall_app].
Qed.

Lemma poll_end_after st r s b w w1 w' p :
  trace w1 = trace w ++ p -> Forall steady p ->
  (exists evs, trace w' = trace w1 ++ evs
               /\ stage_end st r s (now w') b evs) ->
  exists evs, trace w' = trace w ++ evs /\ stage_end st r s (now w') b evs.
Proof.
  intros Ht Hp (evs & Ht' & He). exists (p ++ evs). split.
  - now rewrite Ht', Ht, app_assoc.
  - now apply stage_end_prefix.
Qed.

Lemma chain_end_prefix s T b e p evs :
  Forall steady p -> chain_end s T b e evs -> chain_end s T b e (p ++ evs).
Proof.
  intros Hp [Hall | (pre & t & st & post & -> & H1 & H2 & H3 & H4 & H5 & H6)].
  - left. now apply Forall_app.
  - right. exists (p ++ pre), t, st, post. rewrite app_assoc.
    split; [reflexivity|]. split; [now apply Forall_app|].
    split; [exact H2|]. split; [exact H3|]. split; [exact H4|].
    split; [exact H5 | exact H6].
Qed.

(** A history with one timeout report between steady parts splits in one
    way only. *)
Lemma timeout_split_unique pre t st post pre' t' st' post' :
  pre ++ (t, EvLog (LogTimedOut st)) :: post
  = pre' ++ (t', EvLog (LogTimedOut st')) :: post' ->
  Forall steady pre' -> Forall steady post' ->
  t = t' /\ post = post'.
Proof.
  revert pre; induction pre' as [|y pre' IH]; intros pre Heq Hpre Hpost.
  - destruct pre as [|x pre]; cbn [app] in Heq.
    + injection Heq as -> _ ->. now split.
    + exfalso. injection Heq as _ Heq. subst post'.
      apply Forall_app in Hpost as [_ Hpost].
      inversion Hpost as [|? ? Hx _]. exact Hx.
  - destruct pre as [|x pre]; cbn [app] in Heq.
    + exfalso. injection Heq as Hy _. subst y.
      inversion Hpre as [|? ? Hx _]. exact Hx.
    + injection Heq as _ Heq. inversion Hpre; subst. now apply (IH pre).
Qed.

Lemma chain_end_split s T b e evs pre t st post :
  chain_end s T b e evs ->
  evs = pre ++ (t, EvLog (LogTimedOut st)) :: post ->
  T - (t - s) <= 0 /\ b = false /\ e = t /\ Forall log_only post.
Proof.
  intros [Hall | (pre' & t' & st' & post' & -> & H1 & H2 & H3 & H4 & H5 & H6)] Hevs.
  - exfalso. subst evs. apply Forall_app in Hall as [_ Hall].
    inversion Hall as [|? ? Hx _]. exact Hx.
  - symmetry in Hevs.
    destruct (timeout_split_unique _ _ _ _ _ _ _ _ Hevs H1 H2) as [-> ->].
    split; [exact H4|]. split; [exact H5|]. split; [exact H6 | exact H3].
Qed.

Lemma log_message_logs message w :
  exists pre,
    log_message message w
    = Some (tt, {| now := now w; trace := trace w ++ pre |})
    /\ Forall steady pre /\ Forall log_only pre.
Proof.
  destruct message as [[|c m]|]; cbn [log_message].
  - exists []. rewrite app_nil_r. destruct w. repeat split; constructor.
  - eexists. split; [reflexivity|]. split; repeat constructor.
  - exists []. rewrite app_nil_r. destruct w. repeat split; constructor.
Qed.

(** A world reached from [w] by explicit events. *)
Ltac trace_grows := cbn [trace]; rewrite <- ?app_assoc; cbn [app]; reflexivity.

Ltac poll_end_continue IH H :=
  apply IH in H; eapply poll_end_after; [| |exact H];
  [trace_grows | repeat constructor].

Section WithEnv.
Variable env : Env.
Variable cfg : Settings.

Lemma template_poll_end fuel path s r w b w' :
  template_poll env cfg fuel path s r w = Some (b, w') ->
  exists evs, trace w' = trace w ++ evs
              /\ stage_end Template r s (now w') b evs.
Proof.
  revert w; induction fuel as [|fuel IH]; intros w H; [discriminate|].
  cbn [template_poll] in H. run_prims.
  destruct (Z.ltb_spec (now w - s) r); run_prims.
  - case_in H (locate env path (now w)); run_prims.
    + injection H as <- <-. eexists. split; [trace_grows|].
      left. repeat constructor.
    + poll_end_continue IH H.
    + poll_end_continue IH H.
  - injection H as <- <-. eexists. split; [reflexivity|].
    right. split; [reflexivity|]. split; [cbn [now]; lia|].
    exists []. split; [reflexivity | constructor].
Qed.

Lemma text_poll_end fuel text s r w b w' :
  text_poll env cfg fuel text s r w = Some (b, w') ->
  exists evs, trace w' = trace w ++ evs
              /\ stage_end OcrText r s (now w') b evs.
Proof.
  revert w; induction fuel as [|fuel IH]; intros w H; [discriminate|].
  cbn [text_poll] in H. run_prims.
  destruct (Z.ltb_spec (now w - s) r); run_prims.
  - case_in H (image_to_data env (screen env (now w))); run_prims.
    + match type of H with context [scan text ?d] => case_in H (scan text d) end;
        run_prims.
      * injection H as <- <-. eexists. split; [trace_grows|].
        left. repeat constructor.
      * poll_end_continue IH H.
      * poll_end_continue IH H.
    + poll_end_continue IH H.
  - injection H as <- <-. eexists. split; [reflexivity|].
    right. split; [reflexivity|]. split; [cbn [now]; lia|].
    exists []. split; [reflexivity | constructor].
Qed.

Lemma scan_rules_steady shot key idx rules w :
  exists b w', scan_rules env cfg shot key idx rules w = Some (b, w')
               /\ extends steady w w'.
Proof.
  revert idx w; induction rules as [|rule rest IH]; intros idx w.
  - exists false, w. split; [reflexivity | apply extends_refl].
  - destruct rule as [x y col tol | [[[l t] wd] h] col tol | col tol];
      cbn [scan_rules].
    + destruct (getpixel shot x y) as [pc|]; run_prims.
      * destruct (_color_match pc col (rule_tolerance tol)); run_prims.
        -- do 2 eexists. split; [reflexivity | step_extends].
        -- apply IH.
      * destruct (IH (S idx) {| now := now w;
                               trace := trace w ++ [(now w, EvLog (LogPixelReadError idx))] |})
          as (b & w' & Hrun & Hext).
        exists b, w'. split; [exact Hrun|].
        eapply extends_trans; [|exact Hext]. step_extends.
    + destruct (region_average shot (l, t, wd, h)) as [avg|]; run_prims.
      * destruct (_color_match avg col (rule_tolerance tol)); run_prims.
        -- do 2 eexists. split; [reflexivity | step_extends].
        -- apply IH.
      * destruct (IH (S idx) {| now := now w;
                               trace := trace w ++ [(now w, EvLog (LogRegionReadError idx))] |})
          as (b & w' & Hrun & Hext).
        exists b, w'. split; [exact Hrun|].
        eapply extends_trans; [|exact Hext]. step_extends.
    + run_prims.
      destruct (IH (S idx) {| now := now w;
                               trace := trace w ++ [(now w, EvLog (LogBadRule idx))] |})
        as (b & w' & Hrun & Hext).
      exists b, w'. split; [exact Hrun|].
      eapply extends_trans; [|exact Hext]. step_extends.
Qed.

Lemma pixel_poll_end fuel key rules s r w b w' :
  pixel_poll env cfg fuel key rules s r w = Some (b, w') ->
  exists evs, trace w' = trace w ++ evs
              /\ stage_end Pixel r s (now w') b evs.
Proof.
  revert w; induction fuel as [|fuel IH]; intros w H; [discriminate|].
  cbn [pixel_poll] in H. run_prims.
  destruct (Z.ltb_spec (now w - s) r); run_prims.
  - unfold bind at 1 in H.
    match type of H with
    | context [scan_rules env cfg ?shot key 0%nat rules ?w1] =>
        destruct (scan_rules_steady shot key 0%nat rules w1)
          as (m & w2 & Hscan & _ & sevs & Hts & Hsteady)
    end.
    rewrite Hscan in H. cbn [trace] in Hts.
    destruct m; run_prims.
    + injection H as <- <-. exists ((now w, EvScreenshot) :: sevs). split.
      * rewrite Hts, <- app_assoc. reflexivity.
      * left. constructor; [exact I | exact Hsteady].
    + apply IH in H. eapply poll_end_after; [| |exact H].
      * cbn [trace]. rewrite Hts, <- !app_assoc. cbn [app]. reflexivity.
      * constructor; [exact I|]. apply Forall_app.
        split; [exact Hsteady | repeat constructor].
  - injection H as <- <-. eexists. split; [reflexivity|].
    right. split; [reflexivity|]. split; [cbn [now]; lia|].
    exists []. split; [reflexivity | constructor].
Qed.

Lemma find_and_click_end fuel key r msg w b w' :
  find_and_click env cfg fuel key r msg w = Some (b, w') ->
  exists evs, trace w' = trace w ++ evs
              /\ stage_end Template r (now w) (now w') b evs.
Proof.
  unfold find_and_click. run_prims.
  destruct (templates cfg !! key) as [[|c p]|]; run_prims.
  - intros [= <- <-]. eexists. split; [trace_grows|]. left. repeat constructor.
  - destruct msg as [[|c' m]|]; run_prims; intros H;
      apply template_poll_end in H; cbn [now] in H;
      (eapply poll_end_after; [| |exact H];
       [trace_grows | repeat constructor]).
  - intros [= <- <-]. eexists. split; [trace_grows|]. left. repeat constructor.
Qed.

Lemma find_pixel_and_click_end fuel key r msg w b w' :
  find_pixel_and_click env cfg fuel key r msg w = Some (b, w') ->
  exists evs, trace w' = trace w ++ evs
              /\ stage_end Pixel r (now w) (now w') b evs.
Proof.
  unfold find_pixel_and_click. run_prims.
  destruct (pixels cfg !! key) as [[|rule rules]|]; run_prims.
  - intros [= <- <-]. eexists. split; [trace_grows|]. left. repeat constructor.
  - destruct msg as [[|c' m]|]; run_prims; intros H;
      apply pixel_poll_end in H; cbn [now] in H;
      (eapply poll_end_after; [| |exact H];
       [trace_grows | repeat constructor]).
  - intros [= <- <-]. eexists. split; [trace_grows|]. left. repeat constructor.
Qed.

Lemma find_text_and_click_end fuel text r w b w' :
  find_text_and_click env cfg fuel text r w = Some (b, w') ->
  exists evs, trace w' = trace w ++ evs
              /\ stage_end OcrText r (now w) (now w') b evs.
Proof.
  unfold find_text_and_click. run_prims.
  destruct (ocr_enabled cfg); cbn [negb]; run_prims.
  - intros H. apply text_poll_end in H. cbn [now] in H.
    eapply poll_end_after; [| |exact H]; [trace_grows | repeat constructor].
  - intros [= <- <-]. eexists. split; [trace_grows|]. left. repeat constructor.
Qed.

Lemma pixel_fallback_end fuel key T s w b w' :
  pixel_fallback env cfg fuel key T s w = Some (b, w') ->
  exists evs,
    trace w' = trace w ++ evs
    /\ chain_end s T b (now w') evs
    /\ (T - (now w - s) <= 0 ->
        b = false /\ now w' = now w
        /\ Forall log_only evs /\ Forall steady evs).
Proof.
  unfold pixel_fallback. run_prims.
  destruct (Z.leb_spec (T - (now w - s)) 0) as [Hle|Hgt]; run_prims.
  - intros [= <- <-]. eexists. split; [reflexivity|].
    split; [left; repeat constructor|]. intros _.
    split; [reflexivity|]. split; [reflexivity|]. split; repeat constructor.
  - unfold bind at 1. intros H.
    match type of H with
    | context [find_pixel_and_click env cfg fuel key ?r None ?w1] =>
        destruct (find_pixel_and_click env cfg fuel key r None w1)
          as [[found w2]|] eqn:Hst; [|discriminate H];
        apply find_pixel_and_click_end in Hst;
        destruct Hst as (sevs & Hts & Hend)
    end.
    cbn [now trace] in Hts, Hend.
    destruct found; run_prims; injection H as <- <-.
    + destruct Hend as [Hall | (Hb & _)]; [|discriminate Hb].
      eexists. split; [rewrite Hts, <- app_assoc; reflexivity|].
      split; [|intros; lia].
      left. constructor; [exact I | exact Hall].
    + eexists. split; [cbn [trace]; rewrite Hts, <- !app_assoc; reflexivity|].
      split; [|intros; lia].
      destruct Hend as [Hall | (_ & Hlate & pre & -> & Hpre)].
      * left. constructor; [exact I|]. apply Forall_app.
        split; [exact Hall | repeat constructor].
      * right. eexists (_ :: pre), (now w2), Pixel, [_].
        split; [cbn [app]; rewrite <- app_assoc; reflexivity|].
        split; [constructor; [exact I | exact Hpre]|].
        split; [repeat constructor|]. split; [repeat constructor|].
        split; [lia|]. split; reflexivity.
Qed.

Lemma ocr_fallback_end fuel key text T s w b w' :
  ocr_fallback env cfg fuel key text T s w = Some (b, w') ->
  exists evs,
    trace w' = trace w ++ evs
    /\ chain_end s T b (now w') evs
    /\ (T - (now w - s) <= 0 ->
        b = false /\ now w' = now w
        /\ Forall log_only evs /\ Forall steady evs).
Proof.
  unfold ocr_fallback.
  destruct (if ocr_enabled cfg then text_given text else None) as [txt|];
    run_prims.
  - destruct (Z.leb_spec (T - (now w - s)) 0) as [Hle|Hgt]; run_prims.
    + intros [= <- <-]. eexists. split; [reflexivity|].
      split; [left; repeat constructor|]. intros _.
      split; [reflexivity|]. split; [reflexivity|]. split; repeat constructor.
    + unfold bind at 1. intros H.
      match type of H with
      | context [find_text_and_click env cfg fuel txt ?r ?w1] =>
          destruct (find_text_and_click env cfg fuel txt r w1)
            as [[found w2]|] eqn:Hst; [|discriminate H];
          apply find_text_and_click_end in Hst;
          destruct Hst as (sevs & Hts & Hend)
      end.
      cbn [now trace] in Hts, Hend.
      destruct found; run_prims.
      * injection H as <- <-.
        destruct Hend as [Hall | (Hb & _)]; [|discriminate Hb].
        eexists. split; [rewrite Hts, <- app_assoc; reflexivity|].
        split; [|intros; lia].
        left. constructor; [exact I | exact Hall].
      * apply pixel_fallback_end in H.
        destruct H as (evs3 & Ht3 & Hend3 & Hexp3).
        eexists. split; [rewrite Ht3, Hts, <- !app_assoc; reflexivity|].
        split; [|intros; lia].
        destruct Hend as [Hall | (_ & Hlate & pre & -> & Hpre)].
        -- apply (chain_end_prefix _ _ _ _ (_ :: sevs) evs3); [|exact Hend3].
           constructor; [exact I | exact Hall].
        -- destruct (Hexp3 ltac:(lia)) as (-> & Hn3 & Hlog3 & Hsteady3).
           right. eexists (_ :: pre), (now w2), OcrText, evs3.
           split; [cbn [app]; rewrite <- app_assoc; reflexivity|].
           split; [constructor; [exact I | exact Hpre]|].
           split; [exact Hsteady3|]. split; [exact Hlog3|].
           split; [lia|]. split; [reflexivity | exact Hn3].
  - intros H. apply pixel_fallback_end in H.
    destruct H as (evs3 & Ht3 & Hend3 & Hexp3). cbn [now trace] in *.
    eexists. split; [rewrite Ht3, <- app_assoc; reflexivity|]. split.
    + apply chain_end_prefix; [repeat constructor | exact Hend3].
    + intros Hle. destruct (Hexp3 Hle) as (Hb & Hn3 & Hlog3 & Hsteady3).
      split; [exact Hb|]. split; [exact Hn3|].
      split; (constructor; [exact I | assumption]).
Qed.

Lemma find_with_fallback_and_click_end fuel key text T message w b w' :
  find_with_fallback_and_click env cfg fuel key text T message w = Some (b, w') ->
  exists evs,
    trace w' = trace w ++ evs
    /\ chain_end (now w) T b (now w') evs
    /\ (T <= 0 -> b = false /\ now w' = now w /\ Forall log_only evs).
Proof.
  unfold find_with_fallback_and_click. run_prims.
  destruct (log_message_logs message w) as (pre & Hmsg & Hpre & Hprelog).
  unfold bind at 1. rewrite Hmsg. run_prims.
  destruct (Z.leb_spec (T - (now w - now w)) 0) as [Hle|Hgt]; run_prims.
  - intros [= <- <-]. eexists. split; [cbn [trace]; rewrite <- app_assoc; reflexivity|].
    split.
    + apply chain_end_prefix; [exact Hpre | left; repeat constructor].
    + intros _. split; [reflexivity|]. split; [reflexivity|].
      apply Forall_app. split; [exact Hprelog | repeat constructor].
  - unfold bind at 1. intros H.
    match type of H with
    | context [find_and_click env cfg fuel key ?r None ?w1] =>
        destruct (find_and_click env cfg fuel key r None w1)
          as [[found w2]|] eqn:Hst; [|discriminate H];
        apply find_and_click_end in Hst;
        destruct Hst as (sevs & Hts & Hend)
    end.
    cbn [now trace] in Hts, Hend.
    destruct found; run_prims.
    + injection H as <- <-.
      destruct Hend as [Hall | (Hb & _)]; [|discriminate Hb].
      eexists. split; [rewrite Hts, <- !app_assoc; reflexivity|].
      split; [|intros; lia].
      apply chain_end_prefix; [exact Hpre|].
      left. constructor; [exact I | exact Hall].
    + apply ocr_fallback_end in H.
      destruct H as (evs3 & Ht3 & Hend3 & Hexp3).
      eexists. split; [rewrite Ht3, Hts, <- !app_assoc; reflexivity|].
      split; [|intros; lia].
      apply chain_end_prefix; [exact Hpre|].
      destruct Hend as [Hall | (_ & Hlate & pre0 & -> & Hpre0)].
      * apply (chain_end_prefix _ _ _ _ (_ :: sevs) evs3); [|exact Hend3].
        constructor; [exact I | exact Hall].
      * destruct (Hexp3 ltac:(lia)) as (-> & Hn3 & Hlog3 & Hsteady3).
        right. eexists (_ :: pre0), (now w2), Template, evs3.
        split; [cbn [app]; rewrite <- app_assoc; reflexivity|].
        split; [constructor; [exact I | exact Hpre0]|].
        split; [exact Hsteady3|]. split; [exact Hlog3|].
        split; [lia|]. split; [reflexivity | exact Hn3].
Qed.

(** C2, as the code has it: with enough fuel the call returns.  Every
    locator that is entered gets exactly the total timeout minus the time
    elapsed since the call began, and that amount is positive.  The budget
    is tested before each stage, and a test that finds nothing left fails
    the whole call on the spot: with a total timeout that is not positive
    the call fails at once; when a locator has timed out, nothing of the
    budget is left, and the call fails at the time of that timeout, with
    log entries only after it: no locator is entered, nothing sleeps and
    nothing touches the screen.  A budget reported as expired was not
    positive, and the report is the last event of the call.  The call
    returns [true] only with a click of a locator, never from a test of
    the budget. *)
Theorem fallback_budget (fuel : nat) (key : string) (text : option string)
    (T : Z) (message : option string) (w : World) :
  (poll_fuel T <= fuel)%nat ->
  exists b w' evs,
    find_with_fallback_and_click env cfg fuel key text T message w = Some (b, w')
    /\ trace w' = trace w ++ evs
    /\ (forall t st r, In (t, EvCall st r) evs ->
                       r = T - (t - now w) /\ 0 < r)
    /\ (T <= 0 -> b = false /\ now w' = now w /\ Forall log_only evs)
    /\ (forall pre t st post,
          evs = pre ++ (t, EvLog (LogTimedOut st)) :: post ->
          T - (t - now w) <= 0 /\ b = false /\ now w' = t
          /\ Forall log_only post)
    /\ (forall pre t st post,
          evs = pre ++ (t, EvLog (LogBudgetExpired st)) :: post ->
          T - (t - now w) <= 0 /\ post = [] /\ b = false)
    /\ length (clicks evs) = Nat.b2n b.
Proof.
  intros Hf.
  destruct (fallback_runs env cfg fuel key text T message w Hf)
    as (b & w' & Hrun & _ & evs & Ht & Hw & Hs).
  destruct (find_with_fallback_and_click_end _ _ _ _ _ _ _ _ Hrun)
    as (evs' & Ht' & Hend & Hzero).
  assert (Heq : evs' = evs)
    by (rewrite Ht in Ht'; now apply app_inv_head in Ht').
  subst evs'.
  destruct (find_with_fallback_and_click_inv env cfg _ _ _ _ _ _ _ _ Hrun)
    as (_ & _ & Hclk & _).
  rewrite (added_app w w' evs Ht) in Hclk.
  exists b, w', evs. split; [exact Hrun|]. split; [exact Ht|].
  split; [|split; [exact Hzero|]; split; [|split; [|exact Hclk]]].
  - intros t st r Hin.
    apply (proj1 (List.Forall_forall _ _) Hw) in Hin. exact Hin.
  - intros pre t st post Hevs.
    destruct (chain_end_split _ _ _ _ _ _ _ _ _ Hend Hevs) as (H1 & H2 & H3 & H4).
    split; [exact H1|]. split; [exact H2|]. split; [exact H3 | exact H4].
  - intros pre t st post Hevs. split.
    + assert (Hin : In (t, EvLog (LogBudgetExpired st)) evs)
        by (rewrite Hevs; apply in_elt).
      apply (proj1 (List.Forall_forall _ _) Hw) in Hin. exact Hin.
    + eapply settled_last; eauto.
Qed.

End WithEnv.

Import Scenario.

Lemma fallback_budget_witness :
  exists b w' evs,
    find_with_fallback_and_click (grey_desktop slow_locate menu_words)
      template_only (poll_fuel 1000) "vscode_copy_button" (Some "Copy"%string)
      1000 None start = Some (b, w')
    /\ trace w' = trace start ++ evs
    /\ (forall t st r, In (t, EvCall st r) evs ->
                       r = 1000 - (t - now start) /\ 0 < r)
    /\ (forall pre t st post,
          evs = pre ++ (t, EvLog (LogTimedOut st)) :: post ->
          1000 - (t - now start) <= 0 /\ b = false /\ now w' = t
          /\ Forall log_only post)
    /\ length (clicks evs) = Nat.b2n b.
Proof.
  destruct (fallback_budget (grey_desktop slow_locate menu_words) template_only
              (poll_fuel 1000) "vscode_copy_button" (Some "Copy"%string) 1000
              None start)
    as (b & w' & evs & Hrun & Ht & Hcall & _ & Hout & _ & Hclk);
    [unfold poll_fuel; lia|].
  exists b, w', evs. split; [exact Hrun|]. split; [exact Ht|].
  split; [exact Hcall|]. split; [exact Hout | exact Hclk].
Defined.

End BudgetFacts.

(** ** Window focus *)

Module WindowFacts.
Import Ocr Window.

(** X26: [_focus_window] uses one mechanism to the end: it sleeps the operation
    delay once when a mechanism completed and not at all otherwise; when a
    window was activated by its title no key is touched; and [wmctrl] runs
    only on Linux, where [pygetwindow] is not consulted. *)
Theorem focus_window_one_mechanism (d : Desktop) (title : string) :
  let acts := _focus_window d title in
  (count_slept acts <= 1)%nat
  /\ (count_slept acts = 1%nat
      <-> by_title acts = true \/ In AltUp acts)
  /\ (by_title acts = true -> ~ In AltDown acts)
  /\ (In (WmctrlRan title) acts ->
      str_in "linux" (os d) = true /\ ~ In (Activated title) acts).
Proof.
  unfold _focus_window, alt_tab.
  destruct (str_in "windows" (os d) && gw d) eqn:Hwin;
    [|destruct (str_in "linux" (os d)) eqn:Hlin];
    try destruct (getWindowsWithTitle d title) as [[|n]|];
    try destruct (activate d); try destruct (wmctrl d title);
    destruct (keyDown_alt d), (press_tab d), (keyUp_alt d); cbn;
    repeat split; intros; try lia; try reflexivity;
    intuition (try discriminate; try congruence).
Qed.

(** X27: The Alt+Tab fallback has no [finally]: the Alt key stays held down
    exactly when the key was pressed down and the Tab press or the release
    then raised. *)
Theorem focus_window_alt_held (d : Desktop) (title : string) :
  let acts := _focus_window d title in
  alt_held false acts = true
  <-> In AltDown acts /\ (press_tab d = Raises \/ keyUp_alt d = Raises).
Proof.
  unfold _focus_window, alt_tab.
  destruct (str_in "windows" (os d) && gw d) eqn:Hwin;
    [|destruct (str_in "linux" (os d)) eqn:Hlin];
    try destruct (getWindowsWithTitle d title) as [[|n]|];
    try destruct (activate d); try destruct (wmctrl d title);
    destruct (keyDown_alt d), (press_tab d), (keyUp_alt d); cbn;
    repeat split; intros; try reflexivity;
    intuition (try discriminate; try congruence).
Qed.

Lemma focus_window_one_mechanism_witness :
  let d := {| os := "linux"; gw := false; getWindowsWithTitle := fun _ => None;
              activate := Raises; wmctrl := fun _ => Raises;
              keyDown_alt := Done; press_tab := Done; keyUp_alt := Done |} in
  count_slept (_focus_window d "Visual Studio Code") = 1%nat.
Proof.
  intros d.
  apply (proj2 (proj1 (proj2 (focus_window_one_mechanism d "Visual Studio Code")))).
  right. cbn. auto 6.
Defined.

Lemma focus_window_alt_held_witness :
  let d := {| os := "darwin"; gw := false; getWindowsWithTitle := fun _ => None;
              activate := Raises; wmctrl := fun _ => Raises;
              keyDown_alt := Done; press_tab := Raises; keyUp_alt := Done |} in
  alt_held false (_focus_window d "Google AI Studio") = true.
Proof.
  intros d.
  apply (proj2 (focus_window_alt_held d "Google AI Studio")).
  split; [cbn; auto | left; reflexivity].
Defined.

End WindowFacts.

(** ** Browser automation *)

Module BrowserFacts.
Import Ocr Window Browser.

Lemma click_loop_facts p attempt tries :
  run_clicks (fst (click_loop p attempt tries))
  = Nat.b2n (snd (click_loop p attempt tries))
  /\ (slept_total (fst (click_loop p attempt tries))
      <= 1000 * N.of_nat (length tries))%N
  /\ (snd (click_loop p attempt tries) = false ->
      slept_total (fst (click_loop p attempt tries))
      = (1000 * N.of_nat (length tries))%N).
Proof.
  induction tries as [|j rest IH]; [repeat split; cbn; lia|].
  cbn [click_loop].
  destruct (match buttons p attempt j with
            | Some btns => press_run btns
            | None => None
            end) as [text|].
  - cbn; repeat split; try lia; try discriminate.
  - destruct (click_loop p attempt rest) as [evs success].
    cbn [fst snd] in *. destruct IH as (Hc & Hs & He).
    unfold run_clicks, slept_total in *. cbn [List.filter flat_map app fold_right length].
    repeat split; [exact Hc | lia | intros Hf; specialize (He Hf); lia].
Qed.

(** X28: [send_prompt] gives up, with BrowserAutomationError, exactly when
    typing the prompt fails in all three attempts; it then has slept one
    second after the first and after the second failure and not after the
    third.  In every other case it returns normally. *)
Theorem send_prompt_gives_up (backend : string) (p : Page) :
  String.eqb backend "selenium" || String.eqb backend "playwright" = true ->
  (snd (send_prompt true true backend p) = BrowserAutomationError
   <-> fill p 1 = Raises /\ fill p 2 = Raises /\ fill p 3 = Raises)
  /\ (snd (send_prompt true true backend p) = BrowserAutomationError ->
      fst (send_prompt true true backend p)
      = [WarnAttemptFailed 1; Slept 1000; WarnAttemptFailed 2; Slept 1000;
         WarnAttemptFailed 3; ErrorGaveUp]).
Proof.
  intros Hk. unfold send_prompt. cbn [negb orb]. rewrite Hk.
  cbn [attempts Nat.eqb].
  destruct (fill p 1); [cbn; split; [split; [discriminate | intros [H _]; discriminate H] | discriminate]|].
  destruct (fill p 2); [cbn; split; [split; [discriminate | intros (_ & H & _); discriminate H] | discriminate]|].
  destruct (fill p 3); cbn.
  - split; [split; [discriminate | intros (_ & _ & H); discriminate H] | discriminate].
  - split; [split; [auto | reflexivity] | reflexivity].
Qed.

Lemma send_prompt_gives_up_witness :
  let p := {| fill := fun _ => Raises; buttons := fun _ _ => Some [] |} in
  send_prompt true true "selenium" p
  = ([WarnAttemptFailed 1; Slept 1000; WarnAttemptFailed 2; Slept 1000;
      WarnAttemptFailed 3; ErrorGaveUp], BrowserAutomationError).
Proof.
  intros p.
  destruct (send_prompt_gives_up "selenium" p eq_refl) as [Hiff Hevs].
  assert (Hres : snd (send_prompt true true "selenium" p) = BrowserAutomationError)
    by (apply Hiff; repeat split).
  rewrite (surjective_pairing (send_prompt true true "selenium" p)).
  now rewrite (Hevs Hres), Hres.
Defined.

Lemma after_typing_facts p attempt :
  (run_clicks (after_typing p attempt) <= 1)%nat
  /\ (slept_total (after_typing p attempt) <= 3500)%N
  /\ (run_clicks (after_typing p attempt) = 0%nat ->
      In WarnNoRun (after_typing p attempt)
      /\ slept_total (after_typing p attempt) = 3500%N).
Proof.
  unfold after_typing.
  destruct (click_loop_facts p attempt [0; 1; 2]%nat) as (Hc & Hs & He).
  destruct (click_loop p attempt [0; 1; 2]%nat) as [evs success].
  cbn [fst snd length] in *.
  assert (Hrc : forall tl, run_clicks (Slept 500 :: evs ++ tl)
                           = (run_clicks evs + run_clicks tl)%nat).
  { intros tl. unfold run_clicks. cbn [List.filter].
    now rewrite List.filter_app, length_app. }
  assert (Hst : forall tl, slept_total (Slept 500 :: evs ++ tl)
                           = (500 + (slept_total evs + slept_total tl))%N).
  { intros tl. unfold slept_total. cbn [flat_map app fold_right].
    rewrite flat_map_app. f_equal.
    induction (flat_map _ evs) as [|x l IH]; cbn [app fold_right]; lia. }
  rewrite Hrc, Hst. destruct success; cbn [Nat.b2n] in Hc; rewrite Hc; cbn.
  - repeat split; try lia.
  - specialize (He eq_refl). repeat split; try lia.
    right. apply in_or_app. right. now left.
Qed.

(** X29: Whatever the page does, [send_prompt] clicks a "Run" button at most
    once and sleeps at most 5.5 seconds in all; and it can return normally
    without having clicked: when the prompt was typed at the first attempt
    and no click went through, it returns after 3.5 seconds of sleep with a
    warning only.  Disabled, or without a driver, it does nothing. *)
Theorem send_prompt_bounds (enabled driver : bool) (backend : string) (p : Page) :
  let evs := fst (send_prompt enabled driver backend p) in
  (run_clicks evs <= 1)%nat
  /\ (slept_total evs <= 5500)%N
  /\ (enabled && driver = false ->
      send_prompt enabled driver backend p = ([], Returned))
  /\ (enabled && driver = true ->
      String.eqb backend "selenium" || String.eqb backend "playwright" = true ->
      fill p 1 = Done -> run_clicks evs = 0%nat ->
      snd (send_prompt enabled driver backend p) = Returned
      /\ In WarnNoRun evs /\ slept_total evs = 3500%N).
Proof.
  unfold send_prompt.
  destruct enabled, driver; cbn [negb orb andb];
    try (repeat split; cbn; try lia; discriminate).
  destruct (String.eqb backend "selenium" || String.eqb backend "playwright");
    cbn [attempts Nat.eqb].
  2:{ repeat split; cbn; try lia; discriminate. }
  pose proof (after_typing_facts p 1) as (A1 & B1 & C1).
  pose proof (after_typing_facts p 2) as (A2 & B2 & _).
  pose proof (after_typing_facts p 3) as (A3 & B3 & _).
  assert (Hrc : forall a tl, run_clicks (Typed a :: tl) = run_clicks tl)
    by reflexivity.
  assert (Hst : forall a tl, slept_total (Typed a :: tl) = slept_total tl)
    by reflexivity.
  destruct (fill p 1).
  - cbn [fst snd]. rewrite Hrc, Hst. repeat split; try lia; try discriminate;
      try (right; now apply C1); try (now apply C1).
  - destruct (fill p 2); [|destruct (fill p 3)]; cbn [fst snd];
      unfold run_clicks, slept_total in *;
      cbn [List.filter flat_map app fold_right length] in *;
      repeat split; try lia; try discriminate.
Qed.

Lemma send_prompt_bounds_witness :
  let p := {| fill := fun _ => Done;
              buttons := fun _ _ => Some [{| btn_text := Some "Cancel"%string;
                                              btn_click := Done |}] |} in
  snd (send_prompt true true "playwright" p) = Returned
  /\ slept_total (fst (send_prompt true true "playwright" p)) = 3500%N.
Proof.
  intros p.
  destruct (send_prompt_bounds true true "playwright" p) as (_ & _ & _ & H).
  destruct (H eq_refl eq_refl eq_refl eq_refl) as (H1 & _ & H3).
  split; assumption.
Defined.

End BrowserFacts.

(** ** Waiting for the answer *)

Module ResponseFacts.
Import Ocr Response.





End ResponseFacts.
